(** * inline_holo: binning, padding, CTF and validation numerics

    A shallow embedding of [inline_holo.py].  Floating point numbers are
    read as exact real numbers ([R]); the non-finite values the code
    relies on are modelled explicitly where they occur: the NaN produced by
    [np.sqrt] on a negative argument (the CTF model), and the NaN and the
    infinities of a division by zero ([float_value], in the Fourier ring
    correlation and the validation tests).  Python exceptions are the
    [Raise] results of a small error monad. *)

From Stdlib Require Import String Reals Lra Lia ZArith Bool List Permutation
  Sorted.
Import ListNotations.
Open Scope R_scope.

(** ** Exceptions *)

Inductive exn : Type :=
| ValueError
| TypeError
| IndexError
| ZeroDivisionError.

Inductive result (A : Type) : Type :=
| Ok (a : A)
| Raise (e : exn).

Arguments Ok {A} a.
Arguments Raise {A} e.

Definition bind {A B : Type} (c : result A) (k : A -> result B) : result B :=
  match c with
  | Ok a => k a
  | Raise e => Raise e
  end.

Notation "x <- c ;; k" := (bind c (fun x => k))
  (at level 61, c at next level, right associativity).
Notation "' p <- c ;; k" := (bind c (fun p => k))
  (at level 61, p pattern, c at next level, right associativity).

(** ** Real number tests as booleans *)

Definition Rleb (a b : R) : bool := if Rle_dec a b then true else false.
Definition Rltb (a b : R) : bool := if Rlt_dec a b then true else false.
Definition Reqb (a b : R) : bool := if Req_dec_T a b then true else false.

(** [np.ceil], [np.floor] and the truncation of [int(...)], as integers. *)
Definition Rfloor (x : R) : Z := (up x - 1)%Z.
Definition Rceil (x : R) : Z := (1 - up (- x))%Z.
Definition Rtrunc (x : R) : Z := if Rle_dec 0 x then Rfloor x else Rceil x.

(** ** Complex numbers *)

Record complex : Type := mkC { Re : R; Im : R }.

Definition RtoC (x : R) : complex := mkC x 0.
Definition Ci : complex := mkC 0 1.
Definition C0 : complex := mkC 0 0.
Definition Cadd (a b : complex) : complex := mkC (Re a + Re b) (Im a + Im b).
Definition Cmul (a b : complex) : complex :=
  mkC (Re a * Re b - Im a * Im b) (Re a * Im b + Im a * Re b).
Definition Cconj (a : complex) : complex := mkC (Re a) (- Im a).
Definition Cabs (a : complex) : R := sqrt (Re a * Re a + Im a * Im a).
(** A complex number divided by a real one (numpy promotes the counts). *)
Definition Cdiv_real (a : complex) (c : R) : complex := mkC (Re a / c) (Im a / c).
(** [np.exp(1j * t)] for a real [t]. *)
Definition Cexp_i (t : R) : complex := mkC (cos t) (sin t).

(** ** numpy primitives *)

(** [a.ravel()] of a two-dimensional array, row-major. *)
Definition ravel {A : Type} (a : list (list A)) : list A := concat a.

(** Elementwise binary operation on two one-dimensional arrays. *)
Definition map2 {A B D : Type} (f : A -> B -> D) (l : list A) (m : list B)
  : list D :=
  map (fun p => f (fst p) (snd p)) (combine l m).

Definition Rsum (l : list R) : R := fold_right Rplus 0 l.

(** Insertion in a strictly increasing list, dropping a value already there. *)
Fixpoint insert_sorted (x : R) (l : list R) : list R :=
  match l with
  | [] => [x]
  | y :: t =>
      if Rltb x y then x :: y :: t
      else if Reqb x y then y :: t
      else y :: insert_sorted x t
  end.

(** [np.unique(a)]: the sorted distinct values of the flattened array. *)
Definition np_unique (a : list R) : list R := fold_right insert_sorted [] a.

(** Position of [x] in the sorted array of distinct values. *)
Definition unique_index (dst : list R) (x : R) : nat :=
  length (filter (fun d => Rltb d x) dst).

Definition count_of (a : list R) (d : R) : nat :=
  length (filter (fun y => Reqb y d) a).

(** [np.unique(a, return_inverse=True, return_counts=True)]. *)
Definition np_unique_inverse_counts (a : list R)
  : list R * list nat * list nat :=
  let dst := np_unique a in
  (dst, map (unique_index dst) a, map (count_of a) dst).

Definition bincount_length (x : list nat) : nat :=
  match x with
  | [] => 0%nat
  | _ => S (list_max x)
  end.

(** [np.bincount(x, weights=w)]: entry [k] is the sum of the weights whose
    index is [k]; the two arrays must have the same length. *)
Definition np_bincount (x : list nat) (weights : list R) : result (list R) :=
  if Nat.eqb (length x) (length weights) then
    Ok (map (fun k =>
               Rsum (map snd (filter (fun p => Nat.eqb (fst p) k)
                                     (combine x weights))))
            (seq 0 (bincount_length x)))
  else Raise ValueError.

(** ** Binarized counting integrals (module level routines) *)

Definition integrate_binary_real (sdata : list (list R))
    (bin_mask : list (list R)) (normalize : bool) : result (list R) :=
  let '(dst, inv, cts) := np_unique_inverse_counts (ravel bin_mask) in
  idata <- np_bincount inv (ravel sdata) ;;
  if normalize then Ok (map2 (fun s c => s / INR c) idata cts)
  else Ok idata.

Definition integrate_binary_comp (sdata : list (list complex))
    (bin_mask : list (list R)) (normalize : bool) : result (list complex) :=
  let '(dst, inv, cts) := np_unique_inverse_counts (ravel bin_mask) in
  re <- np_bincount inv (ravel (map (map Re) sdata)) ;;
  im <- np_bincount inv (ravel (map (map Im) sdata)) ;;
  let idata :=
    map2 Cadd (map RtoC re) (map (fun b => Cmul Ci (RtoC b)) im) in
  if normalize then Ok (map2 (fun z c => Cdiv_real z (INR c)) idata cts)
  else Ok idata.

Fixpoint mapM {A B : Type} (f : A -> result B) (l : list A)
  : result (list B) :=
  match l with
  | [] => Ok []
  | a :: t => b <- f a ;; bs <- mapM f t ;; Ok (b :: bs)
  end.

(** [a.max()] and [a.min()]; numpy raises [ValueError] on an empty array. *)
Definition np_max (a : list R) : result R :=
  match a with
  | [] => Raise ValueError
  | x :: t => Ok (fold_left Rmax t x)
  end.

Definition np_min (a : list R) : result R :=
  match a with
  | [] => Raise ValueError
  | x :: t => Ok (fold_left Rmin t x)
  end.

(** [np.arange(start, stop, step)]: [ceil((stop - start) / step)] values
    [start + i * step].  A zero step makes the length undefined and numpy
    refuses to build the array. *)
Definition np_arange (start stop step : R) : result (list R) :=
  if Req_dec_T step 0 then Raise ValueError
  else Ok (map (fun i => start + INR i * step)
               (seq 0 (Z.to_nat (Rceil ((stop - start) / step))))).

Fixpoint nondecreasing (l : list R) : bool :=
  match l with
  | a :: ((b :: _) as t) => Rleb a b && nondecreasing t
  | _ => true
  end.

Fixpoint nonincreasing (l : list R) : bool :=
  match l with
  | a :: ((b :: _) as t) => Rleb b a && nonincreasing t
  | _ => true
  end.

(** [np.digitize(x, bins)] with [right=False]: for increasing bins the index
    [i] with [bins[i-1] <= x < bins[i]], for decreasing bins the one with
    [bins[i-1] > x >= bins[i]]; bins that are not monotonic are refused. *)
Definition np_digitize (x : list (list R)) (bins : list R)
  : result (list (list nat)) :=
  if nondecreasing bins then
    Ok (map (map (fun v => length (filter (fun b => Rleb b v) bins))) x)
  else if nonincreasing bins then
    Ok (map (map (fun v => length (filter (fun b => Rltb v b) bins))) x)
  else Raise ValueError.

(** [bins[idx]] for an array of indices. *)
Definition np_take (bins : list R) (idx : list (list nat))
  : result (list (list R)) :=
  mapM (mapM (fun i => match nth_error bins i with
                       | Some b => Ok b
                       | None => Raise IndexError
                       end)) idx.

(** [np.diff] and [np.round(x, decimals)] (round half to even). *)
Fixpoint np_diff (l : list R) : list R :=
  match l with
  | a :: ((b :: _) as t) => (b - a) :: np_diff t
  | _ => []
  end.

Definition round_half_even (x : R) : Z :=
  let f := Rfloor x in
  if Rlt_dec (x - IZR f) (1 / 2) then f
  else if Rlt_dec (1 / 2) (x - IZR f) then (f + 1)%Z
  else if Z.even f then f else (f + 1)%Z.

Definition np_round (x : R) (decimals : nat) : R :=
  IZR (round_half_even (x * 10 ^ decimals)) / 10 ^ decimals.

(** [np.fft.ifftshift] of a vector: a left rotation by [n // 2]. *)
Definition np_ifftshift (x : list R) : list R :=
  skipn (length x / 2) x ++ firstn (length x / 2) x.

(** [np.meshgrid(kx, ky)]: two arrays of shape [(len ky, len kx)]. *)
Definition np_meshgrid (kx ky : list R)
  : list (list R) * list (list R) :=
  (map (fun _ => kx) ky, map (fun y => map (fun _ => y) kx) ky).

(** [np.angle(x + 1j*y)], the argument in (-pi, pi]. *)
Definition np_angle (x y : R) : R :=
  if Rlt_dec 0 x then atan (y / x)
  else if Rlt_dec x 0 then
    (if Rle_dec 0 y then atan (y / x) + PI else atan (y / x) - PI)
  else if Rlt_dec 0 y then PI / 2
  else if Rlt_dec y 0 then - PI / 2
  else 0.

(** Python's [l[start:stop]] for non-negative bounds. *)
Definition py_slice {A : Type} (start stop : nat) (l : list A) : list A :=
  firstn (stop - start) (skipn start l).

(** [np.pad(plane, ((b0, a0), (b1, a1)), 'constant', constant_values=c)]. *)
Definition pad_constant {A : Type} (c : A) (b0 a0 b1 a1 : nat)
    (plane : list (list A)) : list (list A) :=
  let width := (b1 + length (hd [] plane) + a1)%nat in
  repeat (repeat c width) b0
  ++ map (fun row => repeat c b1 ++ row ++ repeat c a1) plane
  ++ repeat (repeat c width) a0.

(** The pad widths numpy accepts for a two-dimensional array: a
    [(1,1)], [(1,2)], [(2,1)] or [(2,2)] array of non-negative integers,
    broadcast to one (before, after) pair per array axis. *)
Definition broadcast_pad_width (pw : list (list Z))
  : result ((nat * nat) * (nat * nat)) :=
  let nonneg := forallb (forallb (fun v => (0 <=? v)%Z)) pw in
  if negb nonneg then Raise ValueError else
  match pw with
  | [[v]] => Ok ((Z.to_nat v, Z.to_nat v), (Z.to_nat v, Z.to_nat v))
  | [[b; a]] => Ok ((Z.to_nat b, Z.to_nat a), (Z.to_nat b, Z.to_nat a))
  | [[v0]; [v1]] => Ok ((Z.to_nat v0, Z.to_nat v0), (Z.to_nat v1, Z.to_nat v1))
  | [[b0; a0]; [b1; a1]] =>
      Ok ((Z.to_nat b0, Z.to_nat a0), (Z.to_nat b1, Z.to_nat a1))
  | _ => Raise ValueError
  end.

Definition np_pad {A : Type} (plane : list (list A)) (pw : list (list Z))
    (constant_values : A) : result (list (list A)) :=
  '(p0, p1) <- broadcast_pad_width pw ;;
  Ok (pad_constant constant_values (fst p0) (snd p0) (fst p1) (snd p1) plane).

(** The module level [_pad] wrapper (mode ['constant']). *)
Definition _pad {A : Type} (arr : list (list A)) (pad_width : list (list Z))
    (constant_values : A) : result (list (list A)) :=
  np_pad arr pad_width constant_values.

(** ** The signal container

    What the code uses of a hyperspy signal: the data (one two-dimensional
    plane per navigation index, rows along [y] and columns along [x]), the
    navigation axes, the two signal axes in hyperspy's order ([x] first) and
    the metadata items the module reads and writes. *)

Record DataAxis : Type := mkAxis {
  size : nat;
  scale : R;
  offset : R;
  units : string
}.

Record Metadata : Type := mkMeta {
  pad_width : option (list (list Z));        (* 'Signal.pad_width' *)
  wave_length : option R;                    (* 'ModImage.wave_length' *)
  refractive_index : option R;               (* 'ModImage.refractive_index' *)
  numerical_aperture : option R;             (* 'ModImage.numerical_aperture' *)
  f_smooth_aperture : option R               (* 'ModImage.f_smooth_aperture' *)
}.

Definition empty_metadata : Metadata := mkMeta None None None None None.

Record Image (A : Type) : Type := mkImage {
  data : list (list (list A));
  navigation_axes : list DataAxis;
  x_axis : DataAxis;
  y_axis : DataAxis;
  metadata : Metadata
}.

Arguments mkImage {A} data navigation_axes x_axis y_axis metadata.
Arguments data {A} i.
Arguments navigation_axes {A} i.
Arguments x_axis {A} i.
Arguments y_axis {A} i.
Arguments metadata {A} i.

Definition signal_axes {A : Type} (s : Image A) : list DataAxis :=
  [x_axis s; y_axis s].

(** [axis.axis]: the coordinate of every pixel of an axis. *)
Definition axis_values (ax : DataAxis) : list R :=
  map (fun i => offset ax + INR i * scale ax) (seq 0 (size ax)).

Definition set_size (ax : DataAxis) (n : nat) : DataAxis :=
  mkAxis n (scale ax) (offset ax) (units ax).

Definition set_offset (ax : DataAxis) (o : R) : DataAxis :=
  mkAxis (size ax) (scale ax) o (units ax).

Definition set_pad_width (m : Metadata) (p : option (list (list Z)))
  : Metadata :=
  mkMeta p (wave_length m) (refractive_index m) (numerical_aperture m)
         (f_smooth_aperture m).

(** [s.get_dimensions_from_data()]: the axis sizes follow the data. *)
Definition get_dimensions_from_data {A : Type} (s : Image A) : Image A :=
  match data s with
  | [] => s
  | plane :: _ =>
      mkImage (data s) (navigation_axes s)
              (set_size (x_axis s) (length (hd [] plane)))
              (set_size (y_axis s) (length plane))
              (metadata s)
  end.

(** [axis._get_positive_index] and [axis._get_array_slices] on an integer
    index: the slice [start : start + 1]. *)
Definition _get_positive_index (ax : DataAxis) (index : Z) : result nat :=
  if (index <? 0)%Z then
    if (Z.of_nat (size ax) + index <? 0)%Z then Raise IndexError
    else Ok (Z.to_nat (Z.of_nat (size ax) + index))
  else Ok (Z.to_nat index).

Definition _get_array_slices (ax : DataAxis) (index : Z)
  : result (nat * nat) :=
  start <- _get_positive_index ax index ;;
  Ok (start, S start).

(** A slicer is [slice(None)] or [slice(start, stop)]. *)
Definition slicer : Type := option (nat * nat).

Definition apply_slicer {A : Type} (sl : slicer) (l : list A) : list A :=
  match sl with
  | None => l
  | Some (start, stop) => py_slice start stop l
  end.

(** [axis._slice_me]: the new offset is the coordinate of the first pixel
    kept, [axis.axis[start]]. *)
Definition _slice_me (ax : DataAxis) (sl : slicer) : result DataAxis :=
  let start := match sl with None => 0%nat | Some (start, _) => start end in
  if (start <? size ax)%nat
  then Ok (set_offset ax (offset ax + INR start * scale ax))
  else Raise IndexError.

(** [s.isig[sx, sy]]: slicing of the signal axes, in hyperspy's order. *)
Definition isig {A : Type} (s : Image A) (slicers : list slicer)
  : result (Image A) :=
  let sx := nth 0 slicers None in
  let sy := nth 1 slicers None in
  x' <- _slice_me (x_axis s) sx ;;
  y' <- _slice_me (y_axis s) sy ;;
  Ok (get_dimensions_from_data
        (mkImage (map (fun plane => map (apply_slicer sx)
                                        (apply_slicer sy plane)) (data s))
                 (navigation_axes s) x' y' (metadata s))).

(** [s.map(f, inplace=False)]: [f] on every plane, the axes resized. *)
Definition map_signal {A : Type} (f : list (list A) -> result (list (list A)))
    (s : Image A) : result (Image A) :=
  planes <- mapM f (data s) ;;
  Ok (get_dimensions_from_data
        (mkImage planes (navigation_axes s) (x_axis s) (y_axis s)
                 (metadata s))).

(** ** Padding manager ([ModifiedSignal]) *)

Inductive pad_entry : Type :=
| PadInt (n : Z)
| PadFloat (x : R).

(** The [pad_width] argument: a flat sequence of numbers such as
    [(50, 50.)], or a sequence of integer rows such as [((50, 100),)]. *)
Inductive pad_width_arg : Type :=
| PadFlat (l : list pad_entry)
| PadNested (rows : list (list Z)).

Definition pad_entry_int (e : pad_entry) : Z :=
  match e with
  | PadInt n => n
  | PadFloat x => Rtrunc x
  end.

(** [np.array(pad_width, np.int)], a flat array already seen as a column
    ([pad_arr[:,None]]); rows of unequal lengths are no array. *)
Definition pad_array (pad_width : pad_width_arg) : result (list (list Z)) :=
  match pad_width with
  | PadFlat l => Ok (map (fun e => [pad_entry_int e]) l)
  | PadNested [] => Ok []
  | PadNested (r :: t) =>
      if forallb (fun r' => Nat.eqb (length r') (length r)) t
      then Ok (r :: t) else Raise ValueError
  end.

Definition pad_items (pad_width : pad_width_arg) : list (option pad_entry) :=
  match pad_width with
  | PadFlat l => map Some l
  | PadNested rows => map (fun _ => None) rows
  end.

Definition list_set {A : Type} (l : list A) (i : nat) (a : A) : list A :=
  firstn i l ++ match skipn i l with [] => [] | _ :: t => a :: t end.

(** The loop of [set_pad]: a float entry is turned into pixels with the
    scale of its axis, and the array index of every axis met is recorded. *)
Fixpoint set_pad_loop (zipped : list (option pad_entry * (DataAxis * nat)))
    (io : nat) (pad_arr : list (list Z)) (indices : list nat)
  : result (list (list Z) * list nat) :=
  match zipped with
  | [] => Ok (pad_arr, indices)
  | (pw, (ax, index_in_array)) :: rest =>
      pad_arr' <-
        match pw with
        | Some (PadFloat x) =>
            if Req_dec_T (scale ax) 0 then Raise ZeroDivisionError
            else Ok (list_set pad_arr io
                       (map (fun _ => Rtrunc (x / scale ax))
                            (nth io pad_arr [])))
        | _ => Ok pad_arr
        end ;;
      set_pad_loop rest (S io) pad_arr' (indices ++ [index_in_array])
  end.

(** [np.argsort]: the positions of the values in increasing order. *)
Fixpoint insert_by_key (p : nat * nat) (l : list (nat * nat))
  : list (nat * nat) :=
  match l with
  | [] => [p]
  | q :: t => if (fst q <=? fst p)%nat then q :: insert_by_key p t
              else p :: q :: t
  end.

Definition np_argsort (l : list nat) : list nat :=
  map snd (fold_left (fun acc p => insert_by_key p acc)
                     (combine l (seq 0 (length l))) []).

Definition take_rows {A : Type} (rows : list (list A)) (idx : list nat)
  : list (list A) :=
  map (fun i => nth i rows []) idx.

(** Array index of the signal axes: after the navigation dimensions come
    [y], then [x]. *)
Definition signal_indices_in_array {A : Type} (s : Image A)
  : list (DataAxis * nat) :=
  [(x_axis s, S (length (navigation_axes s)));
   (y_axis s, length (navigation_axes s))].

(** [set_pad(pad_width, 'constant', constant_values=c)]. *)
Definition set_pad {A : Type} (self : Image A)
    (pad_width : option pad_width_arg) (constant_values : A)
  : result (Image A) :=
  match pad_width with
  | None => Ok self
  | Some pw =>
      pad_arr <- pad_array pw ;;
      let Nsig := 2%nat in
      if (Nsig <? length pad_arr)%nat then Raise ValueError else
      '(pad_arr, indices) <-
        set_pad_loop (combine (pad_items pw) (signal_indices_in_array self))
                     0 pad_arr [] ;;
      out <- map_signal
               (fun arr => _pad arr (take_rows pad_arr (np_argsort indices))
                                constant_values)
               self ;;
      Ok (mkImage (data out) (navigation_axes out) (x_axis out) (y_axis out)
                  (set_pad_width (metadata out) (Some pad_arr)))
  end.

(** The loop of [remove_pad]. *)
Fixpoint remove_pad_loop (zipped : list (list Z * DataAxis)) (io : nat)
    (slicers : list slicer) (sum_up : list R)
  : result (list slicer * list R) :=
  match zipped with
  | [] => Ok (slicers, sum_up)
  | (pw, ax) :: rest =>
      '(pw0, pw1) <-
        match pw with
        | [] => Raise IndexError
        | [v] => Ok (v, v)
        | b :: a :: _ => Ok (b, a)
        end ;;
      if negb (pw0 =? 0)%Z && negb (pw1 =? 0)%Z then
        a <- _get_array_slices ax pw0 ;;
        b <- _get_array_slices ax (- pw1) ;;
        remove_pad_loop rest (S io)
          (list_set slicers io (Some (fst a, (snd b - 1)%nat)))
          (sum_up ++ [INR (fst a) * scale ax])
      else
        remove_pad_loop rest (S io) slicers [0]
  end.

(** [out.axes_manager.signal_axes[io].offset -= pw] over [enumerate(sum_up)]. *)
Definition reset_offsets {A : Type} (out : Image A) (sum_up : list R)
  : result (Image A) :=
  match sum_up with
  | [] => Ok out
  | [px] =>
      Ok (mkImage (data out) (navigation_axes out)
                  (set_offset (x_axis out) (offset (x_axis out) - px))
                  (y_axis out) (metadata out))
  | [px; py] =>
      Ok (mkImage (data out) (navigation_axes out)
                  (set_offset (x_axis out) (offset (x_axis out) - px))
                  (set_offset (y_axis out) (offset (y_axis out) - py))
                  (metadata out))
  | _ => Raise IndexError
  end.

Definition remove_pad {A : Type} (self : Image A) : result (Image A) :=
  match pad_width (metadata self) with
  | None => Ok self
  | Some pad_width =>
      let Nsig := 2%nat in
      if (Nsig <? length pad_width)%nat then Raise ValueError else
      '(slicers, sum_up) <-
        remove_pad_loop (combine pad_width (signal_axes self)) 0
                        [None; None] [] ;;
      out <- isig self slicers ;;
      out <- reset_offsets out sum_up ;;
      Ok (mkImage (data out) (navigation_axes out) (x_axis out) (y_axis out)
                  (set_pad_width (metadata out) None))
  end.

(** ** Coordinate engine ([ModifiedImage]) *)

(** A shift is given in pixels (an [int]) or in scaled units (a [float]). *)
Inductive shift_val : Type :=
| ShiftInt (n : Z)
| ShiftFloat (x : R).

(** [coords[io] -= 0.5 * (coords[io] - offsets[io]).max()]. *)
Definition center_coords (coords : list R) (axis_offset : R)
  : result (list R) :=
  m <- np_max (map (fun c => c - axis_offset) coords) ;;
  Ok (map (fun c => c - 0.5 * m) coords).

(** [shifts[io] *= scales[io]] for an [int], then [coords[io] -= shifts[io]]. *)
Definition shift_coords (coords : list R) (axis_scale : R) (s : shift_val)
  : list R :=
  let amount := match s with
                | ShiftInt n => IZR n * axis_scale
                | ShiftFloat x => x
                end in
  map (fun c => c - amount) coords.

Definition get_real_space {A : Type} (self : Image A) (shifted : bool)
    (shifts : option (list shift_val)) : result (list R * list R) :=
  let scales := map scale (signal_axes self) in
  let offsets := map offset (signal_axes self) in
  let cx := axis_values (x_axis self) in
  let cy := axis_values (y_axis self) in
  '(cx, cy) <-
    (if shifted then
       cx' <- center_coords cx (nth 0 offsets 0) ;;
       cy' <- center_coords cy (nth 1 offsets 0) ;;
       Ok (cx', cy')
     else Ok (cx, cy)) ;;
  match shifts with
  | None => Ok (cx, cy)
  | Some shifts =>
      match shifts with
      | [s0; s1] =>
          Ok (shift_coords cx (nth 0 scales 0) s0,
              shift_coords cy (nth 1 scales 0) s1)
      | _ =>
          (* [raise "The number of shift values should be 2"]: the operand
             of [raise] is a [str], not an exception, and Python answers
             with a [TypeError]. *)
          Raise TypeError
      end
  end.

(** What [get_fourier_space] returns, by [retstr]. *)
Inductive fourier_space : Type :=
| FS_square (k2 : list (list R))
| FS_vectors (kx ky : list R)
| FS_both (k2 : list (list R)) (kx ky : list R).

Definition k_vector (N : nat) (dk : R) : list R :=
  np_ifftshift (map (fun i => dk * (- INR (N / 2) + INR i)) (seq 0 N)).

(** The grid computed by [get_fourier_space]: [k2], [kx] and [ky]. *)
Definition fourier_grid {A : Type} (self : Image A)
  : result (list (list R) * list R * list R) :=
  let Nx := size (x_axis self) in
  let Ny := size (y_axis self) in
  let dx := scale (x_axis self) in
  let dy := scale (y_axis self) in
  if Req_dec_T (INR Ny * dy) 0 then Raise ZeroDivisionError else
  if Req_dec_T (INR Nx * dx) 0 then Raise ZeroDivisionError else
  let dky := 2 * PI / (INR Ny * dy) in
  let dkx := 2 * PI / (INR Nx * dx) in
  let kx := k_vector Nx dkx in
  let ky := k_vector Ny dky in
  let '(kxm, kym) := np_meshgrid kx ky in
  let k2 := map2 (map2 (fun a b => a * a + b * b)) kxm kym in
  Ok (k2, kx, ky).

Definition get_fourier_space {A : Type} (self : Image A) (retstr : string)
  : result fourier_space :=
  '(k2, kx, ky) <- fourier_grid self ;;
  if String.eqb retstr "vectors" then Ok (FS_vectors kx ky)
  else if String.eqb retstr "square" then Ok (FS_square k2)
  else if String.eqb retstr "both" then Ok (FS_both k2 kx ky)
  else Raise ValueError.

(** ** Binning engine ([ModifiedImage]) *)

Inductive bin_size_arg : Type :=
| BinNone
| BinInt (n : Z)
| BinFloat (r : R).

(** The three lines shared by both digitizations:
    [bins = np.arange(mesh.min(), mesh.max() + 1.1*bin_size, bin_size)] and
    [bins[np.digitize(mesh, bins)]]. *)
Definition binarize (mesh : list (list R)) (bin_size : R)
  : result (list (list R)) :=
  lo <- np_min (ravel mesh) ;;
  hi <- np_max (ravel mesh) ;;
  bins <- np_arange lo (hi + 1.1 * bin_size) bin_size ;;
  idx <- np_digitize mesh bins ;;
  np_take bins idx.

(** [np.sqrt(np.sum(np.power(scales, 2)))]. *)
Definition default_bin_size {A : Type} (self : Image A) : R :=
  sqrt (Rsum (map (fun s => s * s) (map scale (signal_axes self)))).

(** [self._get_signal_signal()] with its data replaced. *)
Definition signal_signal {A : Type} (self : Image A) (d : list (list R))
  : Image R :=
  mkImage [d] [] (x_axis self) (y_axis self) empty_metadata.

(** [np.sqrt(xx[None, :]**2. + yy[:, None]**2.)]. *)
Definition radius_mesh (xx yy : list R) : list (list R) :=
  map (fun y => map (fun x => sqrt (x * x + y * y)) xx) yy.

(** [np.angle(xx[None, :] + 1j * yy[:, None])]. *)
Definition angle_mesh (xx yy : list R) : list (list R) :=
  map (fun y => map (fun x => np_angle x y) xx) yy.

(** The bin width used by the radial digitization. *)
Definition radius_bin_size {A : Type} (self : Image A)
    (radius : list (list R)) (bin_size : bin_size_arg) : result R :=
  match bin_size with
  | BinNone => Ok (default_bin_size self)
  | BinInt n =>
      hi <- np_max (ravel radius) ;;
      (* a numpy float divided by 0 is inf or nan, on which [np.arange]
         fails below *)
      if (n =? 0)%Z then Raise ValueError else Ok (hi / IZR n)
  | BinFloat r => Ok r
  end.

Definition get_digitized_radius {A : Type} (self : Image A)
    (bin_size : bin_size_arg) (shifted : bool)
    (shifts : option (list shift_val)) : result (Image R) :=
  '(xx, yy) <- get_real_space self shifted shifts ;;
  let radius := radius_mesh xx yy in
  bin_size <- radius_bin_size self radius bin_size ;;
  d <- binarize radius bin_size ;;
  Ok (signal_signal self d).

(** The bin width used by the angular digitization. *)
Definition angle_bin_size {A : Type} (self : Image A)
    (bin_size : bin_size_arg) : result R :=
  match bin_size with
  | BinNone => Ok (default_bin_size self)
  | BinInt n =>
      if (n =? 0)%Z then Raise ZeroDivisionError else Ok (2 * PI / IZR n)
  | BinFloat r => Ok r
  end.

Definition get_digitized_angle {A : Type} (self : Image A)
    (bin_size : bin_size_arg) (shifted : bool)
    (shifts : option (list shift_val)) : result (Image R) :=
  '(xx, yy) <- get_real_space self shifted shifts ;;
  let angle := angle_mesh xx yy in
  bin_size <- angle_bin_size self bin_size ;;
  d <- binarize angle bin_size ;;
  Ok (signal_signal self d).

(** A one-dimensional signal: one row of data per navigation index, the
    explicit axis vector when one was set, and the linear calibration. *)
Record Signal1D (A : Type) : Type := mkSignal1D {
  sig_data : list (list A);
  sig_axis : option (list R);
  sig_offset : R;
  sig_scale : R;
  sig_units : string;
  sig_name : string
}.

Arguments mkSignal1D {A} sig_data sig_axis sig_offset sig_scale sig_units
  sig_name.
Arguments sig_data {A} s.
Arguments sig_axis {A} s.
Arguments sig_offset {A} s.
Arguments sig_scale {A} s.
Arguments sig_units {A} s.
Arguments sig_name {A} s.

(** The element types an image can hold, with the integrator that
    [np.iscomplexobj(self.data)] selects for each. *)
Class Dtype (A : Type) : Type := {
  iscomplexobj : bool;
  integrator : list (list A) -> list (list R) -> bool -> result (list A)
}.

#[export] Instance Dtype_real : Dtype R :=
  {| iscomplexobj := false; integrator := integrate_binary_real |}.

#[export] Instance Dtype_complex : Dtype complex :=
  {| iscomplexobj := true; integrator := integrate_binary_comp |}.

(** The planes of the mask that go with the planes of the image when
    [map] iterates: a mask without navigation axes serves every plane. *)
Definition mask_planes (bin_mask : Image R) (n : nat)
  : result (list (list (list R))) :=
  match navigation_axes bin_mask, data bin_mask with
  | [], [m] => Ok (repeat m n)
  | _, ms => if Nat.eqb (length ms) n then Ok ms else Raise ValueError
  end.

Definition integrate_binary {A : Type} `{Dtype A} (self : Image A)
    (bin_mask : Image R) (normalize : bool) : result (Signal1D A) :=
  masks <- mask_planes bin_mask (length (data self)) ;;
  rows <- mapM (fun pm => integrator (fst pm) (snd pm) normalize)
               (combine (data self) masks) ;;
  let integral_signal := mkSignal1D rows None 0 1 "" "" in
  match navigation_axes bin_mask with
  | [] =>
      let dst := np_unique (ravel (concat (data bin_mask))) in
      let nbins :=
        length (np_unique (map (fun d => np_round d 5) (np_diff dst))) in
      if Nat.eqb nbins 1 then
        Ok (mkSignal1D rows (Some dst) (nth 0 dst 0)
                       (nth 1 dst 0 - nth 0 dst 0) "" "")
      else Ok (mkSignal1D rows (Some dst) 0 1 "" "")
  | _ => Ok integral_signal
  end.

Definition integrate_radial {A : Type} `{Dtype A} (self : Image A)
    (bin_size : bin_size_arg) (shifted : bool)
    (shifts : option (list shift_val)) (normalize : bool)
  : result (Signal1D A) :=
  radius <- get_digitized_radius self bin_size shifted shifts ;;
  integrate_binary self radius normalize.

Definition integrate_angular {A : Type} `{Dtype A} (self : Image A)
    (bin_size : bin_size_arg) (shifted : bool)
    (shifts : option (list shift_val)) (normalize : bool)
  : result (Signal1D A) :=
  angle <- get_digitized_angle self bin_size shifted shifts ;;
  integrate_binary self angle normalize.

(** ** CTF model ([ModifiedImage.get_contrast_transfer]) *)

(** [np.sqrt]: NaN ([None]) on a negative argument. *)
Definition np_sqrt (x : R) : option R :=
  if Rlt_dec x 0 then None else Some (sqrt x).

(** The aberration function without astigmatism,
    [np.sqrt(wnum**2-k2) - wnum]. *)
Definition chi_plain (wnum : R) (k2 : list (list R))
  : list (list (option R)) :=
  map (map (fun q => match np_sqrt (wnum * wnum - q) with
                     | Some s => Some (s - wnum)
                     | None => None
                     end)) k2.

(** The aberration function for one astigmatism angle,
    [np.sqrt(wnum**2-ka2) - 0.5*(np.sqrt(wnum**2-k2) + wnum)]. *)
Definition chi_astigmatic (wnum : R) (kx ky k2 : list (list R)) (angle : R)
  : list (list (option R)) :=
  let ka := map2 (map2 (fun a b => a * cos angle + b * sin angle)) kx ky in
  let ka2 := map (map (fun a => a * a)) ka in
  map2 (map2 (fun qa q =>
                match np_sqrt (wnum * wnum - qa), np_sqrt (wnum * wnum - q) with
                | Some sa, Some s => Some (sa - 0.5 * (s + wnum))
                | _, _ => None
                end)) ka2 k2.

(** The aperture: sharp, then smoothed by a cosine bell when [fsmooth] is
    set. *)
Definition aperture_value (k2Aperture : R) (fsmooth : option R) (q : R) : R :=
  let hard := if Rle_dec q k2Aperture then 1 else 0 in
  match fsmooth with
  | None => hard
  | Some f =>
      if Rltb k2Aperture q && Rltb q ((1 + f) * k2Aperture)
      then 0.5 * (1 + cos (PI * (q - k2Aperture) / (f * k2Aperture)))
      else hard
  end.

(** One slice [np.exp(1j * Chi * defocus) * aperture]; a NaN of [Chi]
    stays a NaN. *)
Definition ctf_slice (Chi : list (list (option R)))
    (aperture : list (list R)) (defocus : R) : list (list (option complex)) :=
  map2 (map2 (fun chi ap =>
                match chi with
                | Some c => Some (Cmul (Cexp_i (c * defocus)) (RtoC ap))
                | None => None
                end)) Chi aperture.

(** [np.nan_to_num] on a complex value. *)
Definition nan_to_num (z : option complex) : complex :=
  match z with
  | Some c => c
  | None => C0
  end.

(** [np.squeeze] acts on the shape only. *)
Definition np_squeeze (shape : list nat) : list nat :=
  filter (fun n => negb (Nat.eqb n 1)) shape.

(** The CTF that is returned: the shape of its array, the array as the
    list of its two-dimensional slices (defocus major, angle minor), the
    metadata with the four optical parameters used and the item
    ['ModImage.astigmatic_defocus'], set when there are angles.  The
    calibration of the axes of the returned image is not part of this
    record. *)
Record CTFImage : Type := mkCTF {
  ctf_shape : list nat;
  ctf_data : list (list (list complex));
  ctf_metadata : Metadata;
  ctf_astigmatic_defocus : option (list R)
}.

Definition from_option {A : Type} (o : option A) (d : A) : A :=
  match o with
  | Some a => a
  | None => d
  end.

Definition first_some {A : Type} (a b : option A) : option A :=
  match a with
  | Some _ => a
  | None => b
  end.

(** The defocus values: the argument, else the first navigation axis;
    with them the number of navigation axes read so far. *)
Definition read_defoci {A : Type} (self : Image A)
    (defoci : option (list R)) : option (list R * nat) :=
  match defoci with
  | Some d => Some (d, 0%nat)
  | None =>
      match nth_error (navigation_axes self) 0 with
      | Some ax => Some (axis_values ax, 1%nat)
      | None => None
      end
  end.

(** The astigmatism angles: the argument, else the next navigation axis,
    else none. *)
Definition read_angles {A : Type} (self : Image A)
    (angles : option (list R)) (ax_count : nat) : option (list R) :=
  match angles with
  | Some a => Some a
  | None => option_map axis_values (nth_error (navigation_axes self) ax_count)
  end.

(** An optical parameter: the argument, else the metadata item, else 1. *)
Definition read_parameter (given stored : option R) : R :=
  from_option (first_some given stored) 1.

(** The array [CTF] before [np.nan_to_num]: one slice per defocus value, or
    per defocus value and angle. *)
Definition contrast_transfer_array (k2 kx ky : list (list R))
    (wnum k2Aperture : R) (fsmooth : option R) (defoci : list R)
    (angles : option (list R)) : list (list (list (option complex))) :=
  let aperture := map (map (aperture_value k2Aperture fsmooth)) k2 in
  match angles with
  | Some angles =>
      flat_map (fun d =>
                  map (fun a => ctf_slice (chi_astigmatic wnum kx ky k2 a)
                                          aperture d)
                      angles)
               defoci
  | None => map (ctf_slice (chi_plain wnum k2) aperture) defoci
  end.

Definition contrast_transfer_shape (Nx Ny : nat) (defoci : list R)
    (angles : option (list R)) : list nat :=
  match angles with
  | Some angles => [length defoci; length angles; Ny; Nx]
  | None => [length defoci; Ny; Nx]
  end.

(** [v[i]] on a one-dimensional array. *)
Definition vector_item (v : list R) (i : nat) : result R :=
  match nth_error v i with
  | Some x => Ok x
  | None => Raise IndexError
  end.

(** The two assignments [axis.offset = v[0]] and
    [axis.scale = v[1] - v[0]], with their reads in that order. *)
Definition offset_and_scale (v : list R) : result (R * R) :=
  offset <- vector_item v 0 ;;
  v1 <- vector_item v 1 ;;
  v0 <- vector_item v 0 ;;
  Ok (offset, v1 - v0).

(** [ModifiedImage(CTF)] on the squeezed array, and the
    [navigation_dimension] of its axes manager: hyperspy's [Signal2D] takes
    the last two dimensions of the array as signal axes and the others as
    navigation axes; on an array of fewer than two dimensions its
    [set_signal_dimension(2)] raises [ValueError]. *)
Definition navigation_dimension_of (shape : list nat) : result nat :=
  if (length shape <? 2)%nat then Raise ValueError
  else Ok (length shape - 2)%nat.

(** [k2.take(0, 0)], the first row, and [k2.take(0, -1)], the first
    column. *)
Definition first_row (k2 : list (list R)) : list R := nth 0 k2 [].

Definition first_column (k2 : list (list R)) : list R :=
  map (fun row => nth 0 row 0) k2.

(** The calibration of the axes of the returned image: the navigation axes
    from [defoci] and [angles], the signal axes from [k2], and at the end
    the axis vector of [axes_manager[0]] or of [axes_manager[-3]].  The
    axes are not kept in [CTFImage]; what these lines leave here is the
    exception of a read that fails. *)
Definition calibrate_contrast_transfer (shape : list nat)
    (k2 : list (list R)) (defoci : list R) (angles : option (list R))
  : result unit :=
  depthdims <- navigation_dimension_of shape ;;
  depth <-
    match depthdims, angles with
    | 1%nat, None => offset_and_scale defoci
    | 1%nat, Some angles => offset_and_scale angles
    | 2%nat, Some angles =>
        first <- offset_and_scale defoci ;; offset_and_scale angles
    | 2%nat, None =>
        (* [angles[0]] on [None] *)
        first <- offset_and_scale defoci ;; Raise TypeError
    | _, _ => Ok (0, 0)
    end ;;
  ky_axis <- offset_and_scale (first_row k2) ;;
  kx_axis <- offset_and_scale (first_column k2) ;;
  match angles with
  | None => Ok tt
  | Some _ =>
      (* [ctf.axes_manager[-3]] *)
      if (length shape <? 3)%nat then Raise IndexError else Ok tt
  end.

(** The function proper.  The first component of the result is what was
    printed; [Ok None] is the bare [return]. *)
Definition get_contrast_transfer {A : Type} (self : Image A)
    (defoci angles : option (list R)) (wlen nref NA fsmooth : option R)
  : list string * result (option CTFImage) :=
  match read_defoci self defoci with
  | None => (["No defocus value given! Exiting..."%string], Ok None)
  | Some (defoci, ax_count) =>
      let angles := read_angles self angles ax_count in
      ([],
       let Nx := size (x_axis self) in
       let Ny := size (y_axis self) in
       '(k2, kx, ky) <- fourier_grid self ;;
       let '(kx, ky) := np_meshgrid kx ky in
       let wlen := read_parameter wlen (wave_length (metadata self)) in
       if Req_dec_T wlen 0 then Raise ZeroDivisionError else
       let wnum := 2 * PI / wlen in
       let nref := read_parameter nref (refractive_index (metadata self)) in
       let wnum := wnum * nref in
       let NA := read_parameter NA (numerical_aperture (metadata self)) in
       if Req_dec_T nref 0 then Raise ZeroDivisionError else
       let k2Aperture := (NA * wnum / nref) * (NA * wnum / nref) in
       let fsmooth := first_some fsmooth (f_smooth_aperture (metadata self)) in
       let CTF := contrast_transfer_array k2 kx ky wnum k2Aperture fsmooth
                                          defoci angles in
       let shape := np_squeeze (contrast_transfer_shape Nx Ny defoci angles) in
       let CTF := map (map (map nan_to_num)) CTF in
       calibrated <- calibrate_contrast_transfer shape k2 defoci angles ;;
       Ok (Some (mkCTF shape CTF
                   (mkMeta (pad_width (metadata self)) (Some wlen)
                           (Some nref) (Some NA) fsmooth)
                   (option_map (fun _ => defoci) angles))))
  end.

(** Entry [(j, i)] of a two-dimensional array. *)
Definition nth2 {A : Type} (a : list (list A)) (j i : nat) : option A :=
  match nth_error a j with
  | Some row => nth_error row i
  | None => None
  end.

(** ** Validation suite ([validation]) *)

Record validation : Type := mkValidation {
  obs : Image R;
  exp : Image R
}.

(** Elementwise operation on two arrays of planes of equal shape. *)
Definition zip_planes {A B D : Type} (f : A -> B -> D)
    (a : list (list (list A))) (b : list (list (list B)))
  : list (list (list D)) :=
  map2 (map2 (map2 f)) a b.

(** The values a floating point division can give: numpy does not raise on
    a zero divisor, it answers [inf] or [nan]. *)
Inductive float_value : Type :=
| Finite (x : R)
| PosInf
| NegInf
| NaN.

(** [a / b] on finite operands (the zero of [R] is read as [+0.0]). *)
Definition np_divide (a b : R) : float_value :=
  if Req_dec_T b 0 then
    if Req_dec_T a 0 then NaN
    else if Rlt_dec 0 a then PosInf else NegInf
  else Finite (a / b).

(** The last step, [xc / np.sqrt(ac1*ac2)], on one bin: NaN when the
    radicand is negative; on a zero denominator NaN for a zero numerator
    and an infinity for another one. *)
Definition frc_value (xc ac1 ac2 : R) : float_value :=
  match np_sqrt (ac1 * ac2) with
  | Some s => np_divide xc s
  | None => NaN
  end.

(** An image with the axes of [s] and new data (what
    [ModifiedImage(array, axes=axdict)] builds). *)
Definition with_data {A B : Type} (s : Image A) (d : list (list (list B)))
  : Image B :=
  mkImage d (navigation_axes s) (x_axis s) (y_axis s) empty_metadata.

Section FourierRingCorrelation.

(** hyperspy's [signal.fft(True)], an external collaborator. *)
Variable fft : Image R -> Image complex.

Definition run_fourier_ring_correlation (self : validation)
    (bin_size : bin_size_arg) : result (Signal1D float_value) :=
  let exp_ft := fft (exp self) in
  let obs_ft := fft (obs self) in
  let exp_obs_xc :=
    with_data obs_ft
      (zip_planes (fun o e => Re (Cmul o (Cconj e)))
                  (data obs_ft) (data exp_ft)) in
  let obs_ac :=
    with_data obs_ft
      (map (map (map (fun z => Cabs z * Cabs z))) (data obs_ft)) in
  let exp_ac :=
    with_data exp_ft
      (map (map (map (fun z => Cabs z * Cabs z))) (data exp_ft)) in
  xc <- integrate_radial exp_obs_xc bin_size false None true ;;
  ac1 <- integrate_radial exp_ac bin_size false None true ;;
  ac2 <- integrate_radial obs_ac bin_size false None true ;;
  let fsc :=
    map2 (fun xrow arow =>
            map2 (fun x a => frc_value x (fst a) (snd a))
                 xrow (combine (fst arow) (snd arow)))
         (sig_data xc) (combine (sig_data ac1) (sig_data ac2)) in
  Ok (mkSignal1D fsc (sig_axis xc) (sig_offset xc) (sig_scale xc)
                 (units (y_axis obs_ft)) "|q| = |1/r|").

End FourierRingCorrelation.

(** ** Deprecated padding interface ([set_padding], [unset_padding]) *)

(** The [pad_width] argument as it is handed to [np.pad] and stored under
    ['Signal.pad_tuple']: an [int], a flat sequence of [int]s such as
    [(pad,)], or a sequence of rows such as [((before, after),)]. *)
Inductive pad_tuple_arg : Type :=
| TupleInt (n : Z)
| TupleFlat (l : list Z)
| TupleNested (rows : list (list Z)).

(** An image together with the metadata item of the deprecated padding
    interface. *)
Record ModifiedImage (A : Type) : Type := mkModifiedImage {
  signal : Image A;
  pad_tuple : option pad_tuple_arg           (* 'Signal.pad_tuple' *)
}.

Arguments mkModifiedImage {A} signal pad_tuple.
Arguments signal {A} m.
Arguments pad_tuple {A} m.

(** [np.pad(plane, pad_width, 'constant', constant_values=c)] on such an
    argument: an empty or ragged sequence is no array of integers
    ([TypeError]), anything else is broadcast to one pair per array axis. *)
Definition np_pad_arg {A : Type} (plane : list (list A)) (pw : pad_tuple_arg)
    (constant_values : A) : result (list (list A)) :=
  match pw with
  | TupleInt n => np_pad plane [[n]] constant_values
  | TupleFlat [] => Raise TypeError
  | TupleFlat l => np_pad plane [l] constant_values
  | TupleNested [] => Raise TypeError
  | TupleNested (r :: t) =>
      if forallb (fun r' => Nat.eqb (length r') (length r)) t
         && negb (Nat.eqb (length r) 0)
      then np_pad plane (r :: t) constant_values
      else Raise TypeError
  end.

(** [set_padding(pad_width, 'constant', constant_values=c)].  An image
    without navigation axis holds one plane; with one navigation axis the
    planes are padded one by one and stacked, and [np.stack] refuses an empty
    list; with more navigation axes the data are left as they are. *)
Definition set_padding {A : Type} (self : ModifiedImage A)
    (pad_width : option pad_tuple_arg) (constant_values : A)
  : result (ModifiedImage A) :=
  match pad_width with
  | None => Ok self
  | Some pw =>
      let s := signal self in
      let padded :=
        paddata <- mapM (fun d => np_pad_arg d pw constant_values) (data s) ;;
        Ok (get_dimensions_from_data
              (mkImage paddata (navigation_axes s) (x_axis s) (y_axis s)
                       (metadata s))) in
      s' <-
        match length (navigation_axes s) with
        | 0%nat => padded
        | 1%nat =>
            match data s with
            | [] => Raise ValueError
            | _ => padded
            end
        | _ => Ok s
        end ;;
      Ok (mkModifiedImage s' (Some pw))
  end.

(** [Npy, Npx = pad_tuple] followed by the subscripts [Npy[0]], [Npy[1]],
    [Npx[0]] and [Npx[1]]: an [int] cannot be unpacked nor subscripted
    ([TypeError]), a sequence that has not two items cannot be unpacked
    ([ValueError]) and a row that is too short has no item 1
    ([IndexError]). *)
Definition unpack_pad_tuple (t : pad_tuple_arg)
  : result ((Z * Z) * (Z * Z)) :=
  match t with
  | TupleInt _ => Raise TypeError
  | TupleFlat [_; _] => Raise TypeError
  | TupleFlat _ => Raise ValueError
  | TupleNested [Npy; Npx] =>
      match Npy, Npx with
      | y0 :: y1 :: _, x0 :: x1 :: _ => Ok ((y0, y1), (x0, x1))
      | _, _ => Raise IndexError
      end
  | TupleNested _ => Raise ValueError
  end.

(** A bound of a Python slice on a sequence of [len] items: a negative
    bound counts from the end, and both are clipped to the sequence. *)
Definition slice_index (len : nat) (i : Z) : nat :=
  if (i <? 0)%Z then Z.to_nat (Z.max 0 (Z.of_nat len + i))
  else Nat.min (Z.to_nat i) len.

(** [l[start:stop]] for integer bounds of either sign. *)
Definition py_slice_int {A : Type} (start stop : Z) (l : list A) : list A :=
  py_slice (slice_index (length l) start) (slice_index (length l) stop) l.

Definition unset_padding {A : Type} (self : ModifiedImage A)
  : result (ModifiedImage A) :=
  match pad_tuple self with
  | None => Ok self
  | Some t =>
      '(Npy, Npx) <- unpack_pad_tuple t ;;
      let s := signal self in
      let Nx := Z.of_nat (size (x_axis s)) in
      let Ny := Z.of_nat (size (y_axis s)) in
      let cropped :=
        map (fun plane =>
               map (py_slice_int (fst Npx) (Nx - snd Npx))
                   (py_slice_int (fst Npy) (Ny - snd Npy) plane))
            (data s) in
      Ok (mkModifiedImage
            (get_dimensions_from_data
               (mkImage cropped (navigation_axes s) (x_axis s) (y_axis s)
                        (metadata s)))
            None)
  end.

(** ** Building an image from an array ([numpy2ModI]) *)

(** The arrays the model holds: two-dimensional, or three-dimensional with
    the first dimension for navigation. *)
Inductive ndarray (A : Type) : Type :=
| Array2D (plane : list (list A))
| Array3D (planes : list (list (list A))).

Arguments Array2D {A} plane.
Arguments Array3D {A} planes.

(** The axis hyperspy attaches to an array dimension of [n] items. *)
Definition default_axis (n : nat) : DataAxis := mkAxis n 1 0 "".

(** [ModifiedImage(npdata)]: the last two dimensions are the signal. *)
Definition image_of_array {A : Type} (npdata : ndarray A) : Image A :=
  match npdata with
  | Array2D plane =>
      mkImage [plane] []
              (default_axis (length (hd [] plane)))
              (default_axis (length plane)) empty_metadata
  | Array3D planes =>
      mkImage planes [default_axis (length planes)]
              (default_axis (length (hd [] (hd [] planes))))
              (default_axis (length (hd [] planes))) empty_metadata
  end.

(** [t[i]] on a tuple. *)
Definition tuple_item (t : list R) (i : nat) : result R :=
  match nth_error t i with
  | Some v => Ok v
  | None => Raise IndexError
  end.

Definition calibrate (ax : DataAxis) (o d : R) : DataAxis :=
  mkAxis (size ax) d o (units ax).

Definition numpy2ModI {A : Type} (npdata : ndarray A)
    (dsig osig dnav onav : list R) : result (Image A) :=
  let img := image_of_array npdata in
  ox <- tuple_item osig 0 ;;
  dx <- tuple_item dsig 0 ;;
  oy <- tuple_item osig 1 ;;
  dy <- tuple_item dsig 1 ;;
  nav <-
    match npdata with
    | Array2D _ => Ok (navigation_axes img)
    | Array3D _ =>
        mapM (fun p =>
                o <- tuple_item onav (fst p) ;;
                d <- tuple_item dnav (fst p) ;;
                Ok (calibrate (snd p) o d))
             (combine (seq 0 (length (navigation_axes img)))
                      (navigation_axes img))
    end ;;
  Ok (get_dimensions_from_data
        (mkImage (data img) nav (calibrate (x_axis img) ox dx)
                 (calibrate (y_axis img) oy dy) (metadata img))).

(** ** The validation class: construction, [run_chi2], [run_rvalue] and
    [run_rmse_check] *)

(** [validation._set_image] on an image. *)
Definition _set_image (imdata : ModifiedImage R) (unpad : bool)
  : result (ModifiedImage R) :=
  if unpad then unset_padding imdata else Ok imdata.

(** [validation(observed, expected, unpad)]. *)
Definition validation_init (observed expected : ModifiedImage R)
    (unpad : bool) : result validation :=
  o <- _set_image observed unpad ;;
  e <- _set_image expected unpad ;;
  Ok (mkValidation (signal o) (signal e)).

(** Broadcasting of a binary operation along one array axis: equal lengths
    go item by item, a length of one is stretched, other lengths are
    refused. *)
Definition broadcast {A B D : Type} (f : A -> B -> result D)
    (a : list A) (b : list B) : result (list D) :=
  if Nat.eqb (length a) (length b)
  then mapM (fun p => f (fst p) (snd p)) (combine a b)
  else match a, b with
       | [x], _ => mapM (f x) b
       | _, [y] => mapM (fun x => f x y) a
       | _, _ => Raise ValueError
       end.

(** The same on arrays of planes. *)
Definition broadcast_planes {A B D : Type} (f : A -> B -> D)
    (a : list (list (list A))) (b : list (list (list B)))
  : result (list (list (list D))) :=
  broadcast (broadcast (broadcast (fun x y => Ok (f x y)))) a b.

(** [run_chi2]: [(obs - exp)**2.], divided in place by [exp.data**2.].  The
    result carries the axes and metadata of [obs] (for images of one shape,
    hyperspy's rule).  The first component is what is left in [self.chi2],
    the second what is returned. *)
Definition run_chi2 (self : validation) (silent_run : bool)
  : result (Image float_value * option (Image float_value)) :=
  d <- broadcast_planes (fun o e => (o - e) * (o - e))
                        (data (obs self)) (data (exp self)) ;;
  q <- broadcast_planes np_divide d
         (map (map (map (fun e => e * e))) (data (exp self))) ;;
  let chi2 := mkImage q (navigation_axes (obs self)) (x_axis (obs self))
                      (y_axis (obs self)) (metadata (obs self)) in
  Ok (chi2, if silent_run then None else Some chi2).

(** Subtraction and sum of floats that may be NaN ([None]). *)
Definition nan_sub (a b : option R) : option R :=
  match a, b with
  | Some x, Some y => Some (x - y)
  | _, _ => None
  end.

Definition nan_sum (l : list (option R)) : option R :=
  fold_right (fun v acc => match v, acc with
                           | Some x, Some s => Some (x + s)
                           | _, _ => None
                           end) (Some 0) l.

(** [run_rvalue]: [np.sqrt((odata - edata)**2.).sum() / edata.sum()] on the
    square roots of the data. *)
Definition run_rvalue (self : validation) (silent_run : bool)
  : result (float_value * option float_value) :=
  let odata := map (map (map np_sqrt)) (data (obs self)) in
  let edata := map (map (map np_sqrt)) (data (exp self)) in
  diff <- broadcast_planes nan_sub odata edata ;;
  let num :=
    nan_sum (ravel (concat
      (map (map (map (option_map (fun d => sqrt (d * d))))) diff))) in
  let den := nan_sum (ravel (concat edata)) in
  let rvalue := match num, den with
                | Some n, Some d => np_divide n d
                | _, _ => NaN
                end in
  Ok (rvalue, if silent_run then None else Some rvalue).

(** [a.mean()] of a whole array. *)
Definition np_mean (a : list (list (list R))) : R :=
  Rsum (ravel (concat a)) / INR (length (ravel (concat a))).

Definition Csub (a b : complex) : complex := mkC (Re a - Re b) (Im a - Im b).

Definition Csum (l : list complex) : complex := fold_right Cadd C0 l.

(** [np.fft.fft2(plane, norm='ortho')]: the unitary discrete Fourier
    transform of a plane of [M] rows and [N] columns. *)
Definition np_fft2 (plane : list (list R)) : list (list complex) :=
  let M := length plane in
  let N := length (hd [] plane) in
  map (fun k =>
         map (fun l =>
                Cdiv_real
                  (Csum
                     (flat_map
                        (fun mr =>
                           map (fun nv =>
                                  Cmul (RtoC (snd nv))
                                       (Cexp_i (- (2 * PI
                                                   * (INR k * INR (fst mr) / INR M
                                                      + INR l * INR (fst nv) / INR N)))))
                               (combine (seq 0 N) (snd mr)))
                        (combine (seq 0 M) plane)))
                  (sqrt (INR (M * N))))
             (seq 0 N))
      (seq 0 M).

(** [run_rmse_check]: the squared difference of the two images, each with
    its mean removed, in real and in reciprocal space.  The first image is
    a copy of [obs] with new data, the second a new image with hyperspy's
    default axes. *)
Definition run_rmse_check (self : validation) : result (Image R * Image R) :=
  let mo := np_mean (data (obs self)) in
  let me := np_mean (data (exp self)) in
  let obs_ := map (map (map (fun v => v - mo))) (data (obs self)) in
  let exp_ := map (map (map (fun v => v - me))) (data (exp self)) in
  rmse_real <- broadcast_planes (fun o e => (o - e) * (o - e)) obs_ exp_ ;;
  ftdiff <- broadcast_planes Csub (map np_fft2 obs_) (map np_fft2 exp_) ;;
  let rmse_fourier := map (map (map (fun z => Cabs z * Cabs z))) ftdiff in
  let rmse_ij := mkImage rmse_real (navigation_axes (obs self))
                         (x_axis (obs self)) (y_axis (obs self))
                         (metadata (obs self)) in
  let nav := if (length (navigation_axes (exp self))
                 <=? length (navigation_axes (obs self)))%nat
             then navigation_axes (obs self)
             else navigation_axes (exp self) in
  let rmse_kl :=
    get_dimensions_from_data
      (mkImage rmse_fourier (map (fun ax => default_axis (size ax)) nav)
               (default_axis 0) (default_axis 0) empty_metadata) in
  Ok (rmse_ij, rmse_kl).

(** ** Vocabulary of the statements, and example inputs *)

(** The number of distinct values of an array, counted without sorting. *)
Definition distinct_values (a : list R) : nat :=
  length (nodup Req_dec_T a).

(** The shape condition of [integrate_binary]: the mask is one plane, and
    every plane of the image has as many pixels as the mask. *)
Definition same_signal_shape {A : Type} (self : Image A) (bin_mask : Image R)
    (mask : list (list R)) : Prop :=
  navigation_axes bin_mask = [] /\ data bin_mask = [mask] /\
  forall plane, In plane (data self) ->
                length (ravel plane) = length (ravel mask).

(** The edges [lo, lo + w, ..., lo + (n-1) w]. *)
Definition edges (lo w : R) (n : nat) : list R :=
  map (fun i => lo + INR i * w) (seq 0 n).

(** The edge above a value, as a function of the value: the bins are
    [[lo + k w, lo + (k+1) w)] and [bin_index] is the [k] of the bin that
    contains [v]. *)
Definition bin_index (lo w v : R) : Z := Rfloor ((v - lo) / w).
Definition left_edge (lo w v : R) : R := lo + IZR (bin_index lo w v) * w.
Definition right_edge (lo w v : R) : R := lo + (IZR (bin_index lo w v) + 1) * w.

Definition unit_axis (n : nat) : DataAxis := mkAxis n 1 0 "".

(** A real image one pixel high and two pixels wide, unit scales. *)
Definition image_1x2 : Image R :=
  mkImage [[[3; 4]]] [] (unit_axis 2) (unit_axis 1) empty_metadata.

(** A complex image one pixel high and two pixels wide, and a mask for it
    with two distinct labels. *)
Definition complex_image_1x2 : Image complex :=
  mkImage [[[mkC 1 2; mkC 3 4]]] [] (unit_axis 2) (unit_axis 1)
          empty_metadata.

Definition mask_1x2 : Image R :=
  mkImage [[[1; 2]]] [] (unit_axis 2) (unit_axis 1) empty_metadata.

(** Sample [v] carries label [l]: [l] is edge number [c] of the [n] edges,
    with [0 < c < n], and [v] lies in the bin that ends at [l]. *)
Definition labelled (lo w : R) (n : nat) (v l : R) : Prop :=
  exists c : nat,
    (1 <= c < n)%nat
    /\ nth_error (edges lo w n) c = Some l
    /\ lo + INR (c - 1) * w <= v < l.

(** Binning completeness for a mesh with extreme values [lo] and [hi],
    bin width [w] and labels [labels]. *)
Definition complete_binning (mesh : list (list R)) (w lo hi : R)
    (labels : list (list R)) : Prop :=
  exists n : nat,
    np_arange lo (hi + 1.1 * w) w = Ok (edges lo w n)
    /\ labels = map (map (right_edge lo w)) mesh
    /\ Forall2 (Forall2 (labelled lo w n)) mesh labels
    /\ hi < lo + INR (n - 1) * w
    /\ np_unique (ravel labels) <> []
    /\ StronglySorted Rlt (np_unique (ravel labels)).

(** A real image one pixel high and two pixels wide whose pixels are 0.95
    apart along [x]. *)
Definition image_095 : Image R :=
  mkImage [[[3; 4]]] [] (mkAxis 2 0.95 0 "") (unit_axis 1) empty_metadata.

(** The wave number [wnum] the function works with. *)
Definition wave_number {A : Type} (self : Image A) (wlen nref : option R)
  : R :=
  2 * PI / read_parameter wlen (wave_length (metadata self))
  * read_parameter nref (refractive_index (metadata self)).

(** The squared aperture radius [k2Aperture]. *)
Definition aperture_k2 {A : Type} (self : Image A) (wlen nref NA : option R)
  : R :=
  let r := read_parameter NA (numerical_aperture (metadata self))
           * wave_number self wlen nref
           / read_parameter nref (refractive_index (metadata self)) in
  r * r.

(** The inputs on which the axes of the returned image can be calibrated:
    signal axes of two pixels or more, a defocus value or more, and two
    angles or more when there are angles. *)
Definition calibratable {A : Type} (self : Image A) (dfs : list R)
    (angs : option (list R)) : Prop :=
  (2 <= size (x_axis self))%nat /\ (2 <= size (y_axis self))%nat
  /\ (1 <= length dfs)%nat
  /\ match angs with
     | Some a => (2 <= length a)%nat
     | None => True
     end.

(** A real image of two by two pixels, unit scales. *)
Definition image_2x2 : Image R :=
  mkImage [[[1; 2]; [3; 4]]] [] (unit_axis 2) (unit_axis 2) empty_metadata.

(** A real image of a single pixel, unit scales. *)
Definition image_1x1 : Image R :=
  mkImage [[[5]]] [] (unit_axis 1) (unit_axis 1) empty_metadata.

(** The axis sizes are positive and every plane has that many rows and
    columns. *)
Definition well_formed {A : Type} (s : Image A) : Prop :=
  (0 < size (x_axis s))%nat /\ (0 < size (y_axis s))%nat
  /\ Forall (fun plane =>
               length plane = size (y_axis s)
               /\ Forall (fun row => length row = size (x_axis s)) plane)
            (data s).

(** The squared amplitude of a transformed image, [obs_ac] and [exp_ac]. *)
Definition autocorrelation (ft : Image complex) : Image R :=
  with_data ft (map (map (map (fun z => Cabs z * Cabs z))) (data ft)).

(** The Fourier transform of an image of a single pixel is that pixel. *)
Definition fft_single_pixel (s : Image R) : Image complex :=
  with_data s (map (map (map RtoC)) (data s)).

(** A stored row of pad widths read as a (before, after) pair. *)
Definition row_pair (pw : list Z) : option (Z * Z) :=
  match pw with
  | [v] => Some (v, v)
  | [b; a] => Some (b, a)
  | _ => None
  end.

(** The image [set_pad] returns when the pads resolve to [bx], [ax] along
    [x] and [by_], [ay] along [y], and [rows] is the array it stores. *)
Definition padded_image {A : Type} (self : Image A) (c : A)
    (bx ax by_ ay : nat) (rows : list (list Z)) : Image A :=
  let out :=
    get_dimensions_from_data
      (mkImage (map (pad_constant c by_ ay bx ax) (data self))
               (navigation_axes self) (x_axis self) (y_axis self)
               (metadata self)) in
  mkImage (data out) (navigation_axes out) (x_axis out) (y_axis out)
          (set_pad_width (metadata out) (Some rows)).

(** The 2 x 2 image with a record of three pad widths attached. *)
Definition image_2x2_long_record : Image R :=
  mkImage (data image_2x2) [] (unit_axis 2) (unit_axis 2)
          (set_pad_width empty_metadata (Some [[1]; [1]; [1]]%Z)).

(** The pixels of the image that carry label [d] in the mask. *)
Definition pixels_labelled (sdata bin_mask : list (list R)) (d : R) : list R :=
  map snd (filter (fun p => Reqb (fst p) d)
                  (combine (ravel bin_mask) (ravel sdata))).

(** The population of every label, in increasing order of the labels. *)
Definition label_counts (bin_mask : list (list R)) : list nat :=
  map (count_of (ravel bin_mask)) (np_unique (ravel bin_mask)).

(** The coordinates of an axis moved by half the largest distance of a pixel
    to the first one: half the extent for a scale that is not negative,
    nothing for a negative scale. *)
Definition centred_axis (ax : DataAxis) : list R :=
  let half := if Rle_dec 0 (scale ax)
              then INR (size ax - 1) * scale ax / 2 else 0 in
  map (fun i => offset ax + INR i * scale ax - half) (seq 0 (size ax)).

(** [dk] times the integer frequencies in FFT order: zero first, then the
    positive ones, then the negative ones. *)
Definition fftfreq (N : nat) (dk : R) : list R :=
  map (fun i => dk * (if (i <? N - N / 2)%nat then INR i else INR i - INR N))
      (seq 0 N).

(** The number of pixels an entry of a flat [pad_width] stands for on an
    axis: an [int] is a number of pixels, a [float] a length in the units of
    the axis. *)
Definition pad_pixels (e : pad_entry) (ax : DataAxis) : Z :=
  match e with
  | PadInt n => n
  | PadFloat x => Rtrunc (x / scale ax)
  end.

(** What [set_padding] returns when [np.pad] resolves the widths to
    [(b0, a0)] along [y] and [(b1, a1)] along [x]. *)
Definition set_padding_result {A : Type} (self : ModifiedImage A) (c : A)
    (b0 a0 b1 a1 : nat) (pw : pad_tuple_arg) : ModifiedImage A :=
  mkModifiedImage
    (get_dimensions_from_data
       (mkImage (map (pad_constant c b0 a0 b1 a1) (data (signal self)))
                (navigation_axes (signal self)) (x_axis (signal self))
                (y_axis (signal self)) (metadata (signal self))))
    (Some pw).

(** A 2 x 2 image without any padding record. *)
Definition modified_image_2x2 : ModifiedImage R :=
  mkModifiedImage
    (mkImage [[[1; 2]; [3; 4]]] [] (mkAxis 2 1 0 "") (mkAxis 2 1 0 "")
             empty_metadata)
    None.

(** Two arrays of planes have the same shape: as many planes, as many rows
    in each plane, as many pixels in each row. *)
Definition same_shape {A B : Type} (a : list (list (list A)))
    (b : list (list (list B))) : Prop :=
  Forall2 (Forall2 (fun r1 r2 => length r1 = length r2)) a b.

(** All the pixels of an image, in the order of the array. *)
Definition pixels {A : Type} (s : Image A) : list A := ravel (concat (data s)).

(** The image with a function applied to every pixel. *)
Definition map_data {A B : Type} (f : A -> B) (s : Image A) : Image B :=
  mkImage (map (map (map f)) (data s)) (navigation_axes s) (x_axis s)
          (y_axis s) (metadata s).

(** Two images of one pixel by two; the second has a zero pixel. *)
Definition observed_1x2 : Image R :=
  mkImage [[[3; 4]]] [] (mkAxis 2 1 0 "") (mkAxis 1 1 0 "") empty_metadata.

Definition expected_1x2 : Image R :=
  mkImage [[[1; 0]]] [] (mkAxis 2 1 0 "") (mkAxis 1 1 0 "") empty_metadata.

(** The items of a flat array at the positions where the flat mask carries
    label [d]. *)
Definition labelled_with {A : Type} (m : list R) (l : list A) (d : R)
  : list A :=
  map snd (filter (fun p => Reqb (fst p) d) (combine m l)).

(** A value that is NaN or a number between -1 and 1, and no infinity. *)
Definition nan_or_within_one (v : float_value) : Prop :=
  match v with
  | Finite f => -1 <= f <= 1
  | NaN => True
  | PosInf | NegInf => False
  end.

(** The rows of a radial integral, label by label. *)
Definition label_means (mask : list (list R)) (plane : list (list R))
  : list R :=
  map (fun d => Rsum (pixels_labelled plane mask d)
                / INR (length (pixels_labelled plane mask d)))
      (np_unique (ravel mask)).

(** * Proofs *)

(** ** Boolean tests *)

Lemma Rleb_true (a b : R) : Rleb a b = true <-> a <= b.
Proof. unfold Rleb; destruct (Rle_dec a b); split; intros; try easy. Qed.

Lemma Rleb_false (a b : R) : Rleb a b = false <-> b < a.
Proof.
  unfold Rleb; destruct (Rle_dec a b); split; intros; try easy; lra.
Qed.

Lemma Rltb_true (a b : R) : Rltb a b = true <-> a < b.
Proof. unfold Rltb; destruct (Rlt_dec a b); split; intros; try easy. Qed.

Lemma Rltb_false (a b : R) : Rltb a b = false <-> b <= a.
Proof.
  unfold Rltb; destruct (Rlt_dec a b); split; intros; try easy; lra.
Qed.

Lemma Reqb_true (a b : R) : Reqb a b = true <-> a = b.
Proof. unfold Reqb; destruct (Req_dec_T a b); split; intros; try easy. Qed.

Lemma Reqb_false (a b : R) : Reqb a b = false <-> a <> b.
Proof. unfold Reqb; destruct (Req_dec_T a b); split; intros; try easy. Qed.

(** ** [np.unique] *)

Lemma insert_sorted_In (x y : R) (l : list R) :
  In y (insert_sorted x l) <-> y = x \/ In y l.
Proof.
  induction l as [|z t IH]; simpl.
  - intuition.
  - destruct (Rltb x z) eqn:Hlt; simpl.
    + intuition.
    + destruct (Reqb x z) eqn:Heq; simpl.
      * apply Reqb_true in Heq. subst. intuition.
      * rewrite IH. intuition.
Qed.

Lemma insert_sorted_sorted (x : R) (l : list R) :
  StronglySorted Rlt l -> StronglySorted Rlt (insert_sorted x l).
Proof.
  induction l as [|z t IH]; simpl; intros Hs.
  - repeat constructor.
  - inversion Hs as [|? ? Ht Hz]; subst.
    destruct (Rltb x z) eqn:Hlt.
    + apply Rltb_true in Hlt. constructor; [exact Hs|].
      constructor; [exact Hlt|].
      rewrite Forall_forall in *. intros w Hw. specialize (Hz w Hw). lra.
    + destruct (Reqb x z) eqn:Heq; [exact Hs|].
      apply Rltb_false in Hlt. apply Reqb_false in Heq.
      constructor; [apply IH; exact Ht|].
      rewrite Forall_forall in *. intros w Hw.
      apply insert_sorted_In in Hw. destruct Hw as [->|Hw]; [lra|auto].
Qed.

Lemma np_unique_In (a : list R) (x : R) : In x (np_unique a) <-> In x a.
Proof.
  induction a as [|y t IH]; simpl; [tauto|].
  rewrite insert_sorted_In, IH. intuition.
Qed.

Lemma np_unique_sorted (a : list R) : StronglySorted Rlt (np_unique a).
Proof.
  induction a as [|y t IH]; simpl; [constructor|].
  apply insert_sorted_sorted, IH.
Qed.

Lemma sorted_NoDup (l : list R) : StronglySorted Rlt l -> NoDup l.
Proof.
  induction 1 as [|x t Ht IH Hx]; constructor; auto.
  intros Hin. rewrite Forall_forall in Hx. specialize (Hx x Hin). lra.
Qed.

Lemma np_unique_length (a : list R) :
  length (np_unique a) = distinct_values a.
Proof.
  unfold distinct_values. apply Permutation_length, NoDup_Permutation.
  - apply sorted_NoDup, np_unique_sorted.
  - apply NoDup_nodup.
  - intros x. rewrite np_unique_In, nodup_In. tauto.
Qed.

Lemma filter_length_le {A : Type} (f : A -> bool) (l : list A) :
  (length (filter f l) <= length l)%nat.
Proof.
  induction l as [|a t IH]; simpl; [lia|]. destruct (f a); simpl; lia.
Qed.

Lemma filter_length_lt {A : Type} (f : A -> bool) (l : list A) (x : A) :
  In x l -> f x = false -> (length (filter f l) < length l)%nat.
Proof.
  induction l as [|a t IH]; simpl; [tauto|].
  intros [->|Hin] Hf.
  - rewrite Hf. pose proof (filter_length_le f t). lia.
  - specialize (IH Hin Hf). destruct (f a); simpl; lia.
Qed.

Lemma unique_index_lt (dst : list R) (x : R) :
  In x dst -> (unique_index dst x < length dst)%nat.
Proof.
  intros Hin. unfold unique_index. apply filter_length_lt with (x := x); auto.
  apply Rltb_false. lra.
Qed.

Lemma unique_index_max (dst : list R) (m : R) :
  NoDup dst -> In m dst -> (forall d, In d dst -> d <= m) ->
  unique_index dst m = pred (length dst).
Proof.
  unfold unique_index. induction dst as [|a t IH]; simpl; [tauto|].
  intros Hnd Hin Hmax. inversion Hnd as [|? ? Hna Hnt]; subst.
  destruct (Req_dec_T a m) as [->|Hne].
  - replace (Rltb m m) with false by (symmetry; apply Rltb_false; lra).
    clear IH. 
    assert (Hall : forall d, In d t -> Rltb d m = true).
    { intros d Hd. apply Rltb_true.
      assert (d <> m) by (intros ->; auto).
      specialize (Hmax d (or_intror Hd)). lra. }
    clear - Hall. induction t as [|b t IH]; simpl; auto.
    rewrite Hall by (left; auto). simpl. f_equal. apply IH.
    intros d Hd. apply Hall. right; auto.
  - destruct Hin as [->|Hin]; [congruence|].
    assert (Ha : Rltb a m = true).
    { apply Rltb_true. specialize (Hmax a (or_introl eq_refl)). lra. }
    rewrite Ha. simpl. rewrite IH; auto.
    destruct t; simpl in *; [tauto|lia].
Qed.

Lemma list_has_max (l : list R) :
  l <> [] -> exists m, In m l /\ forall y, In y l -> y <= m.
Proof.
  induction l as [|a t IH]; [congruence|]. intros _.
  destruct t as [|b t].
  - exists a. simpl. split; [auto|]. intros y [->|[]]; lra.
  - destruct IH as [m [Hm Hmax]]; [congruence|].
    destruct (Rle_dec a m).
    + exists m. split; [right; auto|]. intros y [->|Hy]; auto.
    + exists a. split; [left; auto|]. intros y [->|Hy]; [lra|].
      specialize (Hmax y Hy). lra.
Qed.

Lemma list_max_In (l : list nat) (x : nat) : In x l -> (x <= list_max l)%nat.
Proof.
  intros Hin. pose proof (proj1 (list_max_le l (list_max l)) (Nat.le_refl _)) as H.
  rewrite Forall_forall in H. auto.
Qed.

Lemma bincount_length_inverse (a : list R) :
  bincount_length (map (unique_index (np_unique a)) a) = length (np_unique a).
Proof.
  destruct a as [|x t] eqn:Ea; [reflexivity|]. rewrite <- Ea.
  assert (Hne : a <> []) by (subst; congruence).
  unfold bincount_length.
  destruct (map (unique_index (np_unique a)) a) eqn:Em.
  { subst. discriminate. }
  rewrite <- Em. clear Em.
  destruct (list_has_max a Hne) as [m [Hm Hmax]].
  assert (Hlen : (0 < length (np_unique a))%nat).
  { apply np_unique_In in Hm. destruct (np_unique a); simpl in *; [tauto|lia]. }
  assert (Hle : (list_max (map (unique_index (np_unique a)) a)
                 <= pred (length (np_unique a)))%nat).
  { apply list_max_le. rewrite Forall_forall. intros k Hk.
    apply in_map_iff in Hk. destruct Hk as [y [<- Hy]].
    apply np_unique_In in Hy. apply unique_index_lt in Hy. lia. }
  assert (Hge : (pred (length (np_unique a))
                 <= list_max (map (unique_index (np_unique a)) a))%nat).
  { apply list_max_In. apply in_map_iff. exists m. split; auto.
    apply unique_index_max.
    - apply sorted_NoDup, np_unique_sorted.
    - apply np_unique_In; auto.
    - intros d Hd. apply Hmax. apply np_unique_In; auto. }
  lia.
Qed.

Lemma map2_length {A B D : Type} (f : A -> B -> D) (l : list A) (m : list B) :
  length (map2 f l m) = Nat.min (length l) (length m).
Proof. unfold map2. rewrite length_map, length_combine. reflexivity. Qed.

Lemma np_bincount_ok (x : list nat) (w : list R) :
  length x = length w ->
  exists out, np_bincount x w = Ok out /\ length out = bincount_length x.
Proof.
  intros H. unfold np_bincount. rewrite H, Nat.eqb_refl.
  eexists. split; [reflexivity|]. rewrite length_map, length_seq. reflexivity.
Qed.

Lemma length_ravel_map {A B : Type} (f : A -> B) (a : list (list A)) :
  length (ravel (map (map f) a)) = length (ravel a).
Proof.
  unfold ravel. induction a as [|r t IH]; simpl; [reflexivity|].
  rewrite !length_app, length_map, IH. reflexivity.
Qed.

Lemma integrate_binary_real_length (sdata bin_mask : list (list R))
    (normalize : bool) :
  length (ravel sdata) = length (ravel bin_mask) ->
  exists idata, integrate_binary_real sdata bin_mask normalize = Ok idata
                /\ length idata = distinct_values (ravel bin_mask).
Proof.
  intros Hshape. unfold integrate_binary_real, np_unique_inverse_counts.
  destruct (np_bincount_ok (map (unique_index (np_unique (ravel bin_mask)))
                                (ravel bin_mask)) (ravel sdata))
    as [out [Hout Hlen]].
  { rewrite length_map. auto. }
  rewrite Hout. simpl. rewrite bincount_length_inverse in Hlen.
  destruct normalize; eexists; (split; [reflexivity|]).
  - rewrite map2_length, length_map, Hlen, Nat.min_id. apply np_unique_length.
  - rewrite Hlen. apply np_unique_length.
Qed.

Lemma integrate_binary_comp_length (sdata : list (list complex))
    (bin_mask : list (list R)) (normalize : bool) :
  length (ravel sdata) = length (ravel bin_mask) ->
  exists idata, integrate_binary_comp sdata bin_mask normalize = Ok idata
                /\ length idata = distinct_values (ravel bin_mask).
Proof.
  intros Hshape. unfold integrate_binary_comp, np_unique_inverse_counts.
  destruct (np_bincount_ok (map (unique_index (np_unique (ravel bin_mask)))
                                (ravel bin_mask)) (ravel (map (map Re) sdata)))
    as [re [Hre Hlre]].
  { rewrite length_map, length_ravel_map. auto. }
  destruct (np_bincount_ok (map (unique_index (np_unique (ravel bin_mask)))
                                (ravel bin_mask)) (ravel (map (map Im) sdata)))
    as [im [Him Hlim]].
  { rewrite length_map, length_ravel_map. auto. }
  rewrite Hre. simpl. rewrite Him. simpl.
  rewrite bincount_length_inverse in Hlre, Hlim.
  destruct normalize; eexists; (split; [reflexivity|]);
    rewrite ?map2_length, ?length_map, Hlre, Hlim, ?Nat.min_id;
    apply np_unique_length.
Qed.

Lemma mapM_ok {A B : Type} (f : A -> result B) (P : B -> Prop) (l : list A) :
  (forall a, In a l -> exists b, f a = Ok b /\ P b) ->
  exists bs, mapM f l = Ok bs /\ length bs = length l /\ Forall P bs.
Proof.
  induction l as [|a t IH]; simpl; intros H.
  - exists []. auto.
  - destruct (H a (or_introl eq_refl)) as [b [Hb Pb]].
    destruct IH as [bs [Hbs [Hl HP]]]; [intros; apply H; auto|].
    rewrite Hb. simpl. rewrite Hbs. simpl. exists (b :: bs).
    repeat split; simpl; auto.
Qed.

Lemma integrate_binary_length_gen {A : Type} `{Dtype A} (self : Image A)
    (bin_mask : Image R) (mask : list (list R)) (normalize : bool) :
  (forall sdata, length (ravel sdata) = length (ravel mask) ->
     exists idata, integrator sdata mask normalize = Ok idata
                   /\ length idata = distinct_values (ravel mask)) ->
  same_signal_shape self bin_mask mask ->
  exists s, integrate_binary self bin_mask normalize = Ok s
            /\ length (sig_data s) = length (data self)
            /\ Forall (fun row => length row = distinct_values (ravel mask))
                      (sig_data s).
Proof.
  intros Hint [Hnav [Hdata Hshape]].
  unfold integrate_binary, mask_planes. rewrite Hnav, Hdata. simpl.
  destruct (mapM_ok (fun pm => integrator (fst pm) (snd pm) normalize)
                    (fun row => length row = distinct_values (ravel mask))
                    (combine (data self) (repeat mask (length (data self)))))
    as [rows [Hrows [Hlen Hall]]].
  { intros [p m] Hin. simpl.
    pose proof (in_combine_l _ _ _ _ Hin) as Hp.
    pose proof (in_combine_r _ _ _ _ Hin) as Hm.
    apply repeat_spec in Hm. subst m. apply Hint, Hshape, Hp. }
  rewrite Hrows. simpl.
  rewrite length_combine, repeat_length, Nat.min_id in Hlen.
  match goal with |- context [if ?c then _ else _] => destruct c end;
    eexists; (split; [reflexivity|]); simpl; auto.
Qed.

(** ** Linearity of the complex integral *)

Lemma map2_combine3 {A : Type} (f : R -> R -> A) (g : A -> nat -> A)
    (h : R -> nat -> R) (re im : list R) (cts : list nat) :
  (forall a b c, g (f a b) c = f (h a c) (h b c)) ->
  map2 g (map2 f re im) cts = map2 f (map2 h re cts) (map2 h im cts).
Proof.
  intros Hfg. unfold map2. revert im cts.
  induction re as [|a re IH]; intros [|b im] [|c cts]; simpl; auto.
  f_equal; [apply Hfg | apply IH].
Qed.

Lemma map2_map_both {A B A' B' D : Type} (f : A' -> B' -> D) (p : A -> A')
    (q : B -> B') (l : list A) (m : list B) :
  map2 f (map p l) (map q m) = map2 (fun a b => f (p a) (q b)) l m.
Proof.
  unfold map2. revert m. induction l as [|a l IH]; intros [|b m]; simpl; auto.
  f_equal. apply IH.
Qed.

Lemma Cdiv_real_combination (a b : R) (c : nat) :
  Cdiv_real (Cadd (RtoC a) (Cmul Ci (RtoC b))) (INR c) =
  Cadd (RtoC (a / INR c)) (Cmul Ci (RtoC (b / INR c))).
Proof.
  unfold Cdiv_real, Cadd, Cmul, RtoC, Ci. simpl. f_equal; unfold Rdiv; ring.
Qed.

(** C9.  On a complex array [integrate_binary_comp] gives, bin by bin, the
    integral of the real part plus [1j] times the integral of the imaginary
    part, both computed by [integrate_binary_real] with the same mask and
    the same [normalize]; it raises exactly when they do. *)
Theorem integrate_binary_comp_is_real_plus_i_imag :
  forall (sdata : list (list complex)) (bin_mask : list (list R)) (normalize : bool),
    integrate_binary_comp sdata bin_mask normalize =
    (re <- integrate_binary_real (map (map Re) sdata) bin_mask normalize ;;
     im <- integrate_binary_real (map (map Im) sdata) bin_mask normalize ;;
     Ok (map2 (fun a b => Cadd (RtoC a) (Cmul Ci (RtoC b))) re im)).
Proof.
  intros sdata bin_mask normalize.
  unfold integrate_binary_comp, integrate_binary_real, np_unique_inverse_counts.
  destruct (np_bincount _ (ravel (map (map Re) sdata))) as [re|e]; simpl;
    [|reflexivity].
  destruct (np_bincount _ (ravel (map (map Im) sdata))) as [im|e]; simpl.
  - rewrite map2_map_both. destruct normalize; simpl; f_equal.
    apply map2_combine3. intros a b c. apply Cdiv_real_combination.
  - destruct normalize; reflexivity.
Qed.

(** ** Floor and ceiling *)

Lemma IZR_gap (a b : Z) : IZR a < IZR b + 1 -> IZR b < IZR a + 1 -> a = b.
Proof.
  intros H1 H2.
  destruct (Z.lt_trichotomy a b) as [Hlt|[Heq|Hgt]]; [|exact Heq|].
  - assert (H : IZR (a + 1) <= IZR b) by (apply IZR_le; lia).
    rewrite plus_IZR in H. lra.
  - assert (H : IZR (b + 1) <= IZR a) by (apply IZR_le; lia).
    rewrite plus_IZR in H. lra.
Qed.

Lemma Rfloor_spec (x : R) : IZR (Rfloor x) <= x < IZR (Rfloor x) + 1.
Proof.
  unfold Rfloor. rewrite minus_IZR. destruct (archimed x). lra.
Qed.

Lemma Rfloor_eq (x : R) (z : Z) : IZR z <= x < IZR z + 1 -> Rfloor x = z.
Proof.
  intros H. pose proof (Rfloor_spec x). apply IZR_gap; lra.
Qed.

Lemma Rceil_spec (x : R) : IZR (Rceil x) - 1 < x <= IZR (Rceil x).
Proof.
  unfold Rceil. rewrite minus_IZR. destruct (archimed (- x)). lra.
Qed.

Lemma Rceil_eq (x : R) (z : Z) : IZR z - 1 < x <= IZR z -> Rceil x = z.
Proof.
  intros H. pose proof (Rceil_spec x). apply IZR_gap; lra.
Qed.

Lemma div_le_iff (a b w : R) : 0 < w -> (a <= b / w <-> a * w <= b).
Proof.
  intros Hw. assert (E : b = b / w * w) by (field; lra).
  split; intros H.
  - rewrite E. apply Rmult_le_compat_r; lra.
  - apply Rmult_le_reg_r with w; lra.
Qed.

Lemma div_lt_iff (a b w : R) : 0 < w -> (b / w < a <-> b < a * w).
Proof.
  intros Hw. assert (E : b = b / w * w) by (field; lra).
  split; intros H.
  - rewrite E. apply Rmult_lt_compat_r; lra.
  - apply Rmult_lt_reg_r with w; lra.
Qed.

(** ** Minimum and maximum of an array *)

Lemma fold_left_Rmax_spec (t : list R) (x : R) :
  (fold_left Rmax t x = x \/ In (fold_left Rmax t x) t)
  /\ x <= fold_left Rmax t x
  /\ forall y, In y t -> y <= fold_left Rmax t x.
Proof.
  revert x. induction t as [|a t IH]; intros x; simpl.
  - split; [auto|]. split; [lra|tauto].
  - destruct (IH (Rmax x a)) as [Hin [Hle Hall]].
    pose proof (Rmax_l x a). pose proof (Rmax_r x a).
    split; [|split].
    + destruct Hin as [Hin|Hin]; [|auto].
      rewrite Hin. unfold Rmax. destruct (Rle_dec x a); auto.
    + lra.
    + intros y [->|Hy]; [lra|auto].
Qed.

Lemma fold_left_Rmin_spec (t : list R) (x : R) :
  (fold_left Rmin t x = x \/ In (fold_left Rmin t x) t)
  /\ fold_left Rmin t x <= x
  /\ forall y, In y t -> fold_left Rmin t x <= y.
Proof.
  revert x. induction t as [|a t IH]; intros x; simpl.
  - split; [auto|]. split; [lra|tauto].
  - destruct (IH (Rmin x a)) as [Hin [Hle Hall]].
    pose proof (Rmin_l x a). pose proof (Rmin_r x a).
    split; [|split].
    + destruct Hin as [Hin|Hin]; [|auto].
      rewrite Hin. unfold Rmin. destruct (Rle_dec x a); auto.
    + lra.
    + intros y [->|Hy]; [lra|auto].
Qed.

Lemma np_max_spec (a : list R) (hi : R) :
  np_max a = Ok hi -> In hi a /\ forall y, In y a -> y <= hi.
Proof.
  destruct a as [|x t]; simpl; [discriminate|]. intros H. inversion H; subst.
  destruct (fold_left_Rmax_spec t x) as [Hin [Hle Hall]].
  split; [destruct Hin as [Hin|Hin]; [left; symmetry; exact Hin|right; exact Hin]|].
  intros y [->|Hy]; auto.
Qed.

Lemma np_min_spec (a : list R) (lo : R) :
  np_min a = Ok lo -> In lo a /\ forall y, In y a -> lo <= y.
Proof.
  destruct a as [|x t]; simpl; [discriminate|]. intros H. inversion H; subst.
  destruct (fold_left_Rmin_spec t x) as [Hin [Hle Hall]].
  split; [destruct Hin as [Hin|Hin]; [left; symmetry; exact Hin|right; exact Hin]|].
  intros y [->|Hy]; auto.
Qed.

Lemma np_min_max_ok (a : list R) :
  a <> [] -> exists lo hi, np_min a = Ok lo /\ np_max a = Ok hi.
Proof. destruct a; [congruence|]. intros _. simpl. eauto. Qed.

(** ** The bin edges *)

Lemma edges_nth (lo w : R) (n i : nat) :
  (i < n)%nat -> nth_error (edges lo w n) i = Some (lo + INR i * w).
Proof.
  intros Hi. unfold edges. rewrite nth_error_map, nth_error_seq.
  destruct (Nat.ltb_spec i n); [reflexivity|lia].
Qed.

Lemma nondecreasing_map_seq (lo w : R) (s n : nat) :
  0 < w -> nondecreasing (map (fun i => lo + INR i * w) (seq s n)) = true.
Proof.
  intros Hw. revert s. induction n as [|n IH]; intros s; [reflexivity|].
  destruct n as [|n]; [reflexivity|].
  specialize (IH (S s)).
  change (Rleb (lo + INR s * w) (lo + INR (S s) * w)
          && nondecreasing (map (fun i => lo + INR i * w) (seq (S s) (S n)))
          = true).
  rewrite IH, andb_true_r. apply Rleb_true. rewrite S_INR. nra.
Qed.

(** [np.digitize] on increasing, evenly spaced edges: the edges not above
    [v] are the first [c] ones. *)
Lemma count_edges (lo w v : R) (n : nat) :
  0 < w ->
  let c := length (filter (fun b => Rleb b v) (edges lo w n)) in
  (c <= n)%nat
  /\ (forall i, (i < c)%nat -> lo + INR i * w <= v)
  /\ ((c < n)%nat -> v < lo + INR c * w).
Proof.
  intros Hw. unfold edges. induction n as [|n IH].
  - simpl. split; [lia|]. split; [lia|lia].
  - rewrite seq_S, map_app, filter_app, length_app. cbn zeta in *.
    cbn [map filter Nat.add].
    destruct IH as [Hc [Hlow Hup]].
    set (c := length (filter (fun b => Rleb b v)
                             (map (fun i => lo + INR i * w) (seq 0 n)))) in *.
    destruct (Rleb (lo + INR n * w) v) eqn:Hn; simpl.
    + apply Rleb_true in Hn.
      assert (c = n).
      { destruct (Nat.eq_dec c n); [auto|]. exfalso.
        assert (Hlt : (c < n)%nat) by lia. specialize (Hup Hlt).
        apply lt_INR in Hlt. nra. }
      subst c. split; [lia|]. split; [|lia].
      intros i Hi. assert (Hle : (i <= n)%nat) by lia.
      apply le_INR in Hle. nra.
    + apply Rleb_false in Hn. rewrite Nat.add_0_r.
      split; [lia|]. split; [exact Hlow|].
      intros _. destruct (Nat.eq_dec c n) as [->|]; [lra|apply Hup; lia].
Qed.

Lemma bin_index_eq (lo w v : R) (c : nat) :
  0 < w -> (1 <= c)%nat ->
  lo + INR (c - 1) * w <= v -> v < lo + INR c * w ->
  bin_index lo w v = (Z.of_nat c - 1)%Z.
Proof.
  intros Hw Hc H1 H2. unfold bin_index. apply Rfloor_eq.
  rewrite minus_IZR, <- INR_IZR_INZ.
  rewrite minus_INR in H1 by lia. simpl in H1.
  split.
  - apply div_le_iff; [lra|]. lra.
  - apply div_lt_iff; [lra|]. lra.
Qed.

Lemma mapM_map {A B D : Type} (f : B -> result D) (g : A -> B) (h : A -> D)
    (l : list A) :
  (forall a, In a l -> f (g a) = Ok (h a)) ->
  mapM f (map g l) = Ok (map h l).
Proof.
  induction l as [|a t IH]; simpl; intros H; [reflexivity|].
  rewrite H by auto. simpl. rewrite IH by auto. reflexivity.
Qed.

Lemma in_ravel {A : Type} (a : list (list A)) (row : list A) (v : A) :
  In row a -> In v row -> In v (ravel a).
Proof.
  intros Hr Hv. unfold ravel. apply in_concat. eauto.
Qed.

(** What [binarize] does for a positive bin width. *)
Lemma binarize_positive (mesh : list (list R)) (w lo hi : R) :
  0 < w -> np_min (ravel mesh) = Ok lo -> np_max (ravel mesh) = Ok hi ->
  exists n : nat,
    np_arange lo (hi + 1.1 * w) w = Ok (edges lo w n)
    /\ (2 <= n)%nat
    /\ hi < lo + INR (n - 1) * w
    /\ binarize mesh w = Ok (map (map (right_edge lo w)) mesh)
    /\ forall v, In v (ravel mesh) ->
         exists c : nat, (1 <= c < n)%nat
                         /\ nth_error (edges lo w n) c = Some (right_edge lo w v)
                         /\ lo + INR (c - 1) * w <= v < lo + INR c * w.
Proof.
  intros Hw Hlo Hhi.
  destruct (np_min_spec _ _ Hlo) as [Hlo_in Hlo_le].
  destruct (np_max_spec _ _ Hhi) as [Hhi_in Hhi_le].
  assert (Hlohi : lo <= hi) by auto.
  set (q := (hi + 1.1 * w - lo) / w).
  set (n := Z.to_nat (Rceil q)).
  assert (Hq : 1.1 <= q).
  { unfold q. apply div_le_iff; lra. }
  pose proof (Rceil_spec q) as Hceil.
  assert (Hn : INR n = IZR (Rceil q)).
  { unfold n. rewrite INR_IZR_INZ, Z2Nat.id; [reflexivity|].
    apply le_IZR. lra. }
  assert (Hn2 : (2 <= n)%nat).
  { destruct (Nat.le_gt_cases n 1) as [Hle|]; [exfalso|lia].
    apply le_INR in Hle. simpl in Hle. lra. }
  assert (Hlast : hi < lo + INR (n - 1) * w).
  { rewrite minus_INR by lia. simpl.
    assert (q * w = hi + 1.1 * w - lo) by (unfold q; field; lra).
    nra. }
  assert (Harange : np_arange lo (hi + 1.1 * w) w = Ok (edges lo w n)).
  { unfold np_arange. destruct (Req_dec_T w 0); [lra|reflexivity]. }
  assert (Hcount : forall v, In v (ravel mesh) ->
            let c := length (filter (fun b => Rleb b v) (edges lo w n)) in
            (1 <= c < n)%nat
            /\ lo + INR (c - 1) * w <= v < lo + INR c * w).
  { intros v Hv c.
    destruct (count_edges lo w v n Hw) as [Hc [Hlow Hup]]. fold c in Hc, Hlow, Hup.
    assert (Hc1 : (1 <= c)%nat).
    { destruct c; [|lia]. exfalso.
      assert (H0 : (0 < n)%nat) by lia. specialize (Hup H0). simpl in Hup.
      specialize (Hlo_le v Hv). lra. }
    assert (Hcn : (c < n)%nat).
    { destruct (Nat.eq_dec c n) as [E|]; [|lia]. exfalso.
      assert (Hi : (n - 1 < c)%nat) by lia.
      specialize (Hlow _ Hi). specialize (Hhi_le v Hv). lra. }
    split; [lia|]. split; [apply Hlow; lia|apply Hup; lia]. }
  exists n. repeat split; auto.
  - unfold binarize. rewrite Hlo, Hhi. simpl. rewrite Harange. simpl.
    unfold np_digitize. unfold edges at 1.
    rewrite nondecreasing_map_seq by exact Hw. simpl.
    unfold np_take. rewrite mapM_map with (h := map (right_edge lo w)); auto.
    intros row Hrow. apply mapM_map. intros v Hv.
    destruct (Hcount v (in_ravel _ _ _ Hrow Hv)) as [[Hc1 Hcn] [Hl Hu]].
    rewrite edges_nth by exact Hcn. f_equal.
    unfold right_edge. rewrite (bin_index_eq lo w v _ Hw Hc1 Hl Hu).
    rewrite minus_IZR, <- INR_IZR_INZ. ring.
  - intros v Hv. destruct (Hcount v Hv) as [[Hc1 Hcn] [Hl Hu]].
    eexists. split; [split; [exact Hc1|exact Hcn]|].
    split; [|split; [exact Hl|exact Hu]].
    rewrite edges_nth by exact Hcn. f_equal.
    unfold right_edge. rewrite (bin_index_eq lo w v _ Hw Hc1 Hl Hu).
    rewrite minus_IZR, <- INR_IZR_INZ. ring.
Qed.

Ltac Rdecide :=
  repeat match goal with
    | |- context [Rle_dec ?a ?b] => destruct (Rle_dec a b); try lra
    | |- context [Rlt_dec ?a ?b] => destruct (Rlt_dec a b); try lra
    | |- context [Req_dec_T ?a ?b] => destruct (Req_dec_T a b); try lra
    end.

(** Equality of arrays of reals, entry by entry. *)
Ltac array_eq :=
  repeat match goal with
    | |- Ok _ = Ok _ => f_equal
    | |- (_, _) = (_, _) => f_equal
    | |- _ :: _ = _ :: _ => f_equal
    | |- @eq (list _) [] [] => reflexivity
    end.

Lemma get_real_space_1x2 :
  get_real_space image_1x2 true None = Ok ([-0.5; 0.5], [0]).
Proof.
  unfold get_real_space, center_coords, axis_values, image_1x2. simpl.
  unfold Rmax. Rdecide. simpl. repeat f_equal; lra.
Qed.

Lemma sqrt_on_axis (x : R) : sqrt (x * x + 0 * 0) = Rabs x.
Proof.
  replace (x * x + 0 * 0) with (Rsqr x) by (unfold Rsqr; ring).
  apply sqrt_Rsqr_abs.
Qed.

Lemma radius_mesh_1x2 : radius_mesh [-0.5; 0.5] [0] = [[0.5; 0.5]].
Proof.
  unfold radius_mesh. simpl. rewrite !sqrt_on_axis.
  rewrite Rabs_left by lra. rewrite Rabs_right by lra.
  repeat f_equal; lra.
Qed.

(** C10.  For a real and for a complex image, and a mask of the same signal
    shape, [integrate_binary] returns, and every row of its result has
    exactly as many entries as the mask has distinct values, whatever
    [normalize] is. *)
Theorem integrate_binary_length_is_distinct_count :
  forall (real_image : Image R) (complex_image : Image complex)
         (bin_mask : Image R) (mask : list (list R)) (normalize : bool),
    same_signal_shape real_image bin_mask mask ->
    same_signal_shape complex_image bin_mask mask ->
    (exists s, integrate_binary real_image bin_mask normalize = Ok s
               /\ length (sig_data s) = length (data real_image)
               /\ Forall (fun row =>
                            length row = distinct_values (ravel mask))
                         (sig_data s))
    /\
    (exists s, integrate_binary complex_image bin_mask normalize = Ok s
               /\ length (sig_data s) = length (data complex_image)
               /\ Forall (fun row =>
                            length row = distinct_values (ravel mask))
                         (sig_data s)).
Proof.
  intros real_image complex_image bin_mask mask normalize Hr Hc. split.
  - apply integrate_binary_length_gen; auto.
    intros sdata Hs. apply integrate_binary_real_length, Hs.
  - apply integrate_binary_length_gen; auto.
    intros sdata Hs. apply integrate_binary_comp_length, Hs.
Qed.

Lemma integrate_binary_length_witness :
  (exists s, integrate_binary image_1x2 mask_1x2 true = Ok s
             /\ length (sig_data s) = length (data image_1x2)
             /\ Forall (fun row =>
                          length row = distinct_values (ravel [[1; 2]]))
                       (sig_data s))
  /\
  (exists s, integrate_binary complex_image_1x2 mask_1x2 true = Ok s
             /\ length (sig_data s) = length (data complex_image_1x2)
             /\ Forall (fun row =>
                          length row = distinct_values (ravel [[1; 2]]))
                       (sig_data s)).
Proof.
  apply (integrate_binary_length_is_distinct_count image_1x2
           complex_image_1x2 mask_1x2 [[1; 2]] true).
  - split; [reflexivity|]. split; [reflexivity|].
    intros plane [<-|[]]. reflexivity.
  - split; [reflexivity|]. split; [reflexivity|].
    intros plane [<-|[]]. reflexivity.
Defined.

(** ** Digitization *)

Lemma get_digitized_radius_positive {A : Type} (self : Image A)
    (bin_size : bin_size_arg) (shifted : bool)
    (shifts : option (list shift_val)) (xx yy : list R) (w lo : R) :
  get_real_space self shifted shifts = Ok (xx, yy) ->
  radius_bin_size self (radius_mesh xx yy) bin_size = Ok w -> 0 < w ->
  np_min (ravel (radius_mesh xx yy)) = Ok lo ->
  get_digitized_radius self bin_size shifted shifts =
  Ok (signal_signal self (map (map (right_edge lo w)) (radius_mesh xx yy))).
Proof.
  intros Hrs Hw Hpos Hlo. unfold get_digitized_radius.
  rewrite Hrs. simpl. rewrite Hw. simpl.
  destruct (np_max (ravel (radius_mesh xx yy))) as [hi|e] eqn:Hhi.
  - destruct (binarize_positive _ _ _ _ Hpos Hlo Hhi) as [n [_ [_ [_ [Hb _]]]]].
    rewrite Hb. reflexivity.
  - destruct (ravel (radius_mesh xx yy)); simpl in *; discriminate.
Qed.

Lemma get_digitized_angle_positive {A : Type} (self : Image A)
    (bin_size : bin_size_arg) (shifted : bool)
    (shifts : option (list shift_val)) (xx yy : list R) (w lo : R) :
  get_real_space self shifted shifts = Ok (xx, yy) ->
  angle_bin_size self bin_size = Ok w -> 0 < w ->
  np_min (ravel (angle_mesh xx yy)) = Ok lo ->
  get_digitized_angle self bin_size shifted shifts =
  Ok (signal_signal self (map (map (right_edge lo w)) (angle_mesh xx yy))).
Proof.
  intros Hrs Hw Hpos Hlo. unfold get_digitized_angle.
  rewrite Hrs. simpl. rewrite Hw. simpl.
  destruct (np_max (ravel (angle_mesh xx yy))) as [hi|e] eqn:Hhi.
  - destruct (binarize_positive _ _ _ _ Hpos Hlo Hhi) as [n [_ [_ [_ [Hb _]]]]].
    rewrite Hb. reflexivity.
  - destruct (ravel (angle_mesh xx yy)); simpl in *; discriminate.
Qed.

Lemma right_edge_contains (lo w v : R) :
  0 < w -> right_edge lo w v - w <= v < right_edge lo w v.
Proof.
  intros Hw. unfold right_edge, bin_index.
  pose proof (Rfloor_spec ((v - lo) / w)) as [H1 H2].
  apply div_le_iff in H1; [|exact Hw]. apply div_lt_iff in H2; [|exact Hw].
  lra.
Qed.

Lemma right_edge_is_left_edge_plus_width (lo w v : R) :
  right_edge lo w v = left_edge lo w v + w.
Proof. unfold right_edge, left_edge. ring. Qed.

(** C2, amended.  For a positive bin width both digitizations return, and
    they replace every mesh sample by the right (upper, excluded) edge of
    the bin that contains it: the sample lies in [[label - w, label)].  Two
    samples of the same bin therefore receive the same label. *)
Theorem digitization_labels_right_edge :
  forall (A : Type) (self : Image A) (bin_size : bin_size_arg)
         (shifted : bool) (shifts : option (list shift_val))
         (xx yy : list R) (wr lor wa loa : R),
    get_real_space self shifted shifts = Ok (xx, yy) ->
    radius_bin_size self (radius_mesh xx yy) bin_size = Ok wr -> 0 < wr ->
    np_min (ravel (radius_mesh xx yy)) = Ok lor ->
    angle_bin_size self bin_size = Ok wa -> 0 < wa ->
    np_min (ravel (angle_mesh xx yy)) = Ok loa ->
    get_digitized_radius self bin_size shifted shifts =
      Ok (signal_signal self
            (map (map (right_edge lor wr)) (radius_mesh xx yy)))
    /\ get_digitized_angle self bin_size shifted shifts =
      Ok (signal_signal self
            (map (map (right_edge loa wa)) (angle_mesh xx yy)))
    /\ (forall v, right_edge lor wr v - wr <= v < right_edge lor wr v)
    /\ (forall v, right_edge loa wa v - wa <= v < right_edge loa wa v)
    /\ (forall lo w v1 v2, bin_index lo w v1 = bin_index lo w v2 ->
                           right_edge lo w v1 = right_edge lo w v2).
Proof.
  intros A self bin_size shifted shifts xx yy wr lor wa loa
         Hrs Hwr Hr Hlor Hwa Ha Hloa.
  split; [eapply get_digitized_radius_positive; eauto|].
  split; [eapply get_digitized_angle_positive; eauto|].
  split; [intros v; apply right_edge_contains, Hr|].
  split; [intros v; apply right_edge_contains, Ha|].
  intros lo w v1 v2 E. unfold right_edge. rewrite E. reflexivity.
Qed.

Lemma np_min_pair (a b : R) : np_min [a; b] = Ok (Rmin a b).
Proof. reflexivity. Qed.

Lemma np_max_pair (a b : R) : np_max [a; b] = Ok (Rmax a b).
Proof. reflexivity. Qed.

Lemma np_angle_negative_axis (x : R) : x < 0 -> np_angle x 0 = PI.
Proof.
  intros Hx. unfold np_angle. Rdecide.
  replace (0 / x) with 0 by (field; lra). rewrite atan_0. ring.
Qed.

Lemma np_angle_positive_axis (x : R) : 0 < x -> np_angle x 0 = 0.
Proof.
  intros Hx. unfold np_angle. Rdecide.
  replace (0 / x) with 0 by (field; lra). apply atan_0.
Qed.

Lemma angle_mesh_1x2 : angle_mesh [-0.5; 0.5] [0] = [[PI; 0]].
Proof.
  unfold angle_mesh. simpl.
  rewrite np_angle_negative_axis by lra.
  rewrite np_angle_positive_axis by lra. reflexivity.
Qed.

Lemma digitization_labels_right_edge_witness :
  get_digitized_radius image_1x2 (BinFloat 1) true None =
    Ok (signal_signal image_1x2
          (map (map (right_edge 0.5 1)) (radius_mesh [-0.5; 0.5] [0])))
  /\ get_digitized_angle image_1x2 (BinFloat 1) true None =
    Ok (signal_signal image_1x2
          (map (map (right_edge 0 1)) (angle_mesh [-0.5; 0.5] [0])))
  /\ (forall v, right_edge 0.5 1 v - 1 <= v < right_edge 0.5 1 v)
  /\ (forall v, right_edge 0 1 v - 1 <= v < right_edge 0 1 v)
  /\ (forall lo w v1 v2, bin_index lo w v1 = bin_index lo w v2 ->
                         right_edge lo w v1 = right_edge lo w v2).
Proof.
  apply (digitization_labels_right_edge R image_1x2 (BinFloat 1) true None
           [-0.5; 0.5] [0] 1 0.5 1 0).
  - exact get_real_space_1x2.
  - reflexivity.
  - lra.
  - rewrite radius_mesh_1x2. simpl. unfold Rmin. Rdecide. reflexivity.
  - reflexivity.
  - lra.
  - rewrite angle_mesh_1x2. simpl. unfold Rmin. pose proof PI_RGT_0.
    Rdecide. reflexivity.
Defined.

(** C2 as written does not hold: on the 1 x 2 image, with bins of width 1,
    the labels are not the left edges of the bins. *)
Lemma digitized_radius_is_not_left_edge :
  exists xx yy lo labels,
    get_real_space image_1x2 true None = Ok (xx, yy)
    /\ np_min (ravel (radius_mesh xx yy)) = Ok lo
    /\ get_digitized_radius image_1x2 (BinFloat 1) true None =
       Ok (signal_signal image_1x2 labels)
    /\ labels <> map (map (left_edge lo 1)) (radius_mesh xx yy).
Proof.
  exists [-0.5; 0.5], [0], 0.5, (map (map (right_edge 0.5 1)) [[0.5; 0.5]]).
  split; [exact get_real_space_1x2|].
  rewrite radius_mesh_1x2.
  split; [simpl; unfold Rmin; Rdecide; reflexivity|].
  split.
  - rewrite <- radius_mesh_1x2.
    apply get_digitized_radius_positive; try reflexivity; try lra.
    + exact get_real_space_1x2.
    + rewrite radius_mesh_1x2. simpl. unfold Rmin. Rdecide. reflexivity.
  - simpl. intros H. injection H as H _.
    rewrite right_edge_is_left_edge_plus_width in H. lra.
Qed.

(** C4, amended.  For an integer count [n > 0] the radial digitization uses
    the bin width [max(mesh) / n] and the angular one [2 pi / n]; the labels
    they return are the bin edges spaced by these widths. *)
Theorem int_bin_size_gives_max_over_n_and_two_pi_over_n :
  forall (A : Type) (self : Image A) (n : Z) (shifted : bool)
         (shifts : option (list shift_val)) (xx yy : list R)
         (lor hir loa : R),
    (0 < n)%Z ->
    get_real_space self shifted shifts = Ok (xx, yy) ->
    np_min (ravel (radius_mesh xx yy)) = Ok lor ->
    np_max (ravel (radius_mesh xx yy)) = Ok hir ->
    0 < hir ->
    np_min (ravel (angle_mesh xx yy)) = Ok loa ->
    radius_bin_size self (radius_mesh xx yy) (BinInt n) = Ok (hir / IZR n)
    /\ angle_bin_size self (BinInt n) = Ok (2 * PI / IZR n)
    /\ get_digitized_radius self (BinInt n) shifted shifts =
       Ok (signal_signal self
             (map (map (right_edge lor (hir / IZR n))) (radius_mesh xx yy)))
    /\ get_digitized_angle self (BinInt n) shifted shifts =
       Ok (signal_signal self
             (map (map (right_edge loa (2 * PI / IZR n))) (angle_mesh xx yy))).
Proof.
  intros A self n shifted shifts xx yy lor hir loa Hn Hrs Hlor Hhir Hpos Hloa.
  assert (Hn0 : (n =? 0)%Z = false) by (apply Z.eqb_neq; lia).
  assert (HnR : 0 < IZR n) by (apply IZR_lt; exact Hn).
  assert (Hwr : radius_bin_size self (radius_mesh xx yy) (BinInt n)
                = Ok (hir / IZR n)).
  { unfold radius_bin_size. rewrite Hhir. simpl. rewrite Hn0. reflexivity. }
  assert (Hwa : angle_bin_size self (BinInt n) = Ok (2 * PI / IZR n)).
  { unfold angle_bin_size. rewrite Hn0. reflexivity. }
  split; [exact Hwr|]. split; [exact Hwa|]. split.
  - eapply get_digitized_radius_positive; eauto.
    apply Rdiv_lt_0_compat; assumption.
  - eapply get_digitized_angle_positive; eauto.
    apply Rdiv_lt_0_compat; [|assumption]. pose proof PI_RGT_0. lra.
Qed.

Lemma min_max_radius_1x2 :
  np_min (ravel (radius_mesh [-0.5; 0.5] [0])) = Ok 0.5
  /\ np_max (ravel (radius_mesh [-0.5; 0.5] [0])) = Ok 0.5.
Proof.
  rewrite radius_mesh_1x2. simpl. unfold Rmin, Rmax. Rdecide. auto.
Qed.

Lemma min_max_angle_1x2 :
  np_min (ravel (angle_mesh [-0.5; 0.5] [0])) = Ok 0
  /\ np_max (ravel (angle_mesh [-0.5; 0.5] [0])) = Ok PI.
Proof.
  rewrite angle_mesh_1x2. simpl. unfold Rmin, Rmax. pose proof PI_RGT_0.
  Rdecide. auto.
Qed.

Lemma int_bin_size_witness :
  radius_bin_size image_1x2 (radius_mesh [-0.5; 0.5] [0]) (BinInt 2)
    = Ok (0.5 / IZR 2)
  /\ angle_bin_size image_1x2 (BinInt 2) = Ok (2 * PI / IZR 2)
  /\ get_digitized_radius image_1x2 (BinInt 2) true None =
     Ok (signal_signal image_1x2
           (map (map (right_edge 0.5 (0.5 / IZR 2)))
                (radius_mesh [-0.5; 0.5] [0])))
  /\ get_digitized_angle image_1x2 (BinInt 2) true None =
     Ok (signal_signal image_1x2
           (map (map (right_edge 0 (2 * PI / IZR 2)))
                (angle_mesh [-0.5; 0.5] [0]))).
Proof.
  apply (int_bin_size_gives_max_over_n_and_two_pi_over_n R image_1x2 2 true
           None [-0.5; 0.5] [0] 0.5 0.5 0).
  - reflexivity.
  - exact get_real_space_1x2.
  - exact (proj1 min_max_radius_1x2).
  - exact (proj2 min_max_radius_1x2).
  - lra.
  - exact (proj1 min_max_angle_1x2).
Defined.

(** C4 as written does not hold: with two bins asked on the 1 x 2 image
    neither width is (max - min) / 2. *)
Lemma int_bin_size_is_not_range_over_n :
  exists xx yy lor hir wr loa hia wa,
    get_real_space image_1x2 true None = Ok (xx, yy)
    /\ np_min (ravel (radius_mesh xx yy)) = Ok lor
    /\ np_max (ravel (radius_mesh xx yy)) = Ok hir
    /\ radius_bin_size image_1x2 (radius_mesh xx yy) (BinInt 2) = Ok wr
    /\ wr <> (hir - lor) / IZR 2
    /\ np_min (ravel (angle_mesh xx yy)) = Ok loa
    /\ np_max (ravel (angle_mesh xx yy)) = Ok hia
    /\ angle_bin_size image_1x2 (BinInt 2) = Ok wa
    /\ wa <> (hia - loa) / IZR 2.
Proof.
  exists [-0.5; 0.5], [0], 0.5, 0.5, (0.5 / IZR 2), 0, PI, (2 * PI / IZR 2).
  pose proof PI_RGT_0.
  destruct min_max_radius_1x2 as [Hlo Hhi].
  destruct min_max_angle_1x2 as [Hloa Hhia].
  repeat split; auto using get_real_space_1x2.
  - unfold radius_bin_size. rewrite Hhi. reflexivity.
  - lra.
  - lra.
Qed.

Lemma Forall2_map_r {A B : Type} (P : A -> B -> Prop) (f : A -> B)
    (l : list A) :
  (forall a, In a l -> P a (f a)) -> Forall2 P l (map f l).
Proof.
  induction l as [|a t IH]; simpl; intros H; constructor; auto.
Qed.

Lemma np_unique_nonempty (a : list R) : a <> [] -> np_unique a <> [].
Proof.
  destruct a as [|x t]; [congruence|]. intros _ H.
  assert (Hin : In x (np_unique (x :: t))) by (apply np_unique_In; left; auto).
  rewrite H in Hin. exact Hin.
Qed.

Lemma ravel_map_nonempty {A B : Type} (f : A -> B) (a : list (list A)) :
  ravel a <> [] -> ravel (map (map f) a) <> [].
Proof.
  intros H E. apply H. apply length_zero_iff_nil.
  rewrite <- (length_ravel_map f). rewrite E. reflexivity.
Qed.

Lemma binarize_complete (mesh : list (list R)) (w lo hi : R) :
  0 < w -> np_min (ravel mesh) = Ok lo -> np_max (ravel mesh) = Ok hi ->
  complete_binning mesh w lo hi (map (map (right_edge lo w)) mesh).
Proof.
  intros Hw Hlo Hhi.
  destruct (binarize_positive _ _ _ _ Hw Hlo Hhi)
    as [n [Har [Hn [Hlast [_ Hlab]]]]].
  exists n. split; [exact Har|]. split; [reflexivity|]. split.
  - apply Forall2_map_r. intros row Hrow. apply Forall2_map_r. intros v Hv.
    destruct (Hlab v (in_ravel _ _ _ Hrow Hv)) as [c [Hc [Hnth Hv']]].
    exists c. split; [exact Hc|]. split; [exact Hnth|].
    assert (E : right_edge lo w v = lo + INR c * w).
    { rewrite edges_nth in Hnth by lia. congruence. }
    rewrite E. exact Hv'.
  - split; [exact Hlast|]. split; [|apply np_unique_sorted].
    apply np_unique_nonempty, ravel_map_nonempty.
    destruct (ravel mesh); [discriminate|congruence].
Qed.

(** C8, amended.  For a positive bin width both digitizations return one
    label per mesh sample, the edge closing the bin that contains the
    sample, with an index inside the array of edges; the largest sample lies
    strictly below the last edge; and the labels that [np.unique] then
    finds are not empty and strictly increasing. *)
Theorem binning_completeness :
  forall (A : Type) (self : Image A) (bin_size : bin_size_arg)
         (shifted : bool) (shifts : option (list shift_val))
         (xx yy : list R) (wr lor hir wa loa hia : R),
    get_real_space self shifted shifts = Ok (xx, yy) ->
    radius_bin_size self (radius_mesh xx yy) bin_size = Ok wr -> 0 < wr ->
    np_min (ravel (radius_mesh xx yy)) = Ok lor ->
    np_max (ravel (radius_mesh xx yy)) = Ok hir ->
    angle_bin_size self bin_size = Ok wa -> 0 < wa ->
    np_min (ravel (angle_mesh xx yy)) = Ok loa ->
    np_max (ravel (angle_mesh xx yy)) = Ok hia ->
    (exists labels,
        get_digitized_radius self bin_size shifted shifts =
          Ok (signal_signal self labels)
        /\ complete_binning (radius_mesh xx yy) wr lor hir labels)
    /\ (exists labels,
        get_digitized_angle self bin_size shifted shifts =
          Ok (signal_signal self labels)
        /\ complete_binning (angle_mesh xx yy) wa loa hia labels).
Proof.
  intros A self bin_size shifted shifts xx yy wr lor hir wa loa hia
         Hrs Hwr Hr Hlor Hhir Hwa Ha Hloa Hhia.
  split; eexists; split.
  - eapply get_digitized_radius_positive; eauto.
  - apply binarize_complete; assumption.
  - eapply get_digitized_angle_positive; eauto.
  - apply binarize_complete; assumption.
Qed.

Lemma binning_completeness_witness :
  (exists labels,
      get_digitized_radius image_1x2 (BinFloat 1) true None =
        Ok (signal_signal image_1x2 labels)
      /\ complete_binning (radius_mesh [-0.5; 0.5] [0]) 1 0.5 0.5 labels)
  /\ (exists labels,
      get_digitized_angle image_1x2 (BinFloat 1) true None =
        Ok (signal_signal image_1x2 labels)
      /\ complete_binning (angle_mesh [-0.5; 0.5] [0]) 1 0 PI labels).
Proof.
  apply (binning_completeness R image_1x2 (BinFloat 1) true None
           [-0.5; 0.5] [0] 1 0.5 0.5 1 0 PI).
  - exact get_real_space_1x2.
  - reflexivity.
  - lra.
  - exact (proj1 min_max_radius_1x2).
  - exact (proj2 min_max_radius_1x2).
  - reflexivity.
  - lra.
  - exact (proj1 min_max_angle_1x2).
  - exact (proj2 min_max_angle_1x2).
Defined.

Lemma radius_mesh_095 : radius_mesh [0; 0.95] [0] = [[0; 0.95]].
Proof.
  unfold radius_mesh. simpl. rewrite !sqrt_on_axis.
  rewrite !Rabs_right by lra. reflexivity.
Qed.

Lemma get_real_space_095 :
  get_real_space image_095 false None = Ok ([0; 0.95], [0]).
Proof.
  unfold get_real_space, axis_values, image_095. simpl.
  repeat f_equal; lra.
Qed.

(** C8 as written does not hold: here the edges are 0, 1 and 2, the last
    bin is [[1, 2)], and the largest sample, 0.95, lies in the bin before. *)
Lemma maximum_is_not_in_last_bin :
  exists xx yy lo hi,
    get_real_space image_095 false None = Ok (xx, yy)
    /\ radius_bin_size image_095 (radius_mesh xx yy) (BinFloat 1) = Ok 1
    /\ np_min (ravel (radius_mesh xx yy)) = Ok lo
    /\ np_max (ravel (radius_mesh xx yy)) = Ok hi
    /\ np_arange lo (hi + 1.1 * 1) 1 = Ok (edges lo 1 3)
    /\ nth_error (edges lo 1 3) 1 = Some 1
    /\ ~ (1 <= hi).
Proof.
  exists [0; 0.95], [0], 0, 0.95.
  split; [exact get_real_space_095|]. split; [reflexivity|].
  rewrite radius_mesh_095.
  split; [simpl; unfold Rmin; Rdecide; reflexivity|].
  split; [simpl; unfold Rmax; Rdecide; reflexivity|].
  split; [|split; [|lra]].
  - unfold np_arange. Rdecide.
    rewrite (Rceil_eq _ 3) by lra. reflexivity.
  - simpl. f_equal. lra.
Qed.

(** With a negative bin width the array of edges stops short of the samples
    and the look-up of the labels fails: the width has to be positive. *)
Lemma digitization_with_negative_bin_size_raises :
  get_digitized_radius image_095 (BinFloat (-1)) false None = Raise IndexError.
Proof.
  unfold get_digitized_radius. rewrite get_real_space_095. cbn [bind].
  rewrite radius_mesh_095. cbn [radius_bin_size bind].
  unfold binarize. simpl np_min. simpl np_max.
  unfold Rmin, Rmax. Rdecide. cbn [bind].
  unfold np_arange. Rdecide. rewrite (Rceil_eq _ 1) by lra.
  change (Z.to_nat 1) with 1%nat. cbn [seq map bind].
  unfold np_digitize. cbn [nondecreasing map filter bind].
  rewrite !(proj2 (Rleb_true _ _)) by (simpl; lra).
  reflexivity.
Qed.

(** ** CTF model *)

Lemma nth_error_map2 {A B D : Type} (f : A -> B -> D) (l : list A)
    (m : list B) (i : nat) :
  nth_error (map2 f l m) i =
  match nth_error l i, nth_error m i with
  | Some a, Some b => Some (f a b)
  | _, _ => None
  end.
Proof.
  unfold map2. revert m i.
  induction l as [|a l IH]; intros [|b m] [|i]; simpl; auto;
    destruct (nth_error l i); reflexivity.
Qed.

Lemma nth2_map {A B : Type} (f : A -> B) (a : list (list A)) (j i : nat) :
  nth2 (map (map f) a) j i = option_map f (nth2 a j i).
Proof.
  unfold nth2. rewrite nth_error_map.
  destruct (nth_error a j) as [row|]; simpl; [|reflexivity].
  apply nth_error_map.
Qed.

Lemma nth2_map2 {A B D : Type} (f : A -> B -> D) (a : list (list A))
    (b : list (list B)) (j i : nat) :
  nth2 (map2 (map2 f) a b) j i =
  match nth2 a j i, nth2 b j i with
  | Some x, Some y => Some (f x y)
  | _, _ => None
  end.
Proof.
  unfold nth2. rewrite nth_error_map2.
  destruct (nth_error a j) as [ra|], (nth_error b j) as [rb|]; simpl; auto.
  - apply nth_error_map2.
  - destruct (nth_error ra i); reflexivity.
Qed.

Lemma np_sqrt_negative (x : R) : x < 0 -> np_sqrt x = None.
Proof. intros H. unfold np_sqrt. destruct (Rlt_dec x 0); [reflexivity|lra]. Qed.

(** Where the radicand [wnum^2 - k2] is negative the slice is 0 after
    [np.nan_to_num], whatever the aperture and the defocus. *)
Lemma plain_slice_evanescent (wnum k2Aperture defocus : R)
    (fsmooth : option R) (k2 : list (list R)) (j i : nat) (q : R) :
  nth2 k2 j i = Some q -> wnum * wnum - q < 0 ->
  nth2 (map (map nan_to_num)
            (ctf_slice (chi_plain wnum k2)
                       (map (map (aperture_value k2Aperture fsmooth)) k2)
                       defocus)) j i = Some C0.
Proof.
  intros Hq Hneg. rewrite nth2_map. unfold ctf_slice, chi_plain.
  rewrite nth2_map2, !nth2_map, Hq. simpl.
  rewrite np_sqrt_negative by exact Hneg. reflexivity.
Qed.

Lemma astigmatic_slice_evanescent (wnum k2Aperture defocus angle : R)
    (fsmooth : option R) (kx ky k2 : list (list R)) (j i : nat)
    (a b q : R) :
  nth2 kx j i = Some a -> nth2 ky j i = Some b -> nth2 k2 j i = Some q ->
  wnum * wnum - q < 0
  \/ wnum * wnum
     - (a * cos angle + b * sin angle) * (a * cos angle + b * sin angle) < 0 ->
  nth2 (map (map nan_to_num)
            (ctf_slice (chi_astigmatic wnum kx ky k2 angle)
                       (map (map (aperture_value k2Aperture fsmooth)) k2)
                       defocus)) j i = Some C0.
Proof.
  intros Ha Hb Hq Hneg. rewrite nth2_map. unfold ctf_slice, chi_astigmatic.
  rewrite nth2_map2, nth2_map2, !nth2_map, nth2_map2, Ha, Hb, Hq. simpl.
  destruct Hneg as [Hneg|Hneg].
  - rewrite (np_sqrt_negative (wnum * wnum - q)) by exact Hneg.
    destruct (np_sqrt _); reflexivity.
  - rewrite np_sqrt_negative by exact Hneg. reflexivity.
Qed.

Lemma nth_error_flat_map_map {A B D : Type} (g : A -> B -> D) (l : list A)
    (m : list B) (ia ib : nat) (a : A) (b : B) :
  nth_error l ia = Some a -> nth_error m ib = Some b ->
  nth_error (flat_map (fun x => map (g x) m) l) (ia * length m + ib)
  = Some (g a b).
Proof.
  revert ia. induction l as [|x l IH]; intros [|ia] Ha Hb; simpl in *;
    try discriminate.
  - inversion Ha; subst. rewrite nth_error_app1.
    + rewrite nth_error_map, Hb. reflexivity.
    + rewrite length_map. apply nth_error_Some. congruence.
  - rewrite nth_error_app2; rewrite length_map; [|lia].
    replace (length m + ia * length m + ib - length m)%nat
      with (ia * length m + ib)%nat by lia.
    apply IH; auto.
Qed.

Lemma plain_slices_nth (k2 kx ky : list (list R)) (wnum k2Aperture : R)
    (fsmooth : option R) (defoci : list R) (s : nat) (d : R) :
  nth_error defoci s = Some d ->
  nth_error (map (map (map nan_to_num))
               (contrast_transfer_array k2 kx ky wnum k2Aperture fsmooth
                                        defoci None)) s
  = Some (map (map nan_to_num)
            (ctf_slice (chi_plain wnum k2)
                       (map (map (aperture_value k2Aperture fsmooth)) k2) d)).
Proof.
  intros Hs. unfold contrast_transfer_array.
  rewrite !nth_error_map, Hs. reflexivity.
Qed.

Lemma k_vector_length (N : nat) (dk : R) : length (k_vector N dk) = N.
Proof.
  unfold k_vector, np_ifftshift.
  rewrite length_app, length_skipn, length_firstn, !length_map, !length_seq.
  assert (N / 2 <= N)%nat by (apply Nat.Div0.div_le_upper_bound; lia). lia.
Qed.

(** The array [k2] has one row per pixel of the y axis and one column per
    pixel of the x axis. *)
Lemma fourier_grid_shape {A : Type} (self : Image A) (k2 : list (list R))
    (kx ky : list R) :
  fourier_grid self = Ok (k2, kx, ky) ->
  length k2 = size (y_axis self)
  /\ Forall (fun row => length row = size (x_axis self)) k2.
Proof.
  unfold fourier_grid.
  destruct (Req_dec_T _ 0) as [E|_]; [discriminate|].
  destruct (Req_dec_T _ 0) as [E|_]; [discriminate|].
  unfold np_meshgrid. cbv iota beta. intros H. injection H as <- <- <-.
  set (u := k_vector (size (x_axis self)) _).
  set (v := k_vector (size (y_axis self)) _).
  assert (Hu : length u = size (x_axis self)) by apply k_vector_length.
  assert (Hv : length v = size (y_axis self)) by apply k_vector_length.
  rewrite <- Hu, <- Hv. clearbody u v. clear Hu Hv. split.
  - rewrite map2_length, !length_map. apply Nat.min_id.
  - apply Forall_forall. intros row Hrow. unfold map2 in Hrow.
    apply in_map_iff in Hrow. destruct Hrow as [[r1 r2] [<- Hin]].
    cbn [fst snd]. rewrite length_map, length_combine.
    pose proof (in_combine_l _ _ _ _ Hin) as H1.
    pose proof (in_combine_r _ _ _ _ Hin) as H2.
    apply in_map_iff in H1. destruct H1 as [y1 [<- _]].
    apply in_map_iff in H2. destruct H2 as [y2 [<- _]].
    rewrite length_map. apply Nat.min_id.
Qed.

Lemma offset_and_scale_ok (v : list R) :
  (2 <= length v)%nat -> exists p, offset_and_scale v = Ok p.
Proof.
  destruct v as [|a [|b v]]; simpl; try lia. intros _.
  eexists. reflexivity.
Qed.

Lemma first_column_length (k2 : list (list R)) :
  length (first_column k2) = length k2.
Proof. apply length_map. Qed.

Lemma first_row_length (k2 : list (list R)) (n : nat) :
  (1 <= length k2)%nat -> Forall (fun row => length row = n) k2 ->
  length (first_row k2) = n.
Proof.
  destruct k2 as [|row k2]; simpl; [lia|]. intros _ H.
  inversion H; assumption.
Qed.

(** The squeezed shape when both signal axes have two pixels or more. *)
Lemma np_squeeze_keeps (d : nat) (rest : list nat) :
  np_squeeze (d :: rest)
  = if Nat.eqb d 1 then np_squeeze rest else d :: np_squeeze rest.
Proof. unfold np_squeeze. cbn [filter]. destruct (Nat.eqb d 1); reflexivity. Qed.

Lemma np_squeeze_signal (Nx Ny : nat) :
  (2 <= Nx)%nat -> (2 <= Ny)%nat -> np_squeeze [Ny; Nx] = [Ny; Nx].
Proof.
  intros Hx Hy. unfold np_squeeze. cbn [filter].
  destruct (Nat.eqb_spec Ny 1); [lia|]. destruct (Nat.eqb_spec Nx 1); [lia|].
  reflexivity.
Qed.

(** On such inputs the calibration of the axes goes through. *)
Lemma calibrate_contrast_transfer_ok {A : Type} (self : Image A)
    (k2 : list (list R)) (kx ky : list R) (dfs : list R)
    (angs : option (list R)) :
  fourier_grid self = Ok (k2, kx, ky) ->
  calibratable self dfs angs ->
  calibrate_contrast_transfer
    (np_squeeze (contrast_transfer_shape (size (x_axis self))
                                         (size (y_axis self)) dfs angs))
    k2 dfs angs = Ok tt.
Proof.
  intros Hg [Hx [Hy [Hd Ha]]].
  destruct (fourier_grid_shape self k2 kx ky Hg) as [Hrows Hcols].
  destruct (offset_and_scale_ok (first_row k2)) as [pr Hpr].
  { rewrite (first_row_length k2 (size (x_axis self))); [exact Hx|lia|exact Hcols]. }
  destruct (offset_and_scale_ok (first_column k2)) as [pc Hpc].
  { rewrite first_column_length. lia. }
  unfold calibrate_contrast_transfer, contrast_transfer_shape.
  destruct angs as [a|].
  - destruct (offset_and_scale_ok a Ha) as [pa Hpa].
    rewrite (np_squeeze_keeps _), (np_squeeze_keeps _),
      (np_squeeze_signal _ _ Hx Hy).
    destruct (Nat.eqb_spec (length a) 1) as [E|_]; [lia|].
    destruct (Nat.eqb_spec (length dfs) 1) as [E|Hne].
    + cbn [navigation_dimension_of length Nat.ltb Nat.leb Nat.sub bind].
      rewrite Hpa, Hpr, Hpc. reflexivity.
    + destruct (offset_and_scale_ok dfs) as [pd Hpd]; [lia|].
      cbn [navigation_dimension_of length Nat.ltb Nat.leb Nat.sub bind].
      rewrite Hpd. cbn [bind]. rewrite Hpa, Hpr, Hpc. reflexivity.
  - rewrite (np_squeeze_keeps _), (np_squeeze_signal _ _ Hx Hy).
    destruct (Nat.eqb_spec (length dfs) 1) as [E|Hne].
    + cbn [navigation_dimension_of length Nat.ltb Nat.leb Nat.sub bind].
      rewrite Hpr, Hpc. reflexivity.
    + destruct (offset_and_scale_ok dfs) as [pd Hpd]; [lia|].
      cbn [navigation_dimension_of length Nat.ltb Nat.leb Nat.sub bind].
      rewrite Hpd, Hpr, Hpc. reflexivity.
Qed.

Lemma get_contrast_transfer_returns {A : Type} (self : Image A)
    (defoci angles : option (list R)) (wlen nref NA fsmooth : option R)
    (dfs : list R) (ax_count : nat) (k2 : list (list R)) (kx ky : list R) :
  read_defoci self defoci = Some (dfs, ax_count) ->
  fourier_grid self = Ok (k2, kx, ky) ->
  read_parameter wlen (wave_length (metadata self)) <> 0 ->
  read_parameter nref (refractive_index (metadata self)) <> 0 ->
  calibratable self dfs (read_angles self angles ax_count) ->
  exists ctf,
    get_contrast_transfer self defoci angles wlen nref NA fsmooth
    = ([], Ok (Some ctf))
    /\ ctf_data ctf =
       map (map (map nan_to_num))
           (contrast_transfer_array k2 (fst (np_meshgrid kx ky))
              (snd (np_meshgrid kx ky)) (wave_number self wlen nref)
              (aperture_k2 self wlen nref NA)
              (first_some fsmooth (f_smooth_aperture (metadata self)))
              dfs (read_angles self angles ax_count)).
Proof.
  intros Hd Hg Hw Hn Hc. unfold get_contrast_transfer. rewrite Hd, Hg.
  cbn [bind]. unfold np_meshgrid.
  destruct (Req_dec_T _ 0) as [E|_]; [contradiction|].
  destruct (Req_dec_T _ 0) as [E|_]; [contradiction|].
  rewrite (calibrate_contrast_transfer_ok self k2 kx ky dfs _ Hg Hc).
  cbn [bind]. eexists. split; reflexivity.
Qed.

Lemma nth2_meshgrid (kx ky : list R) (j i : nat) (a b : R) :
  nth_error kx i = Some a -> nth_error ky j = Some b ->
  nth2 (fst (np_meshgrid kx ky)) j i = Some a
  /\ nth2 (snd (np_meshgrid kx ky)) j i = Some b.
Proof.
  intros Ha Hb. unfold np_meshgrid, nth2. simpl.
  rewrite !nth_error_map, Hb. simpl. rewrite nth_error_map, Ha. auto.
Qed.

(** C3, amended.  Whenever defocus values are found, no division by zero
    occurs and the axes of the result can be calibrated (signal axes of two
    pixels or more, a defocus value or more, two angles or more when there
    are angles), the CTF is returned, and [np.nan_to_num] is applied to it
    after the complex exponential and the product with the aperture: at
    every frequency where a radicand of the aberration function is negative
    the slice is 0, whatever the aperture is there. *)
Theorem evanescent_frequencies_are_zero_in_ctf :
  forall (A : Type) (self : Image A) (defoci angles : option (list R))
         (wlen nref NA fsmooth : option R) (dfs : list R) (ax_count : nat)
         (k2 : list (list R)) (kx ky : list R),
    read_defoci self defoci = Some (dfs, ax_count) ->
    fourier_grid self = Ok (k2, kx, ky) ->
    read_parameter wlen (wave_length (metadata self)) <> 0 ->
    read_parameter nref (refractive_index (metadata self)) <> 0 ->
    calibratable self dfs (read_angles self angles ax_count) ->
    exists ctf,
      get_contrast_transfer self defoci angles wlen nref NA fsmooth
      = ([], Ok (Some ctf))
      /\ (read_angles self angles ax_count = None ->
          forall s d j i q,
            nth_error dfs s = Some d -> nth2 k2 j i = Some q ->
            wave_number self wlen nref * wave_number self wlen nref - q < 0 ->
            exists slice, nth_error (ctf_data ctf) s = Some slice
                          /\ nth2 slice j i = Some C0)
      /\ (forall angs,
          read_angles self angles ax_count = Some angs ->
          forall sd sa d a j i q kxv kyv,
            nth_error dfs sd = Some d -> nth_error angs sa = Some a ->
            nth2 k2 j i = Some q ->
            nth_error kx i = Some kxv -> nth_error ky j = Some kyv ->
            wave_number self wlen nref * wave_number self wlen nref - q < 0
            \/ wave_number self wlen nref * wave_number self wlen nref
               - (kxv * cos a + kyv * sin a) * (kxv * cos a + kyv * sin a) < 0 ->
            exists slice,
              nth_error (ctf_data ctf) (sd * length angs + sa) = Some slice
              /\ nth2 slice j i = Some C0).
Proof.
  intros A self defoci angles wlen nref NA fsmooth dfs ax_count k2 kx ky
         Hd Hg Hw Hn Hc.
  destruct (get_contrast_transfer_returns self defoci angles wlen nref NA
              fsmooth dfs ax_count k2 kx ky Hd Hg Hw Hn Hc)
    as [ctf [Hctf Hdata]].
  exists ctf. split; [exact Hctf|]. rewrite Hdata. split.
  - intros Hang s d j i q Hs Hq Hneg. rewrite Hang.
    eexists. split; [apply plain_slices_nth; exact Hs|].
    apply plain_slice_evanescent with (q := q); assumption.
  - intros angs Hang sd sa d a j i q kxv kyv Hsd Hsa Hq Hkx Hky Hneg.
    rewrite Hang. unfold contrast_transfer_array.
    rewrite nth_error_map.
    rewrite (nth_error_flat_map_map
               (fun d a => ctf_slice (chi_astigmatic _ _ _ k2 a) _ d)
               dfs angs sd sa d a Hsd Hsa).
    simpl. eexists. split; [reflexivity|].
    destruct (nth2_meshgrid kx ky j i kxv kyv Hkx Hky) as [Hx Hy].
    apply astigmatic_slice_evanescent with (a := kxv) (b := kyv) (q := q);
      assumption.
Qed.

Lemma fourier_grid_2x2 :
  fourier_grid image_2x2 =
  Ok ([[0; PI * PI]; [PI * PI; 2 * (PI * PI)]], [0; - PI], [0; - PI]).
Proof.
  unfold fourier_grid, image_2x2, k_vector, np_ifftshift. simpl.
  Rdecide. unfold map2. simpl. array_eq; field.
Qed.

Lemma evanescent_frequencies_are_zero_in_ctf_witness :
  exists ctf,
    get_contrast_transfer image_2x2 (Some [1]) None (Some 4) None (Some 4) None
    = ([], Ok (Some ctf))
    /\ (read_angles image_2x2 None 0 = None ->
        forall s d j i q,
          nth_error [1] s = Some d ->
          nth2 [[0; PI * PI]; [PI * PI; 2 * (PI * PI)]] j i = Some q ->
          wave_number image_2x2 (Some 4) None
          * wave_number image_2x2 (Some 4) None - q < 0 ->
          exists slice, nth_error (ctf_data ctf) s = Some slice
                        /\ nth2 slice j i = Some C0)
    /\ (forall angs,
        read_angles image_2x2 None 0 = Some angs ->
        forall sd sa d a j i q kxv kyv,
          nth_error [1] sd = Some d -> nth_error angs sa = Some a ->
          nth2 [[0; PI * PI]; [PI * PI; 2 * (PI * PI)]] j i = Some q ->
          nth_error [0; - PI] i = Some kxv -> nth_error [0; - PI] j = Some kyv ->
          wave_number image_2x2 (Some 4) None
          * wave_number image_2x2 (Some 4) None - q < 0
          \/ wave_number image_2x2 (Some 4) None
             * wave_number image_2x2 (Some 4) None
             - (kxv * cos a + kyv * sin a) * (kxv * cos a + kyv * sin a) < 0 ->
          exists slice,
            nth_error (ctf_data ctf) (sd * length angs + sa) = Some slice
            /\ nth2 slice j i = Some C0).
Proof.
  apply (evanescent_frequencies_are_zero_in_ctf R image_2x2 (Some [1]) None
           (Some 4) None (Some 4) None [1] 0%nat
           [[0; PI * PI]; [PI * PI; 2 * (PI * PI)]] [0; - PI] [0; - PI]).
  - reflexivity.
  - exact fourier_grid_2x2.
  - unfold read_parameter. simpl. lra.
  - unfold read_parameter. simpl. lra.
  - unfold calibratable. simpl. repeat split; lia.
Defined.

(** C3 as written does not hold: with a wavelength of 4 pixels and NA = 4
    the frequency (0, 1) of the 2 x 2 image has a negative radicand and lies
    inside the aperture, and the CTF there is 0, not the aperture value 1. *)
Lemma ctf_is_zero_inside_aperture_where_evanescent :
  exists ctf slice k2 kx ky q,
    get_contrast_transfer image_2x2 (Some [1]) None (Some 4) None (Some 4) None
    = ([], Ok (Some ctf))
    /\ fourier_grid image_2x2 = Ok (k2, kx, ky)
    /\ nth2 k2 0 1 = Some q
    /\ wave_number image_2x2 (Some 4) None
       * wave_number image_2x2 (Some 4) None - q < 0
    /\ aperture_value (aperture_k2 image_2x2 (Some 4) None (Some 4)) None q = 1
    /\ nth_error (ctf_data ctf) 0 = Some slice
    /\ nth2 slice 0 1 = Some C0
    /\ C0 <> RtoC 1.
Proof.
  pose proof PI_RGT_0 as Hpi.
  destruct (get_contrast_transfer_returns image_2x2 (Some [1]) None (Some 4)
              None (Some 4) None [1] 0%nat _ _ _ eq_refl fourier_grid_2x2)
    as [ctf [Hctf Hdata]];
    [unfold read_parameter; simpl; lra|unfold read_parameter; simpl; lra
    |unfold calibratable; simpl; repeat split; lia|].
  assert (Hneg : wave_number image_2x2 (Some 4) None
                 * wave_number image_2x2 (Some 4) None - PI * PI < 0).
  { unfold wave_number, read_parameter. simpl. nra. }
  exists ctf. eexists. exists [[0; PI * PI]; [PI * PI; 2 * (PI * PI)]].
  exists [0; - PI], [0; - PI], (PI * PI).
  split; [exact Hctf|]. split; [exact fourier_grid_2x2|].
  split; [reflexivity|]. split; [exact Hneg|]. split.
  { unfold aperture_value, aperture_k2, wave_number, read_parameter. simpl.
    destruct (Rle_dec _ _) as [|Hn]; [reflexivity|]. exfalso. apply Hn. nra. }
  rewrite Hdata. change (read_angles image_2x2 None 0) with (@None (list R)).
  split; [apply plain_slices_nth; reflexivity|]. split.
  - apply plain_slice_evanescent with (q := PI * PI); [reflexivity|exact Hneg].
  - unfold C0, RtoC. intros H. inversion H. lra.
Qed.

(** C6.  Without a [defoci] argument and without a navigation axis the
    function raises nothing: it prints the diagnostic and returns [None]. *)
Theorem no_defocus_prints_and_returns_none :
  forall (A : Type) (self : Image A) (angles : option (list R))
         (wlen nref NA fsmooth : option R),
    navigation_axes self = [] ->
    get_contrast_transfer self None angles wlen nref NA fsmooth
    = (["No defocus value given! Exiting..."%string], Ok None).
Proof.
  intros A self angles wlen nref NA fsmooth Hnav.
  unfold get_contrast_transfer, read_defoci. rewrite Hnav. reflexivity.
Qed.

Lemma no_defocus_prints_and_returns_none_witness :
  get_contrast_transfer image_2x2 None None None None None None
  = (["No defocus value given! Exiting..."%string], Ok None).
Proof.
  apply (no_defocus_prints_and_returns_none R image_2x2 None None None None
           None).
  reflexivity.
Defined.

(** ** Coordinate engine *)

Lemma center_coords_ok (coords : list R) (axis_offset : R) :
  coords <> [] -> exists c, center_coords coords axis_offset = Ok c.
Proof.
  intros H. unfold center_coords. destruct coords as [|x t]; [congruence|].
  simpl. eauto.
Qed.

Lemma axis_values_nonempty (ax : DataAxis) :
  (0 < size ax)%nat -> axis_values ax <> [].
Proof.
  unfold axis_values. destruct (size ax); [lia|]. intros _. simpl. congruence.
Qed.

(** C7, on the code.  With a [shifts] argument whose length is not 2 the
    function fails, but the exception is a [TypeError], not the
    [ValueError] of the claim: the operand of [raise] is a string. *)
Theorem wrong_number_of_shifts_raises_TypeError :
  forall (A : Type) (self : Image A) (shifted : bool) (shifts : list shift_val),
    (0 < size (x_axis self))%nat -> (0 < size (y_axis self))%nat ->
    length shifts <> 2%nat ->
    get_real_space self shifted (Some shifts) = Raise TypeError.
Proof.
  intros A self shifted shifts Hx Hy Hlen. unfold get_real_space.
  assert (Hraise : forall cx cy : list R,
             match shifts with
             | [s0; s1] =>
                 Ok (shift_coords cx (nth 0 (map scale (signal_axes self)) 0) s0,
                     shift_coords cy (nth 1 (map scale (signal_axes self)) 0) s1)
             | _ => Raise TypeError
             end = Raise TypeError).
  { intros cx cy. destruct shifts as [|a [|b [|c t]]]; simpl in *;
      try reflexivity. congruence. }
  destruct shifted.
  - destruct (center_coords_ok (axis_values (x_axis self))
                (nth 0 (map offset (signal_axes self)) 0)
                (axis_values_nonempty _ Hx)) as [cx Hcx].
    destruct (center_coords_ok (axis_values (y_axis self))
                (nth 1 (map offset (signal_axes self)) 0)
                (axis_values_nonempty _ Hy)) as [cy Hcy].
    rewrite Hcx. cbn [bind]. rewrite Hcy. cbn [bind]. apply Hraise.
  - cbn [bind]. apply Hraise.
Qed.

Lemma wrong_number_of_shifts_witness :
  get_real_space image_2x2 true (Some [ShiftInt 1]) = Raise TypeError.
Proof.
  apply (wrong_number_of_shifts_raises_TypeError R image_2x2 true [ShiftInt 1]).
  - simpl. lia.
  - simpl. lia.
  - simpl. lia.
Defined.

(** ** Padding manager *)

(** C1, on the code.  The round trip [remove_pad(set_pad(image, w,
    'constant', constant_values=0))] does not give the image back for the
    pad width [((1, 1),)]: the single pair pads both axes, only the [x] axis
    is cropped again, and three rows of one pixel come back. *)
Theorem remove_pad_keeps_rows_of_single_pair_pad :
  exists padded out,
    set_pad image_1x1 (Some (PadNested [[1; 1]%Z])) 0 = Ok padded
    /\ data padded = [[[0; 0; 0]; [0; 5; 0]; [0; 0; 0]]]
    /\ remove_pad padded = Ok out
    /\ data out = [[[0]; [5]; [0]]]
    /\ data out <> data image_1x1.
Proof.
  eexists. eexists.
  split; [reflexivity|]. split; [reflexivity|].
  split; [reflexivity|]. split; [reflexivity|].
  simpl. intros H. discriminate H.
Qed.

(** ** Fourier ring correlation *)

Lemma length_ravel_uniform {A : Type} (a : list (list A)) (n : nat) :
  Forall (fun row => length row = n) a -> length (ravel a) = (length a * n)%nat.
Proof.
  unfold ravel. induction 1 as [|row t Hrow _ IH]; simpl; [reflexivity|].
  rewrite length_app, IH, Hrow. reflexivity.
Qed.

Lemma length_ravel_radius_mesh (xx yy : list R) :
  length (ravel (radius_mesh xx yy)) = (length yy * length xx)%nat.
Proof.
  unfold radius_mesh. rewrite (length_ravel_uniform _ (length xx)).
  - rewrite length_map. reflexivity.
  - apply Forall_forall. intros row Hrow. apply in_map_iff in Hrow.
    destruct Hrow as [y [<- _]]. apply length_map.
Qed.

Lemma radius_mesh_nonempty (xx yy : list R) :
  xx <> [] -> yy <> [] -> ravel (radius_mesh xx yy) <> [].
Proof.
  intros Hx Hy E. apply (f_equal (@length R)) in E.
  rewrite length_ravel_radius_mesh in E. simpl in E.
  destruct xx, yy; try congruence. simpl in E. lia.
Qed.

Lemma axis_values_length (ax : DataAxis) : length (axis_values ax) = size ax.
Proof. unfold axis_values. rewrite length_map, length_seq. reflexivity. Qed.

(** The radial integral of a well formed real image is produced whenever
    the bin width is positive. *)
Lemma integrate_radial_unshifted_ok (self : Image R) (bin_size : bin_size_arg)
    (w : R) :
  well_formed self ->
  radius_bin_size self (radius_mesh (axis_values (x_axis self))
                                    (axis_values (y_axis self))) bin_size
  = Ok w ->
  0 < w ->
  exists lo mask s,
    np_min (ravel (radius_mesh (axis_values (x_axis self))
                               (axis_values (y_axis self)))) = Ok lo
    /\ mask = map (map (right_edge lo w))
                  (radius_mesh (axis_values (x_axis self))
                               (axis_values (y_axis self)))
    /\ get_digitized_radius self bin_size false None
       = Ok (signal_signal self mask)
    /\ integrate_binary self (signal_signal self mask) true = Ok s
    /\ integrate_radial self bin_size false None true = Ok s
    /\ mapM (fun plane => integrate_binary_real plane mask true) (data self)
       = Ok (sig_data s).
Proof.
  intros [Hx [Hy Hdata]] Hw Hpos.
  set (xx := axis_values (x_axis self)) in *.
  set (yy := axis_values (y_axis self)) in *.
  assert (Hrs : get_real_space self false None = Ok (xx, yy)) by reflexivity.
  assert (Hne : ravel (radius_mesh xx yy) <> []).
  { apply radius_mesh_nonempty; apply axis_values_nonempty; assumption. }
  destruct (np_min_max_ok _ Hne) as [lo [hi [Hlo Hhi]]].
  pose proof (get_digitized_radius_positive self bin_size false None xx yy w lo
                Hrs Hw Hpos Hlo) as Hdig.
  set (mask := map (map (right_edge lo w)) (radius_mesh xx yy)) in *.
  assert (Hshape : forall plane, In plane (data self) ->
                     length (ravel plane) = length (ravel mask)).
  { intros plane Hin. rewrite Forall_forall in Hdata.
    destruct (Hdata plane Hin) as [Hrows Hcols].
    rewrite (length_ravel_uniform _ _ Hcols), Hrows.
    unfold mask. rewrite length_ravel_map, length_ravel_radius_mesh.
    unfold xx, yy. rewrite !axis_values_length. reflexivity. }
  assert (Hrows : exists rows,
             mapM (fun pm => integrate_binary_real (fst pm) (snd pm) true)
                  (combine (data self) (repeat mask (length (data self))))
             = Ok rows
             /\ mapM (fun plane => integrate_binary_real plane mask true)
                     (data self) = Ok rows).
  { clear - Hshape. induction (data self) as [|p t IH]; simpl.
    - exists []. auto.
    - destruct (integrate_binary_real_length p mask true) as [r [Hr _]];
        [apply Hshape; left; reflexivity|].
      destruct IH as [rows [H1 H2]]; [intros; apply Hshape; right; assumption|].
      rewrite Hr. simpl. rewrite H1, H2. simpl. eauto. }
  destruct Hrows as [rows [Hrows1 Hrows2]].
  assert (Hib : exists s, integrate_binary self (signal_signal self mask) true
                          = Ok s /\ sig_data s = rows).
  { unfold integrate_binary, mask_planes. simpl.
    change (@integrator R Dtype_real) with integrate_binary_real.
    rewrite Hrows1. simpl.
    match goal with |- context [if ?c then _ else _] => destruct c end;
      eexists; split; reflexivity. }
  destruct Hib as [s [Hs Hsd]].
  exists lo, mask, s. split; [exact Hlo|]. split; [reflexivity|].
  split; [exact Hdig|]. split; [exact Hs|]. split.
  - unfold integrate_radial. rewrite Hdig. simpl. exact Hs.
  - rewrite Hsd. exact Hrows2.
Qed.

Lemma Rsum_nonneg (l : list R) : Forall (fun x => 0 <= x) l -> 0 <= Rsum l.
Proof.
  induction 1 as [|x t Hx _ IH]; simpl; lra.
Qed.

Lemma np_bincount_nonneg (x : list nat) (w out : list R) :
  Forall (fun v => 0 <= v) w -> np_bincount x w = Ok out ->
  Forall (fun v => 0 <= v) out.
Proof.
  intros Hw. unfold np_bincount. destruct (Nat.eqb _ _); [|discriminate].
  intros H. inversion H; subst. clear H.
  apply Forall_forall. intros v Hv. apply in_map_iff in Hv.
  destruct Hv as [k [<- _]]. apply Rsum_nonneg.
  apply Forall_forall. intros y Hy. apply in_map_iff in Hy.
  destruct Hy as [[i wi] [<- Hin]]. apply filter_In in Hin.
  destruct Hin as [Hin _]. apply in_combine_r in Hin.
  rewrite Forall_forall in Hw. simpl. auto.
Qed.

Lemma integrate_binary_real_nonneg (sdata bin_mask : list (list R))
    (normalize : bool) (out : list R) :
  Forall (fun v => 0 <= v) (ravel sdata) ->
  integrate_binary_real sdata bin_mask normalize = Ok out ->
  Forall (fun v => 0 <= v) out.
Proof.
  intros Hd. unfold integrate_binary_real, np_unique_inverse_counts.
  destruct (np_bincount _ (ravel sdata)) as [idata|e] eqn:Hb; simpl;
    [|discriminate].
  pose proof (np_bincount_nonneg _ _ _ Hd Hb) as Hnn.
  destruct normalize; intros H; inversion H; subst; [|exact Hnn].
  unfold map2. apply Forall_forall. intros v Hv. apply in_map_iff in Hv.
  destruct Hv as [[s c] [<- Hin]]. simpl. apply in_combine_l in Hin.
  rewrite Forall_forall in Hnn. specialize (Hnn s Hin).
  destruct c as [|c].
  - simpl. unfold Rdiv. rewrite Rinv_0. lra.
  - apply Rmult_le_pos; [exact Hnn|].
    apply Rlt_le, Rinv_0_lt_compat, lt_0_INR. lia.
Qed.

Lemma mapM_Forall {A B : Type} (f : A -> result B) (P : B -> Prop)
    (l : list A) (bs : list B) :
  (forall a b, In a l -> f a = Ok b -> P b) ->
  mapM f l = Ok bs -> Forall P bs.
Proof.
  revert bs. induction l as [|a t IH]; simpl; intros bs H Hm.
  - inversion Hm. constructor.
  - destruct (f a) as [b|e] eqn:Hb; simpl in Hm; [|discriminate].
    destruct (mapM f t) as [bt|e] eqn:Ht; simpl in Hm; [|discriminate].
    inversion Hm; subst. constructor; eauto.
Qed.

Lemma map2_diag {A B : Type} (f : A -> A -> B) (l : list A) :
  map2 f l l = map (fun x => f x x) l.
Proof.
  unfold map2. induction l as [|a t IH]; simpl; [reflexivity|].
  f_equal. exact IH.
Qed.

Lemma map2_combine_diag {A B : Type} (h : A -> A -> A -> B) (l : list A) :
  map2 (fun x a => h x (fst a) (snd a)) l (combine l l)
  = map (fun x => h x x x) l.
Proof.
  unfold map2. induction l as [|a t IH]; simpl; [reflexivity|].
  f_equal. exact IH.
Qed.

Lemma cross_correlation_diag (z : complex) :
  Re (Cmul z (Cconj z)) = Cabs z * Cabs z.
Proof.
  unfold Cabs. rewrite sqrt_sqrt by nra. destruct z as [a b]. simpl. ring.
Qed.

Lemma frc_value_diag (a : R) :
  0 <= a -> frc_value a a a = if Req_dec_T a 0 then NaN else Finite 1.
Proof.
  intros Ha. unfold frc_value, np_sqrt, np_divide.
  destruct (Rlt_dec (a * a) 0) as [Hlt|_]; [nra|].
  rewrite sqrt_square by exact Ha.
  destruct (Req_dec_T a 0); [reflexivity|]. f_equal. field. assumption.
Qed.

Lemma map_ext_Forall {A B : Type} (f g : A -> B) (l : list A) :
  Forall (fun x => f x = g x) l -> map f l = map g l.
Proof.
  induction 1 as [|x t Hx _ IH]; simpl; [reflexivity|]. rewrite Hx, IH.
  reflexivity.
Qed.

Lemma autocorrelation_nonneg (ft : Image complex) (plane : list (list R)) :
  In plane (data (autocorrelation ft)) ->
  Forall (fun v => 0 <= v) (ravel plane).
Proof.
  unfold autocorrelation, with_data. simpl. intros Hin.
  apply in_map_iff in Hin. destruct Hin as [p [<- _]].
  apply Forall_forall. intros v Hv. unfold ravel in Hv.
  apply in_concat in Hv. destruct Hv as [row [Hrow Hv]].
  apply in_map_iff in Hrow. destruct Hrow as [r [<- _]].
  apply in_map_iff in Hv. destruct Hv as [z [<- _]].
  pose proof (sqrt_pos (Re z * Re z + Im z * Im z)). unfold Cabs. nra.
Qed.

Lemma well_formed_autocorrelation (ft : Image complex) :
  well_formed ft -> well_formed (autocorrelation ft).
Proof.
  intros [Hx [Hy Hd]]. unfold well_formed, autocorrelation, with_data. simpl.
  split; [exact Hx|]. split; [exact Hy|].
  rewrite Forall_forall in *. intros plane Hin. apply in_map_iff in Hin.
  destruct Hin as [p [<- Hp]]. destruct (Hd p Hp) as [Hrows Hcols].
  rewrite length_map. split; [exact Hrows|].
  rewrite Forall_forall in *. intros row Hrow. apply in_map_iff in Hrow.
  destruct Hrow as [r [<- Hr]]. rewrite length_map. auto.
Qed.

(** The correlation of an image with itself, unfolded: the three radial
    integrals are one and the same. *)
Lemma frc_self_unfold (fft : Image R -> Image complex) (image : Image R)
    (bin_size : bin_size_arg) :
  run_fourier_ring_correlation fft (mkValidation image image) bin_size =
  (ac <- integrate_radial (autocorrelation (fft image)) bin_size false None
                          true ;;
   Ok (mkSignal1D (map (map (fun a => frc_value a a a)) (sig_data ac))
                  (sig_axis ac) (sig_offset ac) (sig_scale ac)
                  (units (y_axis (fft image))) "|q| = |1/r|")).
Proof.
  assert (Hxc : with_data (fft image)
                  (zip_planes (fun o e => Re (Cmul o (Cconj e)))
                              (data (fft image)) (data (fft image)))
                = autocorrelation (fft image)).
  { unfold autocorrelation. f_equal. unfold zip_planes.
    rewrite map2_diag. apply map_ext. intros plane.
    rewrite map2_diag. apply map_ext. intros row.
    rewrite map2_diag. apply map_ext. intros z.
    apply cross_correlation_diag. }
  unfold run_fourier_ring_correlation. simpl obs. simpl exp.
  rewrite Hxc. fold (autocorrelation (fft image)).
  destruct (integrate_radial (autocorrelation (fft image)) bin_size false
                             None true) as [ac|e]; [|reflexivity].
  cbn [bind]. do 2 f_equal.
  rewrite (map2_combine_diag
             (fun xrow a1 a2 =>
                map2 (fun x a => frc_value x (fst a) (snd a)) xrow
                     (combine a1 a2))).
  apply map_ext. intros row. apply (map2_combine_diag frc_value).
Qed.

(** The bins of the autocorrelation are not negative. *)
Lemma autocorrelation_rows_nonneg (ft : Image complex)
    (mask : list (list R)) (rows : list (list R)) :
  mapM (fun plane => integrate_binary_real plane mask true)
       (data (autocorrelation ft)) = Ok rows ->
  Forall (Forall (fun a => 0 <= a)) rows.
Proof.
  intros Hrows. apply (mapM_Forall _ _ _ _) with (2 := Hrows).
  intros plane row Hin Hrow.
  apply (integrate_binary_real_nonneg _ _ _ _
           (autocorrelation_nonneg _ _ Hin) Hrow).
Qed.

(** C5.  For an image compared with itself, on a well formed transform and
    with a positive bin width, the Fourier ring correlation is returned and
    equals 1 at every bin whose autocorrelation is not zero (and is NaN at
    the others). *)
Theorem fourier_ring_correlation_of_image_with_itself :
  forall (fft : Image R -> Image complex) (image : Image R)
         (bin_size : bin_size_arg) (w : R),
    well_formed (fft image) ->
    radius_bin_size (autocorrelation (fft image))
      (radius_mesh (axis_values (x_axis (fft image)))
                   (axis_values (y_axis (fft image)))) bin_size = Ok w ->
    0 < w ->
    exists ac frc,
      integrate_radial (autocorrelation (fft image)) bin_size false None true
      = Ok ac
      /\ run_fourier_ring_correlation fft (mkValidation image image) bin_size
         = Ok frc
      /\ sig_data frc =
         map (map (fun a => if Req_dec_T a 0 then NaN else Finite 1))
             (sig_data ac).
Proof.
  intros fft image bin_size w Hwf Hw Hpos.
  destruct (integrate_radial_unshifted_ok (autocorrelation (fft image))
              bin_size w (well_formed_autocorrelation _ Hwf) Hw Hpos)
    as [lo [mask [ac [_ [_ [_ [_ [Hir Hrows]]]]]]]].
  exists ac. eexists. split; [exact Hir|].
  rewrite frc_self_unfold, Hir. cbn [bind]. split; [reflexivity|].
  cbn [sig_data]. apply map_ext_Forall.
  apply Forall_impl with (2 := autocorrelation_rows_nonneg _ _ _ Hrows).
  intros row Hnn. apply map_ext_Forall.
  apply Forall_impl with (2 := Hnn). intros a Ha. apply frc_value_diag, Ha.
Qed.

Lemma default_bin_size_unit_positive :
  0 < default_bin_size (autocorrelation (fft_single_pixel image_1x1)).
Proof.
  unfold default_bin_size. simpl. apply sqrt_lt_R0. lra.
Qed.

Lemma fourier_ring_correlation_witness :
  exists ac frc,
    integrate_radial (autocorrelation (fft_single_pixel image_1x1)) BinNone
                     false None true = Ok ac
    /\ run_fourier_ring_correlation fft_single_pixel
         (mkValidation image_1x1 image_1x1) BinNone = Ok frc
    /\ sig_data frc =
       map (map (fun a => if Req_dec_T a 0 then NaN else Finite 1))
           (sig_data ac).
Proof.
  apply (fourier_ring_correlation_of_image_with_itself fft_single_pixel
           image_1x1 BinNone
           (default_bin_size (autocorrelation (fft_single_pixel image_1x1)))).
  - unfold well_formed. simpl. repeat constructor.
  - reflexivity.
  - exact default_bin_size_unit_positive.
Defined.

(** On the single pixel image the curve has one bin, and its value is 1. *)
Lemma fourier_ring_correlation_single_pixel :
  exists frc,
    run_fourier_ring_correlation fft_single_pixel
      (mkValidation image_1x1 image_1x1) BinNone = Ok frc
    /\ sig_data frc = [[Finite 1]].
Proof.
  pose proof default_bin_size_unit_positive as Hpos.
  set (w := default_bin_size (autocorrelation (fft_single_pixel image_1x1)))
    in *.
  assert (Hwf : well_formed (autocorrelation (fft_single_pixel image_1x1))).
  { unfold well_formed. simpl. repeat constructor. }
  destruct (integrate_radial_unshifted_ok _ BinNone w Hwf eq_refl Hpos)
    as [lo [mask [ac [_ [Hmask [_ [_ [Hir Hrows]]]]]]]].
  eexists. rewrite frc_self_unfold, Hir. cbn [bind].
  split; [reflexivity|]. cbn [sig_data].
  simpl in Hmask. subst mask. simpl in Hrows.
  unfold integrate_binary_real, np_unique_inverse_counts in Hrows.
  simpl in Hrows. unfold unique_index, count_of in Hrows. simpl in Hrows.
  rewrite (proj2 (Rltb_false _ _)) in Hrows by lra.
  rewrite (proj2 (Reqb_true _ _)) in Hrows by reflexivity.
  simpl in Hrows. unfold map2 in Hrows. simpl in Hrows.
  inversion Hrows as [E]. simpl.
  assert (Ha : (Cabs (RtoC 5) * Cabs (RtoC 5) + 0) / 1 = 25).
  { unfold Cabs. simpl. rewrite sqrt_sqrt by lra. lra. }
  rewrite Ha. rewrite frc_value_diag by lra.
  destruct (Req_dec_T 25 0); [lra|reflexivity].
Qed.

(** Two more inputs on which the round trip fails: a pad on one side only is
    not cropped at all, and after a pad of the [x] axis alone the offset of
    that axis is left where [isig] moved it. *)
Lemma remove_pad_keeps_one_sided_pad :
  exists padded out,
    set_pad image_1x1 (Some (PadNested [[1; 0]; [1; 0]]%Z)) 0 = Ok padded
    /\ data padded = [[[0; 0]; [0; 5]]]
    /\ remove_pad padded = Ok out
    /\ data out = [[[0; 0]; [0; 5]]].
Proof.
  eexists. eexists. repeat split; reflexivity.
Qed.

Lemma remove_pad_forgets_offset_of_first_axis :
  exists padded out,
    set_pad image_1x1 (Some (PadNested [[1; 1]; [0; 0]]%Z)) 0 = Ok padded
    /\ data padded = [[[0; 5; 0]]]
    /\ remove_pad padded = Ok out
    /\ data out = data image_1x1
    /\ offset (x_axis out) = 1
    /\ offset (x_axis image_1x1) = 0.
Proof.
  eexists. eexists.
  split; [reflexivity|]. split; [reflexivity|].
  split; [reflexivity|]. split; [reflexivity|].
  split; [simpl; lra|reflexivity].
Qed.

(** ** The round trip where it holds *)

Lemma mapM_total {A B : Type} (f : A -> B) (l : list A) :
  mapM (fun a => Ok (f a)) l = Ok (map f l).
Proof.
  induction l as [|a t IH]; simpl; [reflexivity|]. rewrite IH. reflexivity.
Qed.

Lemma py_slice_middle {A : Type} (pre mid post : list A) :
  py_slice (length pre) (length pre + length mid) (pre ++ mid ++ post) = mid.
Proof.
  unfold py_slice. rewrite skipn_app, skipn_all, Nat.sub_diag. simpl.
  replace (length pre + length mid - length pre)%nat with (length mid) by lia.
  rewrite firstn_app, firstn_all, Nat.sub_diag. simpl. apply app_nil_r.
Qed.

Lemma crop_pad_constant {A : Type} (c : A) (b0 a0 b1 a1 : nat)
    (plane : list (list A)) (Nx : nat) :
  Forall (fun row => length row = Nx) plane ->
  map (py_slice b1 (b1 + Nx))
      (py_slice b0 (b0 + length plane) (pad_constant c b0 a0 b1 a1 plane))
  = plane.
Proof.
  intros Hrows. unfold pad_constant.
  set (width := (b1 + length (hd [] plane) + a1)%nat).
  assert (E : py_slice b0 (b0 + length plane)
                (repeat (repeat c width) b0
                 ++ map (fun row => repeat c b1 ++ row ++ repeat c a1) plane
                 ++ repeat (repeat c width) a0)
              = map (fun row => repeat c b1 ++ row ++ repeat c a1) plane).
  { pose proof (py_slice_middle (repeat (repeat c width) b0)
                  (map (fun row => repeat c b1 ++ row ++ repeat c a1) plane)
                  (repeat (repeat c width) a0)) as H.
    rewrite repeat_length, length_map in H. exact H. }
  rewrite E. rewrite map_map. clear E width.
  induction Hrows as [|row t Hrow _ IH]; simpl; [reflexivity|].
  rewrite IH. f_equal.
  pose proof (py_slice_middle (repeat c b1) row (repeat c a1)) as H.
  rewrite repeat_length, Hrow in H. exact H.
Qed.

Lemma pad_constant_shape {A : Type} (c : A) (b0 a0 b1 a1 : nat)
    (plane : list (list A)) (Nx : nat) :
  (0 < b0)%nat -> (0 < length plane)%nat ->
  Forall (fun row => length row = Nx) plane ->
  length (pad_constant c b0 a0 b1 a1 plane) = (b0 + length plane + a0)%nat
  /\ length (hd [] (pad_constant c b0 a0 b1 a1 plane)) = (b1 + Nx + a1)%nat.
Proof.
  intros Hb Hp Hrows. unfold pad_constant.
  rewrite !length_app, !repeat_length, length_map. split; [lia|].
  destruct b0 as [|b0]; [lia|]. simpl. rewrite repeat_length.
  destruct plane as [|row t]; simpl in *; [lia|].
  inversion Hrows; subst. lia.
Qed.

Lemma np_argsort_signal_indices (d : nat) : np_argsort [S d; d] = [1; 0]%nat.
Proof.
  unfold np_argsort. cbn [length seq combine fold_left insert_by_key fst].
  rewrite (proj2 (Nat.leb_gt (S d) d)) by lia. reflexivity.
Qed.

Lemma set_pad_two_rows {A : Type} (self : Image A) (c : A) (bx ax by_ ay : Z) :
  (0 <= bx)%Z -> (0 <= ax)%Z -> (0 <= by_)%Z -> (0 <= ay)%Z ->
  set_pad self (Some (PadNested [[bx; ax]; [by_; ay]])) c
  = Ok (let out :=
          get_dimensions_from_data
            (mkImage (map (pad_constant c (Z.to_nat by_) (Z.to_nat ay)
                                          (Z.to_nat bx) (Z.to_nat ax))
                          (data self))
                     (navigation_axes self) (x_axis self) (y_axis self)
                     (metadata self)) in
        mkImage (data out) (navigation_axes out) (x_axis out) (y_axis out)
                (set_pad_width (metadata out) (Some [[bx; ax]; [by_; ay]]))).
Proof.
  intros Hbx Hax Hby Hay. unfold set_pad. cbn [pad_array forallb length Nat.eqb andb bind].
  cbn [Nat.ltb Nat.leb]. 
  cbn [pad_items map signal_indices_in_array combine set_pad_loop bind app].
  rewrite np_argsort_signal_indices. cbn [take_rows map nth].
  unfold map_signal, _pad, np_pad, broadcast_pad_width.
  cbn [forallb].
  rewrite !(proj2 (Z.leb_le _ _)) by assumption. cbn [andb negb bind fst snd].
  rewrite mapM_total. cbn [bind]. reflexivity.
Qed.

Lemma slices_before (ax : DataAxis) (b : Z) :
  (0 <= b)%Z -> _get_array_slices ax b = Ok (Z.to_nat b, S (Z.to_nat b)).
Proof.
  intros Hb. unfold _get_array_slices, _get_positive_index.
  destruct (Z.ltb_spec b 0); [lia|]. reflexivity.
Qed.

Lemma slices_after (ax : DataAxis) (a : Z) (n : nat) :
  (0 < a)%Z -> size ax = (n + Z.to_nat a)%nat ->
  _get_array_slices ax (- a) = Ok (n, S n).
Proof.
  intros Ha Hsize. unfold _get_array_slices, _get_positive_index.
  destruct (Z.ltb_spec (- a) 0); [|lia].
  destruct (Z.ltb_spec (Z.of_nat (size ax) + - a) 0); [lia|].
  replace (Z.to_nat (Z.of_nat (size ax) + - a)) with n by lia. reflexivity.
Qed.

Lemma _slice_me_some (ax : DataAxis) (start stop : nat) :
  (start < size ax)%nat ->
  _slice_me ax (Some (start, stop))
  = Ok (set_offset ax (offset ax + INR start * scale ax)).
Proof.
  intros H. unfold _slice_me. destruct (Nat.ltb_spec start (size ax)); [|lia].
  reflexivity.
Qed.

Lemma image_eq {A : Type} (a b : Image A) :
  data a = data b -> navigation_axes a = navigation_axes b ->
  x_axis a = x_axis b -> y_axis a = y_axis b -> metadata a = metadata b ->
  a = b.
Proof.
  destruct a, b. simpl. intros; subst. reflexivity.
Qed.

Lemma axis_eq (a b : DataAxis) :
  size a = size b -> scale a = scale b -> offset a = offset b ->
  units a = units b -> a = b.
Proof.
  destruct a, b. simpl. intros; subst. reflexivity.
Qed.

Lemma set_pad_two_ints {A : Type} (self : Image A) (c : A) (vx vy : Z) :
  (0 <= vx)%Z -> (0 <= vy)%Z ->
  set_pad self (Some (PadFlat [PadInt vx; PadInt vy])) c
  = Ok (let out :=
          get_dimensions_from_data
            (mkImage (map (pad_constant c (Z.to_nat vy) (Z.to_nat vy)
                                          (Z.to_nat vx) (Z.to_nat vx))
                          (data self))
                     (navigation_axes self) (x_axis self) (y_axis self)
                     (metadata self)) in
        mkImage (data out) (navigation_axes out) (x_axis out) (y_axis out)
                (set_pad_width (metadata out) (Some [[vx]; [vy]]))).
Proof.
  intros Hvx Hvy. unfold set_pad.
  cbn [pad_array map pad_entry_int length Nat.ltb Nat.leb bind].
  cbn [pad_items map signal_indices_in_array combine set_pad_loop bind app].
  rewrite np_argsort_signal_indices. cbn [take_rows map nth].
  unfold map_signal, _pad, np_pad, broadcast_pad_width.
  cbn [forallb].
  rewrite !(proj2 (Z.leb_le _ _)) by assumption. cbn [andb negb bind fst snd].
  rewrite mapM_total. cbn [bind]. reflexivity.
Qed.

Lemma remove_pad_loop_two_axes (rx ry : list Z) (bx ax by_ ay : Z)
    (x' y' : DataAxis) (Nx Ny : nat) :
  row_pair rx = Some (bx, ax) -> row_pair ry = Some (by_, ay) ->
  (0 < bx)%Z -> (0 < ax)%Z -> (0 < by_)%Z -> (0 < ay)%Z ->
  size x' = (Z.to_nat bx + Nx + Z.to_nat ax)%nat ->
  size y' = (Z.to_nat by_ + Ny + Z.to_nat ay)%nat ->
  remove_pad_loop [(rx, x'); (ry, y')] 0 [None; None] []
  = Ok ([Some (Z.to_nat bx, (Z.to_nat bx + Nx)%nat);
         Some (Z.to_nat by_, (Z.to_nat by_ + Ny)%nat)],
        [INR (Z.to_nat bx) * scale x'; INR (Z.to_nat by_) * scale y']).
Proof.
  intros Hrx Hry Hbx Hax Hby Hay Hsx Hsy.
  assert (Hnz : forall z, (0 < z)%Z -> negb (z =? 0)%Z = true).
  { intros z Hz. destruct (Z.eqb_spec z 0); [lia|reflexivity]. }
  assert (Hfirst :
            (' a <- _get_array_slices x' bx ;;
             ' b <- _get_array_slices x' (- ax) ;;
             remove_pad_loop [(ry, y')] 1
               (list_set [None; None] 0 (Some (fst a, (snd b - 1)%nat)))
               ([] ++ [INR (fst a) * scale x']))
            = Ok ([Some (Z.to_nat bx, (Z.to_nat bx + Nx)%nat);
                   Some (Z.to_nat by_, (Z.to_nat by_ + Ny)%nat)],
                  [INR (Z.to_nat bx) * scale x';
                   INR (Z.to_nat by_) * scale y'])).
  { rewrite (slices_before _ bx) by lia.
    rewrite (slices_after _ ax (Z.to_nat bx + Nx)) by lia.
    cbn [bind fst snd list_set firstn skipn app remove_pad_loop].
    replace (S (Z.to_nat bx + Nx) - 1)%nat with (Z.to_nat bx + Nx)%nat by lia.
    assert (Hsecond :
              (' a <- _get_array_slices y' by_ ;;
               ' b <- _get_array_slices y' (- ay) ;;
               remove_pad_loop [] 2
                 (list_set [Some (Z.to_nat bx, (Z.to_nat bx + Nx)%nat); None]
                           1 (Some (fst a, (snd b - 1)%nat)))
                 ([INR (Z.to_nat bx) * scale x'] ++ [INR (fst a) * scale y']))
              = Ok ([Some (Z.to_nat bx, (Z.to_nat bx + Nx)%nat);
                     Some (Z.to_nat by_, (Z.to_nat by_ + Ny)%nat)],
                    [INR (Z.to_nat bx) * scale x';
                     INR (Z.to_nat by_) * scale y'])).
    { rewrite (slices_before _ by_) by lia.
      rewrite (slices_after _ ay (Z.to_nat by_ + Ny)) by lia.
      cbn [bind fst snd list_set firstn skipn app remove_pad_loop].
      replace (S (Z.to_nat by_ + Ny) - 1)%nat
        with (Z.to_nat by_ + Ny)%nat by lia.
      reflexivity. }
    destruct ry as [|r1 [|r2 [|r3 t]]]; simpl in Hry; inversion Hry; subst;
      cbn [bind]; rewrite !Hnz by assumption; cbn [andb]; exact Hsecond. }
  cbn [remove_pad_loop].
  destruct rx as [|r1 [|r2 [|r3 t]]]; simpl in Hrx; inversion Hrx; subst;
    cbn [bind]; rewrite !Hnz by assumption; cbn [andb]; exact Hfirst.
Qed.

Lemma remove_pad_padded_image {A : Type} (self : Image A) (c : A)
    (rx ry : list Z) (bx ax by_ ay : Z) :
  well_formed self -> data self <> [] ->
  pad_width (metadata self) = None ->
  row_pair rx = Some (bx, ax) -> row_pair ry = Some (by_, ay) ->
  (0 < bx)%Z -> (0 < ax)%Z -> (0 < by_)%Z -> (0 < ay)%Z ->
  remove_pad (padded_image self c (Z.to_nat bx) (Z.to_nat ax)
                           (Z.to_nat by_) (Z.to_nat ay) [rx; ry])
  = Ok self.
Proof.
  intros [Hx [Hy Hwf]] Hne Hmeta Hrx Hry Hbx Hax Hby Hay.
  unfold padded_image.
  destruct (data self) as [|p0 rest] eqn:Hd; [congruence|]. clear Hne.
  set (nbx := Z.to_nat bx). set (nax := Z.to_nat ax).
  set (nby := Z.to_nat by_). set (nay := Z.to_nat ay).
  set (Nx := size (x_axis self)) in *. set (Ny := size (y_axis self)) in *.
  assert (Hp0 : length p0 = Ny /\ Forall (fun row => length row = Nx) p0).
  { inversion Hwf; subst. assumption. }
  destruct Hp0 as [Hp0 Hrows0].
  destruct (pad_constant_shape c nby nay nbx nax p0 Nx) as [Hlen Hhd];
    [lia|lia|assumption|].
  unfold get_dimensions_from_data. cbn [data map].
  cbn zeta. cbn [data navigation_axes x_axis y_axis metadata].
  rewrite Hlen, Hhd, Hp0.
  unfold remove_pad. cbn [metadata set_pad_width pad_width].
  cbn [length Nat.ltb Nat.leb signal_axes x_axis y_axis combine].
  rewrite (remove_pad_loop_two_axes rx ry bx ax by_ ay _ _ Nx Ny)
    by (try assumption; reflexivity).
  cbn [bind]. fold nbx nby.
  unfold isig. cbn [nth x_axis y_axis].
  rewrite !_slice_me_some by (simpl; lia).
  cbn [bind data navigation_axes metadata].
  assert (Hdata : map (fun plane => map (apply_slicer (Some (nbx, (nbx + Nx)%nat)))
                          (apply_slicer (Some (nby, (nby + Ny)%nat)) plane))
                      (map (pad_constant c nby nay nbx nax) (p0 :: rest))
                  = p0 :: rest).
  { rewrite map_map. rewrite <- (map_id (p0 :: rest)) at 2.
    apply map_ext_in. intros plane Hin. rewrite Forall_forall in Hwf.
    destruct (Hwf plane Hin) as [Hrows Hcols]. cbn [apply_slicer].
    fold Ny in Hrows. rewrite <- Hrows. apply crop_pad_constant. exact Hcols. }
  change (pad_constant c nby nay nbx nax p0
          :: map (pad_constant c nby nay nbx nax) rest)
    with (map (pad_constant c nby nay nbx nax) (p0 :: rest)).
  rewrite Hdata. unfold get_dimensions_from_data.
  cbn [data].
  cbn [reset_offsets bind data navigation_axes x_axis y_axis metadata app].
  f_equal. apply image_eq; cbn [data navigation_axes x_axis y_axis metadata].
  - symmetry. exact Hd.
  - reflexivity.
  - apply axis_eq; simpl.
    + destruct p0 as [|row t]; simpl in *; [lia|].
      inversion Hrows0 as [|? ? H1 H2]. exact H1.
    + reflexivity.
    + ring.
    + reflexivity.
  - apply axis_eq; simpl; [exact Hp0|reflexivity|ring|reflexivity].
  - destruct (metadata self) as [pw wl ri na fs]. simpl in *. subst pw.
    reflexivity.
Qed.

(** X1.  The round trip does hold when both axes get a width of their own and
    every side is padded: the image comes back as it was, array, axes and
    metadata.  The widths are one (before, after) pair per axis, or one
    integer per axis. *)
Theorem remove_pad_set_pad_two_sided :
  forall (A : Type) (self : Image A) (c : A) (bx ax by_ ay : Z),
    well_formed self -> data self <> [] ->
    pad_width (metadata self) = None ->
    (0 < bx)%Z -> (0 < ax)%Z -> (0 < by_)%Z -> (0 < ay)%Z ->
    (exists padded,
        set_pad self (Some (PadNested [[bx; ax]; [by_; ay]])) c = Ok padded
        /\ remove_pad padded = Ok self)
    /\ (exists padded,
        set_pad self (Some (PadFlat [PadInt bx; PadInt by_])) c = Ok padded
        /\ remove_pad padded = Ok self).
Proof.
  intros A self c bx ax by_ ay Hwf Hne Hmeta Hbx Hax Hby Hay. split.
  - rewrite set_pad_two_rows by lia. eexists. split; [reflexivity|].
    apply (remove_pad_padded_image self c [bx; ax] [by_; ay]);
      auto; reflexivity.
  - rewrite set_pad_two_ints by lia. eexists. split; [reflexivity|].
    apply (remove_pad_padded_image self c [bx] [by_] bx bx by_ by_);
      auto; reflexivity.
Qed.

Lemma remove_pad_set_pad_two_sided_witness :
  (exists padded,
      set_pad image_2x2 (Some (PadNested [[4; 4]; [4; 4]]%Z)) 0 = Ok padded
      /\ remove_pad padded = Ok image_2x2)
  /\ (exists padded,
      set_pad image_2x2 (Some (PadFlat [PadInt 4; PadInt 4])) 0 = Ok padded
      /\ remove_pad padded = Ok image_2x2).
Proof.
  apply (remove_pad_set_pad_two_sided R image_2x2 0 4 4 4 4).
  - unfold well_formed. simpl. repeat constructor.
  - discriminate.
  - reflexivity.
  - reflexivity.
  - reflexivity.
  - reflexivity.
  - reflexivity.
Defined.

Lemma zero_defocus_slice (wnum k2Aperture : R) (k2 : list (list R)) :
  k2Aperture <= wnum * wnum ->
  map (map nan_to_num)
      (ctf_slice (chi_plain wnum k2)
                 (map (map (aperture_value k2Aperture None)) k2) 0)
  = map (map (fun q => RtoC (aperture_value k2Aperture None q))) k2.
Proof.
  intros Hap. unfold ctf_slice, chi_plain.
  rewrite map2_map_both, map2_diag, map_map. apply map_ext. intros row.
  rewrite map2_map_both, map2_diag, map_map. apply map_ext. intros q.
  unfold np_sqrt. destruct (Rlt_dec (wnum * wnum - q) 0) as [Hneg|Hpos].
  - simpl. unfold aperture_value.
    destruct (Rle_dec q k2Aperture); [lra|reflexivity].
  - simpl. unfold Cmul, Cexp_i, RtoC. simpl.
    rewrite Rmult_0_r, cos_0, sin_0. f_equal; ring.
Qed.

(** X2.  On an image whose signal axes have two pixels or more, with a
    sharp aperture that does not reach beyond the wave number ([NA <= n] in
    size), no astigmatism and the single defocus 0, the CTF is returned and
    is the aperture itself, a real mask of zeros and ones. *)
Theorem ctf_at_zero_defocus_is_the_aperture :
  forall (A : Type) (self : Image A) (wlen nref NA : option R)
         (k2 : list (list R)) (kx ky : list R),
    navigation_axes self = [] ->
    f_smooth_aperture (metadata self) = None ->
    (2 <= size (x_axis self))%nat -> (2 <= size (y_axis self))%nat ->
    fourier_grid self = Ok (k2, kx, ky) ->
    read_parameter wlen (wave_length (metadata self)) <> 0 ->
    read_parameter nref (refractive_index (metadata self)) <> 0 ->
    aperture_k2 self wlen nref NA
      <= wave_number self wlen nref * wave_number self wlen nref ->
    exists ctf,
      get_contrast_transfer self (Some [0]) None wlen nref NA None
      = ([], Ok (Some ctf))
      /\ ctf_data ctf =
         [map (map (fun q =>
                      RtoC (aperture_value (aperture_k2 self wlen nref NA)
                                           None q))) k2].
Proof.
  intros A self wlen nref NA k2 kx ky Hnav Hfs Hx Hy Hg Hw Hn Hap.
  assert (Hc : calibratable self [0] (read_angles self None 0)).
  { unfold calibratable, read_angles. rewrite Hnav. simpl.
    repeat split; try assumption. lia. }
  destruct (get_contrast_transfer_returns self (Some [0]) None wlen nref NA
              None [0] 0%nat k2 kx ky eq_refl Hg Hw Hn Hc)
    as [ctf [Hctf Hdata]].
  exists ctf. split; [exact Hctf|]. rewrite Hdata.
  unfold read_angles. rewrite Hnav, Hfs. simpl.
  f_equal. apply zero_defocus_slice, Hap.
Qed.

Lemma ctf_at_zero_defocus_witness :
  exists ctf,
    get_contrast_transfer image_2x2 (Some [0]) None None None None None
    = ([], Ok (Some ctf))
    /\ ctf_data ctf =
       [map (map (fun q =>
                    RtoC (aperture_value (aperture_k2 image_2x2 None None None)
                                         None q)))
            [[0; PI * PI]; [PI * PI; 2 * (PI * PI)]]].
Proof.
  apply (ctf_at_zero_defocus_is_the_aperture R image_2x2 None None None
           [[0; PI * PI]; [PI * PI; 2 * (PI * PI)]] [0; - PI] [0; - PI]).
  - reflexivity.
  - reflexivity.
  - simpl. lia.
  - simpl. lia.
  - exact fourier_grid_2x2.
  - unfold read_parameter. simpl. lra.
  - unfold read_parameter. simpl. lra.
  - unfold aperture_k2, wave_number, read_parameter. simpl.
    right. field.
Defined.

(** X3.  On an image whose signal axes have two pixels or more, and with
    no angles or two angles or more, the three calls return and the CTF
    computed for two defocus values holds, slice by slice, what the two
    calls with a single defocus value return. *)
Theorem ctf_batch_is_the_single_calls :
  forall (A : Type) (self : Image A) (d1 d2 : R) (angles : option (list R))
         (wlen nref NA fsmooth : option R)
         (k2 : list (list R)) (kx ky : list R),
    (2 <= size (x_axis self))%nat -> (2 <= size (y_axis self))%nat ->
    (forall angs, read_angles self angles 0 = Some angs ->
                  (2 <= length angs)%nat) ->
    fourier_grid self = Ok (k2, kx, ky) ->
    read_parameter wlen (wave_length (metadata self)) <> 0 ->
    read_parameter nref (refractive_index (metadata self)) <> 0 ->
    exists both first second,
      get_contrast_transfer self (Some [d1; d2]) angles wlen nref NA fsmooth
      = ([], Ok (Some both))
      /\ get_contrast_transfer self (Some [d1]) angles wlen nref NA fsmooth
         = ([], Ok (Some first))
      /\ get_contrast_transfer self (Some [d2]) angles wlen nref NA fsmooth
         = ([], Ok (Some second))
      /\ ctf_data both = ctf_data first ++ ctf_data second.
Proof.
  intros A self d1 d2 angles wlen nref NA fsmooth k2 kx ky Hx Hy Ha Hg Hw Hn.
  assert (Hc : forall dfs, (1 <= length dfs)%nat ->
                           calibratable self dfs (read_angles self angles 0)).
  { intros dfs Hd. unfold calibratable. repeat split; try assumption.
    destruct (read_angles self angles 0) as [angs|]; [|exact I].
    apply Ha. reflexivity. }
  destruct (get_contrast_transfer_returns self (Some [d1; d2]) angles wlen
              nref NA fsmooth [d1; d2] 0%nat k2 kx ky eq_refl Hg Hw Hn)
    as [both [Hboth Hdb]]; [apply Hc; simpl; lia|].
  destruct (get_contrast_transfer_returns self (Some [d1]) angles wlen
              nref NA fsmooth [d1] 0%nat k2 kx ky eq_refl Hg Hw Hn)
    as [first [Hfirst Hdf]]; [apply Hc; simpl; lia|].
  destruct (get_contrast_transfer_returns self (Some [d2]) angles wlen
              nref NA fsmooth [d2] 0%nat k2 kx ky eq_refl Hg Hw Hn)
    as [second [Hsecond Hds]]; [apply Hc; simpl; lia|].
  exists both, first, second.
  split; [exact Hboth|]. split; [exact Hfirst|]. split; [exact Hsecond|].
  rewrite Hdb, Hdf, Hds. unfold contrast_transfer_array.
  destruct (read_angles self angles 0) as [angs|]; simpl.
  - rewrite !app_nil_r, map_app. reflexivity.
  - reflexivity.
Qed.

Lemma ctf_batch_witness :
  exists both first second,
    get_contrast_transfer image_2x2 (Some [1; 2]) None None None None None
    = ([], Ok (Some both))
    /\ get_contrast_transfer image_2x2 (Some [1]) None None None None None
       = ([], Ok (Some first))
    /\ get_contrast_transfer image_2x2 (Some [2]) None None None None None
       = ([], Ok (Some second))
    /\ ctf_data both = ctf_data first ++ ctf_data second.
Proof.
  apply (ctf_batch_is_the_single_calls R image_2x2 1 2 None None None None
           None [[0; PI * PI]; [PI * PI; 2 * (PI * PI)]] [0; - PI] [0; - PI]).
  - simpl. lia.
  - simpl. lia.
  - intros angs H. discriminate H.
  - exact fourier_grid_2x2.
  - unfold read_parameter. simpl. lra.
  - unfold read_parameter. simpl. lra.
Defined.

(** ** Input validation *)

(** X4.  [get_fourier_space] refuses a mode string it does not know with a
    [ValueError] (the grid itself being computable). *)
Theorem get_fourier_space_unknown_mode :
  forall (A : Type) (self : Image A) (retstr : string)
         (k2 : list (list R)) (kx ky : list R),
    fourier_grid self = Ok (k2, kx, ky) ->
    retstr <> "vectors"%string -> retstr <> "square"%string ->
    retstr <> "both"%string ->
    get_fourier_space self retstr = Raise ValueError.
Proof.
  intros A self retstr k2 kx ky Hg Hv Hs Hb. unfold get_fourier_space.
  rewrite Hg. simpl.
  rewrite (proj2 (String.eqb_neq _ _) Hv), (proj2 (String.eqb_neq _ _) Hs),
    (proj2 (String.eqb_neq _ _) Hb).
  reflexivity.
Qed.

Lemma get_fourier_space_unknown_mode_witness :
  get_fourier_space image_2x2 "polar" = Raise ValueError.
Proof.
  apply (get_fourier_space_unknown_mode R image_2x2 "polar"
           [[0; PI * PI]; [PI * PI; 2 * (PI * PI)]] [0; - PI] [0; - PI]).
  - exact fourier_grid_2x2.
  - discriminate.
  - discriminate.
  - discriminate.
Defined.

(** X5.  [set_pad] refuses more pad width entries than the image has signal
    axes with a [ValueError]. *)
Theorem set_pad_too_many_entries :
  forall (A : Type) (self : Image A) (pw : pad_width_arg)
         (rows : list (list Z)) (c : A),
    pad_array pw = Ok rows -> (2 < length rows)%nat ->
    set_pad self (Some pw) c = Raise ValueError.
Proof.
  intros A self pw rows c Hrows Hlen. unfold set_pad. rewrite Hrows.
  cbn [bind]. destruct (Nat.ltb_spec 2 (length rows)); [reflexivity|lia].
Qed.

Lemma set_pad_too_many_entries_witness :
  set_pad image_2x2 (Some (PadFlat [PadInt 1; PadInt 1; PadInt 1])) 0
  = Raise ValueError.
Proof.
  apply (set_pad_too_many_entries R image_2x2
           (PadFlat [PadInt 1; PadInt 1; PadInt 1]) [[1]; [1]; [1]]%Z 0).
  - reflexivity.
  - simpl. lia.
Defined.

(** X6.  [remove_pad] returns the image itself when no pad width is
    stored. *)
Theorem remove_pad_without_record :
  forall (A : Type) (self : Image A),
    pad_width (metadata self) = None -> remove_pad self = Ok self.
Proof.
  intros A self H. unfold remove_pad. rewrite H. reflexivity.
Qed.

Lemma remove_pad_without_record_witness : remove_pad image_2x2 = Ok image_2x2.
Proof.
  apply (remove_pad_without_record R image_2x2). reflexivity.
Defined.

(** X7.  [remove_pad] refuses a stored array with more entries than signal axes
    with a [ValueError]. *)
Theorem remove_pad_too_long_record :
  forall (A : Type) (self : Image A) (rows : list (list Z)),
    pad_width (metadata self) = Some rows -> (2 < length rows)%nat ->
    remove_pad self = Raise ValueError.
Proof.
  intros A self rows H Hlen. unfold remove_pad. rewrite H.
  destruct (Nat.ltb_spec 2 (length rows)); [reflexivity|lia].
Qed.

Lemma remove_pad_too_long_record_witness :
  remove_pad image_2x2_long_record = Raise ValueError.
Proof.
  apply (remove_pad_too_long_record R image_2x2_long_record
           [[1]; [1]; [1]]%Z).
  - reflexivity.
  - simpl. lia.
Defined.

(** ** What the binarized integral computes *)

Lemma Rsum_app (l m : list R) : Rsum (l ++ m) = Rsum l + Rsum m.
Proof. unfold Rsum. induction l as [|a l IH]; simpl; lra. Qed.

Lemma Rsum_map_plus {A : Type} (g h : A -> R) (l : list A) :
  Rsum (map (fun k => g k + h k) l) = Rsum (map g l) + Rsum (map h l).
Proof. unfold Rsum. induction l as [|a l IH]; simpl; lra. Qed.

Lemma Rsum_indicator (i : nat) (x : R) (s n : nat) :
  (s <= i < s + n)%nat ->
  Rsum (map (fun k => if Nat.eqb i k then x else 0) (seq s n)) = x.
Proof.
  revert s. induction n as [|n IH]; intros s Hi; [lia|].
  cbn [seq map]. unfold Rsum in *. cbn [fold_right].
  destruct (Nat.eqb_spec i s) as [->|Hne].
  - assert (Hz : forall m t, (s < t)%nat ->
              fold_right Rplus 0
                (map (fun k => if Nat.eqb s k then x else 0) (seq t m)) = 0).
    { induction m as [|m IHm]; intros t Ht; simpl; [reflexivity|].
      destruct (Nat.eqb_spec s t); [lia|]. rewrite IHm by lia. lra. }
    rewrite Hz by lia. lra.
  - rewrite IH by lia. lra.
Qed.

Lemma Rsum_zero {A : Type} (l : list A) : Rsum (map (fun _ => 0) l) = 0.
Proof. unfold Rsum. induction l as [|a l IH]; simpl; lra. Qed.

(** Summed over all bins, the weights of a bin count give the sum of the
    weights. *)
Lemma bincount_total (l : list (nat * R)) (n : nat) :
  (forall p, In p l -> (fst p < n)%nat) ->
  Rsum (map (fun k => Rsum (map snd (filter (fun p => Nat.eqb (fst p) k) l)))
            (seq 0 n))
  = Rsum (map snd l).
Proof.
  induction l as [|[i x] l IH]; intros Hin.
  - cbn [filter map]. change (Rsum []) with 0. apply Rsum_zero.
  - assert (Hi : (i < n)%nat) by (apply (Hin (i, x)); left; reflexivity).
    rewrite (map_ext_in _
      (fun k => (if Nat.eqb i k then x else 0)
                + Rsum (map snd (filter (fun p => Nat.eqb (fst p) k) l)))).
    + rewrite Rsum_map_plus, Rsum_indicator by lia.
      rewrite IH by (intros p Hp; apply Hin; right; exact Hp).
      reflexivity.
    + intros k _. cbn [filter fst]. destruct (Nat.eqb i k); cbn [map snd].
      * reflexivity.
      * lra.
Qed.

Lemma map_snd_combine {A B : Type} (l : list A) (m : list B) :
  length l = length m -> map snd (combine l m) = m.
Proof.
  revert m. induction l as [|a l IH]; intros [|b m] H; simpl in *;
    try discriminate; [reflexivity|]. f_equal. apply IH. lia.
Qed.

Lemma np_bincount_total (x : list nat) (w out : list R) :
  np_bincount x w = Ok out -> Rsum out = Rsum w.
Proof.
  unfold np_bincount. destruct (Nat.eqb_spec (length x) (length w)) as [Hl|];
    [|discriminate].
  intros Hout. injection Hout as <-.
  rewrite bincount_total.
  - rewrite map_snd_combine by exact Hl. reflexivity.
  - intros [i v] Hin. apply in_combine_l in Hin. simpl.
    unfold bincount_length. destruct x as [|a x']; [destruct Hin|].
    apply list_max_In in Hin. lia.
Qed.

(** ** The inverse index of a label *)

Lemma unique_index_nth (dst : list R) (k : nat) (d : R) :
  StronglySorted Rlt dst -> nth_error dst k = Some d ->
  unique_index dst d = k.
Proof.
  intros Hs. revert k. unfold unique_index.
  induction Hs as [|h t Hs IH Hall]; intros k Hk.
  - destruct k; discriminate.
  - destruct k as [|k]; simpl in Hk.
    + injection Hk as ->. cbn [filter].
      rewrite (proj2 (Rltb_false d d)) by lra.
      assert (Hnil : filter (fun d0 => Rltb d0 d) t = []).
      { clear IH Hs. induction t as [|y t IHt]; [reflexivity|].
        inversion Hall as [|? ? Hy Ht]; subst. cbn [filter].
        rewrite (proj2 (Rltb_false y d)) by lra. apply IHt, Ht. }
      rewrite Hnil. reflexivity.
    + cbn [filter].
      assert (Hd : h < d).
      { rewrite Forall_forall in Hall. apply Hall.
        eapply nth_error_In. exact Hk. }
      rewrite (proj2 (Rltb_true h d)) by exact Hd.
      cbn [length]. f_equal. apply IH, Hk.
Qed.

Lemma unique_index_eqb (dst : list R) (k : nat) (d x : R) :
  StronglySorted Rlt dst -> nth_error dst k = Some d -> In x dst ->
  Nat.eqb (unique_index dst x) k = Reqb x d.
Proof.
  intros Hs Hk Hx.
  destruct (In_nth_error _ _ Hx) as [j Hj].
  rewrite (unique_index_nth dst j x Hs Hj).
  destruct (Req_dec_T x d) as [->|Hne].
  - rewrite (proj2 (Reqb_true d d)) by reflexivity.
    apply Nat.eqb_eq.
    rewrite <- (unique_index_nth dst j d Hs Hj).
    apply (unique_index_nth dst k d Hs Hk).
  - rewrite (proj2 (Reqb_false x d)) by exact Hne.
    apply Nat.eqb_neq. intros ->. rewrite Hj in Hk. congruence.
Qed.

Lemma map_seq_nth {A B : Type} (f : nat -> B) (g : A -> B) (l : list A) :
  (forall k d, nth_error l k = Some d -> f k = g d) ->
  map f (seq 0 (length l)) = map g l.
Proof.
  intros H.
  assert (G : forall s, (forall k d, nth_error l k = Some d -> f (s + k)%nat = g d) ->
                        map f (seq s (length l)) = map g l).
  { clear H. induction l as [|a l IH]; intros s H; [reflexivity|].
    cbn [length seq map]. f_equal.
    - rewrite <- (H 0%nat a eq_refl). f_equal. lia.
    - apply IH. intros k d Hk. rewrite <- (H (S k) d Hk). f_equal. lia. }
  apply (G 0%nat). exact H.
Qed.

Lemma filter_label (dst a : list R) (w : list R) (k : nat) (d : R) :
  StronglySorted Rlt dst -> nth_error dst k = Some d ->
  (forall x, In x a -> In x dst) ->
  map snd (filter (fun p => Nat.eqb (fst p) k)
                  (combine (map (unique_index dst) a) w))
  = map snd (filter (fun p => Reqb (fst p) d) (combine a w)).
Proof.
  intros Hs Hk. revert w.
  induction a as [|x a IH]; intros w Hin; [reflexivity|].
  destruct w as [|v w]; [reflexivity|].
  cbn [map combine filter fst].
  rewrite (unique_index_eqb dst k d x Hs Hk) by (apply Hin; left; reflexivity).
  destruct (Reqb x d); cbn [map snd]; [f_equal|];
    apply IH; intros y Hy; apply Hin; right; exact Hy.
Qed.

(** The unnormalized integral, label by label. *)
Lemma np_bincount_by_label (a w : list R) :
  length a = length w ->
  np_bincount (map (unique_index (np_unique a)) a) w
  = Ok (map (fun d => Rsum (map snd (filter (fun p => Reqb (fst p) d)
                                            (combine a w))))
            (np_unique a)).
Proof.
  intros Hl. unfold np_bincount. rewrite length_map.
  rewrite (proj2 (Nat.eqb_eq _ _) Hl). f_equal.
  rewrite bincount_length_inverse.
  apply map_seq_nth. intros k d Hk. f_equal.
  apply filter_label.
  - apply np_unique_sorted.
  - exact Hk.
  - intros x Hx. apply np_unique_In. exact Hx.
Qed.

Lemma count_of_combine (a w : list R) (d : R) :
  length a = length w ->
  length (filter (fun p => Reqb (fst p) d) (combine a w)) = count_of a d.
Proof.
  unfold count_of. revert w.
  induction a as [|x a IH]; intros [|v w] Hl; simpl in *; try discriminate;
    [reflexivity|].
  destruct (Reqb x d); simpl; rewrite IH by lia; reflexivity.
Qed.

Lemma count_of_positive (a : list R) (d : R) :
  In d a -> (0 < count_of a d)%nat.
Proof.
  unfold count_of. induction a as [|x a IH]; intros Hin; [destruct Hin|].
  cbn [filter]. destruct (Req_dec_T x d) as [->|Hne].
  - rewrite (proj2 (Reqb_true d d)) by reflexivity. simpl. lia.
  - rewrite (proj2 (Reqb_false x d)) by exact Hne.
    destruct Hin as [->|Hin]; [contradiction|]. apply IH, Hin.
Qed.

Lemma map2_same_list {A B D E : Type} (f : B -> D -> E) (p : A -> B)
    (q : A -> D) (l : list A) :
  map2 f (map p l) (map q l) = map (fun x => f (p x) (q x)) l.
Proof. unfold map2. induction l as [|a l IH]; simpl; [|f_equal]; auto. Qed.

Lemma integrate_binary_real_by_label (sdata bin_mask : list (list R))
    (normalize : bool) :
  length (ravel sdata) = length (ravel bin_mask) ->
  integrate_binary_real sdata bin_mask normalize
  = Ok (map (fun d =>
               if normalize
               then Rsum (pixels_labelled sdata bin_mask d)
                    / INR (length (pixels_labelled sdata bin_mask d))
               else Rsum (pixels_labelled sdata bin_mask d))
            (np_unique (ravel bin_mask))).
Proof.
  intros Hl. unfold integrate_binary_real, np_unique_inverse_counts.
  rewrite np_bincount_by_label by (symmetry; exact Hl). cbn [bind].
  destruct normalize; [|reflexivity].
  f_equal. rewrite map2_same_list. apply map_ext. intros d.
  unfold pixels_labelled. rewrite length_map.
  rewrite count_of_combine by (symmetry; exact Hl). reflexivity.
Qed.

(** X8.  Without normalization the bins of [integrate_binary_real] add up to
    the sum of all the pixels of the image: nothing is lost and nothing is
    counted twice.  With normalization the bin values weighted by the
    populations of the bins add up to it. *)
Theorem integrate_binary_real_conserves_the_total :
  forall (sdata bin_mask : list (list R)),
    length (ravel sdata) = length (ravel bin_mask) ->
    exists sums means,
      integrate_binary_real sdata bin_mask false = Ok sums
      /\ Rsum sums = Rsum (ravel sdata)
      /\ integrate_binary_real sdata bin_mask true = Ok means
      /\ Rsum (map2 (fun m c => m * INR c) means (label_counts bin_mask))
         = Rsum (ravel sdata).
Proof.
  intros sdata bin_mask Hl.
  destruct (integrate_binary_real_length sdata bin_mask false Hl)
    as [sums [Hsums _]].
  assert (Htot : Rsum sums = Rsum (ravel sdata)).
  { revert Hsums. unfold integrate_binary_real, np_unique_inverse_counts.
    destruct (np_bincount _ _) as [out|e] eqn:Hb; cbn [bind]; [|discriminate].
    intros Heq. injection Heq as <-. eapply np_bincount_total. exact Hb. }
  exists sums. eexists. split; [exact Hsums|]. split; [exact Htot|].
  split; [apply integrate_binary_real_by_label; exact Hl|].
  rewrite <- Htot.
  rewrite integrate_binary_real_by_label in Hsums by exact Hl.
  injection Hsums as <-. f_equal.
  unfold label_counts. rewrite map2_same_list. apply map_ext_in.
  intros d Hd. unfold pixels_labelled at 2. rewrite length_map.
  rewrite count_of_combine by (symmetry; exact Hl).
  assert (Hpos : (0 < count_of (ravel bin_mask) d)%nat).
  { apply count_of_positive, np_unique_In, Hd. }
  apply lt_INR in Hpos. simpl in Hpos. field. lra.
Qed.

Lemma integrate_binary_real_conserves_the_total_witness :
  exists sums means,
    integrate_binary_real [[3; 4]] [[1; 2]] false = Ok sums
    /\ Rsum sums = Rsum (ravel [[3; 4]])
    /\ integrate_binary_real [[3; 4]] [[1; 2]] true = Ok means
    /\ Rsum (map2 (fun m c => m * INR c) means (label_counts [[1; 2]]))
       = Rsum (ravel [[3; 4]]).
Proof.
  apply (integrate_binary_real_conserves_the_total [[3; 4]] [[1; 2]]).
  reflexivity.
Defined.

(** X9.  [integrate_binary_real] returns one value per distinct label of the
    mask, in increasing order of the labels: the sum of the pixels that carry
    the label, or with [normalize] their mean. *)
Theorem integrate_binary_real_is_the_mean_per_label :
  forall (sdata bin_mask : list (list R)),
    length (ravel sdata) = length (ravel bin_mask) ->
    integrate_binary_real sdata bin_mask false
    = Ok (map (fun d => Rsum (pixels_labelled sdata bin_mask d))
              (np_unique (ravel bin_mask)))
    /\ integrate_binary_real sdata bin_mask true
       = Ok (map (fun d => Rsum (pixels_labelled sdata bin_mask d)
                           / INR (length (pixels_labelled sdata bin_mask d)))
                 (np_unique (ravel bin_mask)))
    /\ StronglySorted Rlt (np_unique (ravel bin_mask))
    /\ forall d, In d (np_unique (ravel bin_mask)) ->
                 (0 < length (pixels_labelled sdata bin_mask d))%nat.
Proof.
  intros sdata bin_mask Hl.
  split; [apply (integrate_binary_real_by_label sdata bin_mask false Hl)|].
  split; [apply (integrate_binary_real_by_label sdata bin_mask true Hl)|].
  split; [apply np_unique_sorted|].
  intros d Hd. unfold pixels_labelled. rewrite length_map.
  rewrite count_of_combine by (symmetry; exact Hl).
  apply count_of_positive, np_unique_In, Hd.
Qed.

Lemma integrate_binary_real_is_the_mean_per_label_witness :
  integrate_binary_real [[3; 4]] [[1; 2]] false
  = Ok (map (fun d => Rsum (pixels_labelled [[3; 4]] [[1; 2]] d))
            (np_unique (ravel [[1; 2]])))
  /\ integrate_binary_real [[3; 4]] [[1; 2]] true
     = Ok (map (fun d => Rsum (pixels_labelled [[3; 4]] [[1; 2]] d)
                         / INR (length (pixels_labelled [[3; 4]] [[1; 2]] d)))
               (np_unique (ravel [[1; 2]])))
  /\ StronglySorted Rlt (np_unique (ravel [[1; 2]]))
  /\ forall d, In d (np_unique (ravel [[1; 2]])) ->
               (0 < length (pixels_labelled [[3; 4]]%R [[1; 2]]%R d))%nat.
Proof.
  apply (integrate_binary_real_is_the_mean_per_label [[3; 4]] [[1; 2]]).
  reflexivity.
Defined.

(** ** A constant image *)

Lemma Rsum_constant (l : list R) (c : R) :
  Forall (fun v => v = c) l -> Rsum l = INR (length l) * c.
Proof.
  induction 1 as [|x l Hx _ IH].
  - simpl. lra.
  - change (Rsum (x :: l)) with (x + Rsum l). rewrite IH, Hx.
    change (length (c :: l)) with (S (length l)). rewrite S_INR. lra.
Qed.

Lemma pixels_labelled_constant (sdata bin_mask : list (list R)) (c d : R) :
  Forall (fun v => v = c) (ravel sdata) ->
  Forall (fun v => v = c) (pixels_labelled sdata bin_mask d).
Proof.
  intros Hc. unfold pixels_labelled. apply Forall_forall. intros v Hv.
  apply in_map_iff in Hv. destruct Hv as [[m x] [<- Hin]].
  apply filter_In in Hin. destruct Hin as [Hin _].
  apply in_combine_r in Hin. rewrite Forall_forall in Hc. apply Hc, Hin.
Qed.

Lemma integrate_binary_real_constant (sdata bin_mask : list (list R)) (c : R) :
  length (ravel sdata) = length (ravel bin_mask) ->
  Forall (fun v => v = c) (ravel sdata) ->
  exists idata, integrate_binary_real sdata bin_mask true = Ok idata
                /\ Forall (fun v => v = c) idata
                /\ length idata = distinct_values (ravel bin_mask).
Proof.
  intros Hl Hc. eexists. split; [apply integrate_binary_real_by_label, Hl|].
  split.
  - apply Forall_forall. intros v Hv. apply in_map_iff in Hv.
    destruct Hv as [d [<- Hd]].
    rewrite (Rsum_constant _ c) by (apply pixels_labelled_constant, Hc).
    assert (Hpos : (0 < length (pixels_labelled sdata bin_mask d))%nat).
    { unfold pixels_labelled. rewrite length_map.
      rewrite count_of_combine by (symmetry; exact Hl).
      apply count_of_positive, np_unique_In, Hd. }
    apply lt_INR in Hpos. simpl in Hpos. field. lra.
  - rewrite length_map. apply np_unique_length.
Qed.

(** X10.  The normalized integral of an image whose pixels all have the
    value [c] is [c] in every bin of every plane, whatever the mask. *)
Theorem integrate_binary_of_a_constant_image :
  forall (self : Image R) (bin_mask : Image R) (mask : list (list R)) (c : R),
    same_signal_shape self bin_mask mask ->
    Forall (fun plane => Forall (fun v => v = c) (ravel plane)) (data self) ->
    exists s,
      integrate_binary self bin_mask true = Ok s
      /\ length (sig_data s) = length (data self)
      /\ Forall (fun row => row = repeat c (distinct_values (ravel mask)))
                (sig_data s).
Proof.
  intros self bin_mask mask c [Hnav [Hdata Hshape]] Hconst.
  unfold integrate_binary, mask_planes. rewrite Hnav, Hdata. cbn [bind].
  destruct (mapM_ok (fun pm => integrate_binary_real (fst pm) (snd pm) true)
                    (fun row => row = repeat c (distinct_values (ravel mask)))
                    (combine (data self) (repeat mask (length (data self)))))
    as [rows [Hrows [Hlen Hall]]].
  { intros [p m] Hin. cbn [fst snd].
    pose proof (in_combine_l _ _ _ _ Hin) as Hp.
    pose proof (in_combine_r _ _ _ _ Hin) as Hm.
    apply repeat_spec in Hm. subst m.
    rewrite Forall_forall in Hconst.
    destruct (integrate_binary_real_constant p mask c (Hshape p Hp)
                                             (Hconst p Hp))
      as [idata [Hi [Hall Hlen]]].
    exists idata. split; [exact Hi|].
    rewrite <- Hlen. clear Hi Hlen.
    induction Hall as [|x l Hx _ IH]; [reflexivity|].
    cbn [length repeat]. rewrite Hx, <- IH. reflexivity. }
  change (@integrator R Dtype_real) with integrate_binary_real.
  rewrite Hrows. cbn [bind].
  rewrite length_combine, repeat_length, Nat.min_id in Hlen.
  match goal with |- context [if ?b then _ else _] => destruct b end;
    eexists; (split; [reflexivity|]); cbn [sig_data]; auto.
Qed.

Lemma integrate_binary_of_a_constant_image_witness :
  exists s,
    integrate_binary (mkImage [[[7; 7]]] [] (mkAxis 2 1 0 "") (mkAxis 1 1 0 "")
                              empty_metadata)
                     (mkImage [[[1; 2]]] [] (mkAxis 2 1 0 "") (mkAxis 1 1 0 "")
                              empty_metadata) true = Ok s
    /\ length (sig_data s) = 1%nat
    /\ Forall (fun row => row = repeat 7 (distinct_values (ravel [[1; 2]])))
              (sig_data s).
Proof.
  apply (integrate_binary_of_a_constant_image
           (mkImage [[[7; 7]]] [] (mkAxis 2 1 0 "") (mkAxis 1 1 0 "")
                    empty_metadata)
           (mkImage [[[1; 2]]] [] (mkAxis 2 1 0 "") (mkAxis 1 1 0 "")
                    empty_metadata) [[1; 2]] 7).
  - split; [reflexivity|]. split; [reflexivity|].
    intros plane [<-|[]]. reflexivity.
  - repeat constructor.
Defined.

(** ** The real-space coordinates *)

Lemma np_max_unique (a : list R) (hi m : R) :
  np_max a = Ok hi -> In m a -> (forall y, In y a -> y <= m) -> hi = m.
Proof.
  intros Hmax Hin Hub. destruct (np_max_spec a hi Hmax) as [Hhi Hall].
  apply Rle_antisym; [apply Hub, Hhi | apply Hall, Hin].
Qed.

Lemma center_coords_axis (ax : DataAxis) :
  (0 < size ax)%nat ->
  center_coords (axis_values ax) (offset ax) = Ok (centred_axis ax).
Proof.
  intros Hn. unfold center_coords, centred_axis, axis_values.
  set (shifts := map (fun c => c - offset ax)
                     (map (fun i => offset ax + INR i * scale ax)
                          (seq 0 (size ax)))).
  assert (Hin : forall y, In y shifts <->
                          exists i, (i < size ax)%nat /\ y = INR i * scale ax).
  { intros y. unfold shifts. rewrite map_map, in_map_iff. split.
    - intros [i [<- Hi]]. apply in_seq in Hi. exists i. split; [lia|lra].
    - intros [i [Hi ->]]. exists i. split; [lra|]. apply in_seq. lia. }
  assert (Hne : shifts <> []).
  { intros Hnil. assert (H0 : In (INR 0 * scale ax) shifts)
      by (apply Hin; exists 0%nat; split; [exact Hn|reflexivity]).
    rewrite Hnil in H0. destruct H0. }
  destruct (np_min_max_ok shifts Hne) as [_ [hi [_ Hmax]]].
  rewrite Hmax. cbn [bind]. f_equal. rewrite map_map.
  apply map_ext. intros i.
  assert (Hhi : hi = if Rle_dec 0 (scale ax)
                     then INR (size ax - 1) * scale ax else 0).
  { destruct (Rle_dec 0 (scale ax)) as [Hs|Hs].
    - apply (np_max_unique shifts); [exact Hmax| |].
      + apply Hin. exists (size ax - 1)%nat. split; [lia|reflexivity].
      + intros y Hy. apply Hin in Hy. destruct Hy as [j [Hj ->]].
        apply Rmult_le_compat_r; [exact Hs|]. apply le_INR. lia.
    - apply (np_max_unique shifts); [exact Hmax| |].
      + apply Hin. exists 0%nat. split; [exact Hn|simpl; lra].
      + intros y Hy. apply Hin in Hy. destruct Hy as [j [Hj ->]].
        pose proof (pos_INR j). nra. }
  rewrite Hhi. destruct (Rle_dec 0 (scale ax)); lra.
Qed.

(** X11.  With [shifted=True] and no further shift, pixel [i] of an axis of
    [N] pixels is at [offset + i*scale - (N-1)*scale/2] when the scale is not
    negative: the coordinates are centred on the axis offset (on zero when
    the offset is zero).  With a negative scale they are not moved at all. *)
Theorem get_real_space_shifted_coordinates :
  forall (A : Type) (self : Image A),
    (0 < size (x_axis self))%nat -> (0 < size (y_axis self))%nat ->
    get_real_space self true None
    = Ok (centred_axis (x_axis self), centred_axis (y_axis self)).
Proof.
  intros A self Hx Hy. unfold get_real_space.
  cbn [signal_axes map nth].
  rewrite (center_coords_axis (x_axis self) Hx). cbn [bind].
  rewrite (center_coords_axis (y_axis self) Hy). cbn [bind].
  reflexivity.
Qed.

Lemma get_real_space_shifted_coordinates_witness :
  get_real_space image_1x2 true None
  = Ok (centred_axis (x_axis image_1x2), centred_axis (y_axis image_1x2)).
Proof.
  apply (get_real_space_shifted_coordinates R image_1x2); simpl; lia.
Defined.

(** ** The reciprocal-space grid *)

Lemma map_seq_shift {B : Type} (f : nat -> B) (s n : nat) :
  map f (seq s n) = map (fun j => f (s + j)%nat) (seq 0 n).
Proof.
  revert f s. induction n as [|n IH]; intros f s; [reflexivity|].
  cbn [seq map]. f_equal; [f_equal; lia|].
  rewrite (IH f (S s)). rewrite (IH (fun j => f (s + j)%nat) 1%nat).
  apply map_ext. intros j. f_equal. lia.
Qed.

Lemma firstn_seq_le (n s len : nat) :
  (n <= len)%nat -> firstn n (seq s len) = seq s n.
Proof.
  revert s len. induction n as [|n IH]; intros s len Hn; [reflexivity|].
  destruct len as [|len]; [lia|]. cbn [seq firstn]. f_equal.
  apply IH. lia.
Qed.

Lemma k_vector_fftfreq (N : nat) (dk : R) : k_vector N dk = fftfreq N dk.
Proof.
  unfold k_vector, np_ifftshift, fftfreq.
  rewrite length_map, length_seq.
  set (h := (N / 2)%nat).
  assert (Hh : (h <= N)%nat).
  { unfold h. destruct N as [|N]; [reflexivity|].
    apply Nat.Div0.div_le_upper_bound. lia. }
  rewrite skipn_map, firstn_map, skipn_seq, firstn_seq_le by exact Hh.
  cbn [Nat.add].
  replace (seq 0 N) with (seq 0 (N - h) ++ seq (N - h) h).
  2:{ rewrite <- seq_app. f_equal. lia. }
  rewrite (map_app _ (seq 0 (N - h))). f_equal.
  - rewrite map_seq_shift. apply map_ext_in. intros j Hj.
    apply in_seq in Hj.
    rewrite (proj2 (Nat.ltb_lt j (N - h))) by lia.
    rewrite plus_INR. f_equal. lra.
  - rewrite (map_seq_shift _ (N - h)). apply map_ext_in. intros j Hj.
    apply in_seq in Hj.
    rewrite (proj2 (Nat.ltb_ge (N - h + j) (N - h))) by lia.
    rewrite plus_INR, minus_INR by exact Hh. f_equal. lra.
Qed.

Lemma fourier_grid_value {A : Type} (self : Image A) :
  INR (size (x_axis self)) * scale (x_axis self) <> 0 ->
  INR (size (y_axis self)) * scale (y_axis self) <> 0 ->
  let kx := fftfreq (size (x_axis self))
              (2 * PI / (INR (size (x_axis self)) * scale (x_axis self))) in
  let ky := fftfreq (size (y_axis self))
              (2 * PI / (INR (size (y_axis self)) * scale (y_axis self))) in
  fourier_grid self
  = Ok (map (fun y => map (fun x => x * x + y * y) kx) ky, kx, ky).
Proof.
  intros Hx Hy kx ky. unfold fourier_grid.
  destruct (Req_dec_T _ 0) as [E|_]; [contradiction|].
  destruct (Req_dec_T _ 0) as [E|_]; [contradiction|].
  rewrite !k_vector_fftfreq. fold kx ky.
  unfold np_meshgrid. f_equal. f_equal. f_equal.
  unfold map2. generalize kx as u. intros u.
  induction ky as [|y t IH]; [reflexivity|].
  cbn [map combine fst snd]. f_equal; [|exact IH].
  clear IH. induction u as [|x u IHu]; [reflexivity|].
  cbn [map combine fst snd]. f_equal. exact IHu.
Qed.

(** X12.  The vectors returned by [get_fourier_space('vectors')] are in FFT
    order, [2*pi/(N*d)] times the integers [0, 1, ..., -2, -1]: the zero
    frequency comes first, the negative frequencies fill the second half. *)
Theorem get_fourier_space_vectors_are_in_fft_order :
  forall (A : Type) (self : Image A),
    INR (size (x_axis self)) * scale (x_axis self) <> 0 ->
    INR (size (y_axis self)) * scale (y_axis self) <> 0 ->
    get_fourier_space self "vectors"
    = Ok (FS_vectors
            (fftfreq (size (x_axis self))
               (2 * PI / (INR (size (x_axis self)) * scale (x_axis self))))
            (fftfreq (size (y_axis self))
               (2 * PI / (INR (size (y_axis self)) * scale (y_axis self))))).
Proof.
  intros A self Hx Hy. unfold get_fourier_space.
  rewrite (fourier_grid_value self Hx Hy). cbn [bind].
  reflexivity.
Qed.

Lemma get_fourier_space_vectors_are_in_fft_order_witness :
  get_fourier_space image_1x2 "vectors"
  = Ok (FS_vectors
          (fftfreq (size (x_axis image_1x2))
             (2 * PI / (INR (size (x_axis image_1x2))
                        * scale (x_axis image_1x2))))
          (fftfreq (size (y_axis image_1x2))
             (2 * PI / (INR (size (y_axis image_1x2))
                        * scale (y_axis image_1x2))))).
Proof.
  apply (get_fourier_space_vectors_are_in_fft_order R image_1x2);
    simpl; lra.
Defined.

(** X13.  [get_fourier_space('square')] returns an array with one row per
    pixel along [y] and one column per pixel along [x] whose entry [(j, i)]
    is [kx[i]^2 + ky[j]^2]; ['both'] returns it with the two vectors. *)
Theorem get_fourier_space_square_is_kx2_plus_ky2 :
  forall (A : Type) (self : Image A),
    INR (size (x_axis self)) * scale (x_axis self) <> 0 ->
    INR (size (y_axis self)) * scale (y_axis self) <> 0 ->
    exists kx ky,
      get_fourier_space self "vectors" = Ok (FS_vectors kx ky)
      /\ length kx = size (x_axis self) /\ length ky = size (y_axis self)
      /\ get_fourier_space self "square"
         = Ok (FS_square (map (fun y => map (fun x => x * x + y * y) kx) ky))
      /\ get_fourier_space self "both"
         = Ok (FS_both (map (fun y => map (fun x => x * x + y * y) kx) ky)
                       kx ky).
Proof.
  intros A self Hx Hy. unfold get_fourier_space.
  rewrite (fourier_grid_value self Hx Hy). cbn [bind].
  eexists. eexists. split; [reflexivity|].
  unfold fftfreq. rewrite !length_map, !length_seq.
  repeat split; reflexivity.
Qed.

Lemma get_fourier_space_square_is_kx2_plus_ky2_witness :
  exists kx ky,
    get_fourier_space image_1x2 "vectors" = Ok (FS_vectors kx ky)
    /\ length kx = size (x_axis image_1x2)
    /\ length ky = size (y_axis image_1x2)
    /\ get_fourier_space image_1x2 "square"
       = Ok (FS_square (map (fun y => map (fun x => x * x + y * y) kx) ky))
    /\ get_fourier_space image_1x2 "both"
       = Ok (FS_both (map (fun y => map (fun x => x * x + y * y) kx) ky)
                     kx ky).
Proof.
  apply (get_fourier_space_square_is_kx2_plus_ky2 R image_1x2); simpl; lra.
Defined.

(** X14.  [get_fourier_space] fails with [ZeroDivisionError] exactly when a
    signal axis has no pixel or a zero scale, whatever the mode asked for. *)
Theorem get_fourier_space_zero_division :
  forall (A : Type) (self : Image A) (retstr : string),
    get_fourier_space self retstr = Raise ZeroDivisionError
    <-> (size (x_axis self) = 0%nat \/ scale (x_axis self) = 0
         \/ size (y_axis self) = 0%nat \/ scale (y_axis self) = 0).
Proof.
  intros A self retstr.
  assert (Hz : forall n d, INR n * d = 0 <-> n = 0%nat \/ d = 0).
  { intros n d. split.
    - intros H. apply Rmult_integral in H. destruct H as [H|H]; [left|right; exact H].
      apply INR_eq. exact H.
    - intros [-> | ->]; simpl; lra. }
  split.
  - intros Hr.
    destruct (Req_dec_T (INR (size (x_axis self)) * scale (x_axis self)) 0)
      as [Ex|Nx]; [apply Hz in Ex; tauto|].
    destruct (Req_dec_T (INR (size (y_axis self)) * scale (y_axis self)) 0)
      as [Ey|Ny]; [apply Hz in Ey; tauto|].
    exfalso. revert Hr. unfold get_fourier_space.
    rewrite (fourier_grid_value self Nx Ny). cbn [bind].
    repeat match goal with
           | |- context [String.eqb ?a ?b] => destruct (String.eqb a b)
           end; discriminate.
  - intros H. unfold get_fourier_space, fourier_grid.
    destruct (Req_dec_T (INR (size (y_axis self)) * scale (y_axis self)) 0)
      as [Ey|Ny]; [reflexivity|].
    destruct (Req_dec_T (INR (size (x_axis self)) * scale (x_axis self)) 0)
      as [Ex|Nx]; [reflexivity|].
    exfalso. destruct H as [H|[H|[H|H]]].
    + apply Nx, Hz. left. exact H.
    + apply Nx, Hz. right. exact H.
    + apply Ny, Hz. left. exact H.
    + apply Ny, Hz. right. exact H.
Qed.

(** ** Size of the contrast transfer function *)

Lemma aperture_value_bounds (k2Aperture : R) (fsmooth : option R) (q : R) :
  0 <= aperture_value k2Aperture fsmooth q <= 1.
Proof.
  unfold aperture_value.
  assert (Hhard : 0 <= (if Rle_dec q k2Aperture then 1 else 0) <= 1)
    by (destruct (Rle_dec q k2Aperture); lra).
  destruct fsmooth as [f|]; [|exact Hhard].
  destruct (Rltb k2Aperture q && Rltb q ((1 + f) * k2Aperture));
    [|exact Hhard].
  pose proof (COS_bound (PI * (q - k2Aperture) / (f * k2Aperture))). lra.
Qed.

Lemma Cabs_C0 : Cabs C0 = 0.
Proof.
  unfold Cabs, C0. simpl. rewrite Rmult_0_l, Rplus_0_l. apply sqrt_0.
Qed.

Lemma Cabs_phase_times_real (t ap : R) :
  0 <= ap -> Cabs (Cmul (Cexp_i t) (RtoC ap)) = ap.
Proof.
  intros Hap. unfold Cabs, Cmul, Cexp_i, RtoC. simpl.
  replace ((cos t * ap - sin t * 0) * (cos t * ap - sin t * 0)
           + (cos t * 0 + sin t * ap) * (cos t * 0 + sin t * ap))
    with (ap * ap * (Rsqr (sin t) + Rsqr (cos t))) by (unfold Rsqr; ring).
  rewrite sin2_cos2, Rmult_1_r. apply sqrt_square, Hap.
Qed.

Lemma map2_Forall {A B D : Type} (f : A -> B -> D) (P : D -> Prop)
    (l : list A) (m : list B) :
  (forall a b, In a l -> In b m -> P (f a b)) -> Forall P (map2 f l m).
Proof.
  intros H. unfold map2. apply Forall_forall. intros d Hd.
  apply in_map_iff in Hd. destruct Hd as [[a b] [<- Hin]].
  apply H; [eapply in_combine_l | eapply in_combine_r]; exact Hin.
Qed.

Lemma ctf_slice_modulus (Chi : list (list (option R)))
    (k2Aperture defocus : R) (fsmooth : option R) (k2 : list (list R)) :
  Forall (Forall (fun z => Cabs z <= 1))
         (map (map nan_to_num)
              (ctf_slice Chi (map (map (aperture_value k2Aperture fsmooth)) k2)
                         defocus)).
Proof.
  apply Forall_map. unfold ctf_slice. apply map2_Forall.
  intros crow arow _ Harow. apply Forall_map. apply map2_Forall.
  intros chi ap _ Hap.
  assert (Hb : 0 <= ap <= 1).
  { apply in_map_iff in Harow. destruct Harow as [row [<- _]].
    apply in_map_iff in Hap. destruct Hap as [q [<- _]].
    apply aperture_value_bounds. }
  destruct chi as [c|]; cbn [nan_to_num].
  - rewrite Cabs_phase_times_real; lra.
  - rewrite Cabs_C0. lra.
Qed.

(** X15.  On inputs whose axes can be calibrated (signal axes of two pixels
    or more, a defocus value or more, two angles or more when there are
    angles) [get_contrast_transfer] returns a CTF, and every entry of it
    has a modulus of at most 1, for every defocus value and astigmatism
    angle, with a sharp or a smoothed aperture. *)
Theorem contrast_transfer_modulus_is_at_most_one :
  forall (A : Type) (self : Image A) (defoci angles : option (list R))
         (wlen nref NA fsmooth : option R) (dfs : list R) (ax_count : nat)
         (k2 : list (list R)) (kx ky : list R),
    read_defoci self defoci = Some (dfs, ax_count) ->
    fourier_grid self = Ok (k2, kx, ky) ->
    read_parameter wlen (wave_length (metadata self)) <> 0 ->
    read_parameter nref (refractive_index (metadata self)) <> 0 ->
    calibratable self dfs (read_angles self angles ax_count) ->
    exists ctf,
      get_contrast_transfer self defoci angles wlen nref NA fsmooth
      = ([], Ok (Some ctf))
      /\ Forall (Forall (Forall (fun z => Cabs z <= 1))) (ctf_data ctf).
Proof.
  intros A self defoci angles wlen nref NA fsmooth dfs ax_count k2 kx ky
         Hd Hg Hw Hn Hc.
  destruct (get_contrast_transfer_returns self defoci angles wlen nref NA
              fsmooth dfs ax_count k2 kx ky Hd Hg Hw Hn Hc)
    as [ctf [Hctf Hdata]].
  exists ctf. split; [exact Hctf|]. rewrite Hdata.
  apply Forall_forall. intros s Hs.
  apply in_map_iff in Hs. destruct Hs as [slice [<- Hs]].
  unfold contrast_transfer_array in Hs.
  destruct (read_angles self angles ax_count) as [angs|].
  - apply in_flat_map in Hs. destruct Hs as [d [_ Hs]].
    apply in_map_iff in Hs. destruct Hs as [a [<- _]].
    apply ctf_slice_modulus.
  - apply in_map_iff in Hs. destruct Hs as [d [<- _]].
    apply ctf_slice_modulus.
Qed.

Lemma contrast_transfer_modulus_is_at_most_one_witness :
  exists ctf,
    get_contrast_transfer image_2x2 (Some [1; 2]) (Some [0.5; 1]) (Some 4)
                          None (Some 4) None
    = ([], Ok (Some ctf))
    /\ Forall (Forall (Forall (fun z => Cabs z <= 1))) (ctf_data ctf).
Proof.
  apply (contrast_transfer_modulus_is_at_most_one R image_2x2 (Some [1; 2])
           (Some [0.5; 1]) (Some 4) None (Some 4) None [1; 2] 0%nat
           [[0; PI * PI]; [PI * PI; 2 * (PI * PI)]] [0; - PI] [0; - PI]).
  - reflexivity.
  - exact fourier_grid_2x2.
  - unfold read_parameter. simpl. lra.
  - unfold read_parameter. simpl. lra.
  - unfold calibratable. simpl. repeat split; lia.
Defined.

(** ** The zero frequency *)

Lemma fftfreq_first (N : nat) (dk : R) :
  (0 < N)%nat -> nth_error (fftfreq N dk) 0 = Some (dk * 0).
Proof.
  intros HN. unfold fftfreq. destruct N as [|N]; [lia|].
  cbn [seq map nth_error].
  assert (Hh : (S N / 2 < S N)%nat) by (apply Nat.div_lt; lia).
  rewrite (proj2 (Nat.ltb_lt 0 (S N - S N / 2))) by lia.
  reflexivity.
Qed.

Lemma sqrt_square_pos (w : R) : 0 < w -> sqrt (w * w - 0) = w.
Proof.
  intros Hw. rewrite Rminus_0_r. apply sqrt_square. lra.
Qed.

Lemma aperture_value_at_zero (r : R) (fsmooth : option R) :
  aperture_value (r * r) fsmooth 0 = 1.
Proof.
  unfold aperture_value.
  assert (Hr : 0 <= r * r) by nra.
  destruct (Rle_dec 0 (r * r)) as [_|Hn]; [|contradiction].
  destruct fsmooth as [f|]; [|reflexivity].
  rewrite (proj2 (Rltb_false (r * r) 0)) by exact Hr. reflexivity.
Qed.

Lemma plain_slice_at_zero (w r defocus : R) (fsmooth : option R)
    (k2 : list (list R)) :
  0 < w -> nth2 k2 0 0 = Some 0 ->
  nth2 (map (map nan_to_num)
            (ctf_slice (chi_plain w k2)
                       (map (map (aperture_value (r * r) fsmooth)) k2)
                       defocus)) 0 0 = Some (RtoC 1).
Proof.
  intros Hw Hq. rewrite nth2_map. unfold ctf_slice, chi_plain.
  rewrite nth2_map2, !nth2_map, Hq. cbn [option_map].
  unfold np_sqrt. destruct (Rlt_dec (w * w - 0) 0) as [Hneg|_]; [nra|].
  rewrite sqrt_square_pos by exact Hw. rewrite aperture_value_at_zero.
  cbn [nan_to_num]. f_equal. unfold Cmul, Cexp_i, RtoC. cbn [Re Im].
  replace ((w - w) * defocus) with 0 by ring. rewrite cos_0, sin_0.
  f_equal; ring.
Qed.

Lemma astigmatic_slice_at_zero (w r defocus angle : R) (fsmooth : option R)
    (kx ky k2 : list (list R)) :
  0 < w ->
  nth2 kx 0 0 = Some 0 -> nth2 ky 0 0 = Some 0 -> nth2 k2 0 0 = Some 0 ->
  nth2 (map (map nan_to_num)
            (ctf_slice (chi_astigmatic w kx ky k2 angle)
                       (map (map (aperture_value (r * r) fsmooth)) k2)
                       defocus)) 0 0 = Some (RtoC 1).
Proof.
  intros Hw Hx Hy Hq. rewrite nth2_map. unfold ctf_slice, chi_astigmatic.
  rewrite nth2_map2, nth2_map2, !nth2_map, nth2_map2, Hx, Hy, Hq.
  cbn [option_map].
  replace ((0 * cos angle + 0 * sin angle) * (0 * cos angle + 0 * sin angle))
    with 0 by ring.
  unfold np_sqrt. destruct (Rlt_dec (w * w - 0) 0) as [Hneg|_]; [nra|].
  rewrite sqrt_square_pos by exact Hw. rewrite aperture_value_at_zero.
  cbn [nan_to_num]. f_equal. unfold Cmul, Cexp_i, RtoC. cbn [Re Im].
  replace ((w - 0.5 * (w + w)) * defocus) with 0 by lra.
  rewrite cos_0, sin_0. f_equal; ring.
Qed.

(** X16.  With a positive wave number (positive wavelength and refractive
    index), on inputs whose axes can be calibrated (signal axes of two
    pixels or more, a defocus value or more, two angles or more when there
    are angles), the CTF is returned and is exactly 1 at the zero frequency,
    entry [(0, 0)] of every slice: for every defocus value and astigmatism
    angle, every numerical aperture and with or without smoothing. *)
Theorem contrast_transfer_is_one_at_zero_frequency :
  forall (A : Type) (self : Image A) (defoci angles : option (list R))
         (wlen nref NA fsmooth : option R) (dfs : list R) (ax_count : nat),
    read_defoci self defoci = Some (dfs, ax_count) ->
    calibratable self dfs (read_angles self angles ax_count) ->
    scale (x_axis self) <> 0 -> scale (y_axis self) <> 0 ->
    0 < read_parameter wlen (wave_length (metadata self)) ->
    0 < read_parameter nref (refractive_index (metadata self)) ->
    exists ctf,
      get_contrast_transfer self defoci angles wlen nref NA fsmooth
      = ([], Ok (Some ctf))
      /\ Forall (fun slice => nth2 slice 0 0 = Some (RtoC 1)) (ctf_data ctf).
Proof.
  intros A self defoci angles wlen nref NA fsmooth dfs ax_count
         Hd Hc Hdx Hdy Hw Hn.
  assert (Hsx : (0 < size (x_axis self))%nat) by (destruct Hc as [H _]; lia).
  assert (Hsy : (0 < size (y_axis self))%nat)
    by (destruct Hc as [_ [H _]]; lia).
  assert (Hx : INR (size (x_axis self)) * scale (x_axis self) <> 0).
  { apply Rmult_integral_contrapositive_currified; [|exact Hdx].
    apply not_0_INR. lia. }
  assert (Hy : INR (size (y_axis self)) * scale (y_axis self) <> 0).
  { apply Rmult_integral_contrapositive_currified; [|exact Hdy].
    apply not_0_INR. lia. }
  pose proof (fourier_grid_value self Hx Hy) as Hg. cbv zeta in Hg.
  set (kx := fftfreq (size (x_axis self))
               (2 * PI / (INR (size (x_axis self)) * scale (x_axis self))))
    in *.
  set (ky := fftfreq (size (y_axis self))
               (2 * PI / (INR (size (y_axis self)) * scale (y_axis self))))
    in *.
  set (k2 := map (fun y => map (fun x => x * x + y * y) kx) ky) in *.
  assert (Hkx : nth_error kx 0 = Some 0).
  { unfold kx. rewrite fftfreq_first by exact Hsx. f_equal. ring. }
  assert (Hky : nth_error ky 0 = Some 0).
  { unfold ky. rewrite fftfreq_first by exact Hsy. f_equal. ring. }
  assert (Hk2 : nth2 k2 0 0 = Some 0).
  { unfold k2, nth2. destruct ky as [|y ky']; [discriminate|].
    injection Hky as ->. cbn [map nth_error].
    destruct kx as [|x kx']; [discriminate|].
    injection Hkx as ->. cbn [map nth_error]. f_equal. ring. }
  destruct (nth2_meshgrid kx ky 0 0 0 0 Hkx Hky) as [Hmx Hmy].
  destruct (get_contrast_transfer_returns self defoci angles wlen nref NA
              fsmooth dfs ax_count k2 kx ky Hd Hg
              (Rgt_not_eq _ _ Hw) (Rgt_not_eq _ _ Hn) Hc)
    as [ctf [Hctf Hdata]].
  exists ctf. split; [exact Hctf|]. rewrite Hdata.
  assert (Hwn : 0 < wave_number self wlen nref).
  { unfold wave_number. apply Rmult_lt_0_compat; [|exact Hn].
    apply Rdiv_lt_0_compat; [|exact Hw]. pose proof PI_RGT_0. lra. }
  unfold aperture_k2. cbv zeta.
  apply Forall_forall. intros s Hs.
  apply in_map_iff in Hs. destruct Hs as [slice [<- Hs]].
  unfold contrast_transfer_array in Hs.
  destruct (read_angles self angles ax_count) as [angs|].
  - apply in_flat_map in Hs. destruct Hs as [d [_ Hs]].
    apply in_map_iff in Hs. destruct Hs as [a [<- _]].
    apply astigmatic_slice_at_zero; assumption.
  - apply in_map_iff in Hs. destruct Hs as [d [<- _]].
    apply plain_slice_at_zero; assumption.
Qed.

Lemma contrast_transfer_is_one_at_zero_frequency_witness :
  exists ctf,
    get_contrast_transfer image_2x2 (Some [1; 2]) (Some [0.5; 1]) (Some 4)
                          None (Some 4) None
    = ([], Ok (Some ctf))
    /\ Forall (fun slice => nth2 slice 0 0 = Some (RtoC 1)) (ctf_data ctf).
Proof.
  apply (contrast_transfer_is_one_at_zero_frequency R image_2x2 (Some [1; 2])
           (Some [0.5; 1]) (Some 4) None (Some 4) None [1; 2] 0%nat).
  - reflexivity.
  - unfold calibratable. simpl. repeat split; lia.
  - simpl. lra.
  - simpl. lra.
  - unfold read_parameter. simpl. lra.
  - unfold read_parameter. simpl. lra.
Defined.

(** ** Where the astigmatism angles come from *)



(** ** Pad widths given in scaled units *)

(** X18.  In a flat [pad_width] such as [(50, 50.)] the first entry goes
    with the [x] axis and the second with the [y] axis, and a [float] entry is
    a length in the units of its axis: [set_pad] pads by the integer part of
    the entry divided by the scale of that axis, and stores that number. *)
Theorem set_pad_float_width_is_in_axis_units :
  forall (A : Type) (self : Image A) (e0 e1 : pad_entry) (c : A),
    scale (x_axis self) <> 0 -> scale (y_axis self) <> 0 ->
    set_pad self (Some (PadFlat [e0; e1])) c
    = set_pad self
        (Some (PadFlat [PadInt (pad_pixels e0 (x_axis self));
                        PadInt (pad_pixels e1 (y_axis self))])) c.
Proof.
  intros A self e0 e1 c Hx Hy. unfold set_pad.
  cbn [pad_array map pad_entry_int length Nat.ltb Nat.leb bind].
  cbn [pad_items map signal_indices_in_array combine].
  destruct e0 as [n0|x0], e1 as [n1|x1];
    cbn [set_pad_loop bind pad_pixels app];
    repeat match goal with
           | |- context [Req_dec_T ?a 0] =>
               destruct (Req_dec_T a 0) as [E|_]; [contradiction|]
           end;
    cbn [bind list_set firstn skipn app nth map set_pad_loop];
    reflexivity.
Qed.

Lemma set_pad_float_width_witness :
  set_pad (mkImage [[[5]]] [] (mkAxis 1 0.5 0 "") (mkAxis 1 1 0 "")
                   empty_metadata)
          (Some (PadFlat [PadFloat 1; PadInt 1])) 0
  = set_pad (mkImage [[[5]]] [] (mkAxis 1 0.5 0 "") (mkAxis 1 1 0 "")
                     empty_metadata)
      (Some (PadFlat
               [PadInt (pad_pixels (PadFloat 1) (mkAxis 1 0.5 0 ""));
                PadInt (pad_pixels (PadInt 1) (mkAxis 1 1 0 ""))])) 0.
Proof.
  apply (set_pad_float_width_is_in_axis_units R
           (mkImage [[[5]]] [] (mkAxis 1 0.5 0 "") (mkAxis 1 1 0 "")
                    empty_metadata)
           (PadFloat 1) (PadInt 1) 0); simpl; lra.
Defined.

(** ** The deprecated interface: [set_padding] and [unset_padding] *)

Lemma mapM_pointwise {A B : Type} (f : A -> result B) (h : A -> B)
    (l : list A) :
  (forall a, f a = Ok (h a)) -> mapM f l = Ok (map h l).
Proof.
  intros H. induction l as [|a t IH]; simpl; [reflexivity|].
  rewrite H, IH. reflexivity.
Qed.

Lemma set_padding_resolved {A : Type} (self : ModifiedImage A) (c : A)
    (b0 a0 b1 a1 : nat) (pw : pad_tuple_arg) :
  data (signal self) <> [] ->
  (length (navigation_axes (signal self)) <= 1)%nat ->
  (forall plane : list (list A),
      np_pad_arg plane pw c = Ok (pad_constant c b0 a0 b1 a1 plane)) ->
  set_padding self (Some pw) c = Ok (set_padding_result self c b0 a0 b1 a1 pw).
Proof.
  intros Hne Hnav Hpad. unfold set_padding, set_padding_result.
  rewrite (mapM_pointwise _ (pad_constant c b0 a0 b1 a1)) by exact Hpad.
  cbn [bind].
  destruct (length (navigation_axes (signal self))) as [|[|n]]; [| |lia].
  - reflexivity.
  - destruct (data (signal self)); [congruence|reflexivity].
Qed.

Lemma np_pad_two_pairs {A : Type} (plane : list (list A)) (c : A)
    (b0 a0 b1 a1 : Z) :
  (0 <= b0)%Z -> (0 <= a0)%Z -> (0 <= b1)%Z -> (0 <= a1)%Z ->
  np_pad plane [[b0; a0]; [b1; a1]] c
  = Ok (pad_constant c (Z.to_nat b0) (Z.to_nat a0) (Z.to_nat b1) (Z.to_nat a1)
                     plane).
Proof.
  intros H0 H1 H2 H3. unfold np_pad, broadcast_pad_width. cbn [forallb].
  rewrite !(proj2 (Z.leb_le _ _)) by assumption. reflexivity.
Qed.

Lemma np_pad_one_pair {A : Type} (plane : list (list A)) (c : A) (b a : Z) :
  (0 <= b)%Z -> (0 <= a)%Z ->
  np_pad plane [[b; a]] c
  = Ok (pad_constant c (Z.to_nat b) (Z.to_nat a) (Z.to_nat b) (Z.to_nat a)
                     plane).
Proof.
  intros H0 H1. unfold np_pad, broadcast_pad_width. cbn [forallb].
  rewrite !(proj2 (Z.leb_le _ _)) by assumption. reflexivity.
Qed.

Lemma np_pad_one_value {A : Type} (plane : list (list A)) (c : A) (n : Z) :
  (0 <= n)%Z ->
  np_pad plane [[n]] c
  = Ok (pad_constant c (Z.to_nat n) (Z.to_nat n) (Z.to_nat n) (Z.to_nat n)
                     plane).
Proof.
  intros H0. unfold np_pad, broadcast_pad_width. cbn [forallb].
  rewrite !(proj2 (Z.leb_le _ _)) by assumption. reflexivity.
Qed.

Lemma np_pad_two_values {A : Type} (plane : list (list A)) (c : A)
    (v0 v1 : Z) :
  (0 <= v0)%Z -> (0 <= v1)%Z ->
  np_pad plane [[v0]; [v1]] c
  = Ok (pad_constant c (Z.to_nat v0) (Z.to_nat v0) (Z.to_nat v1) (Z.to_nat v1)
                     plane).
Proof.
  intros H0 H1. unfold np_pad, broadcast_pad_width. cbn [forallb].
  rewrite !(proj2 (Z.leb_le _ _)) by assumption. reflexivity.
Qed.

Lemma pad_constant_rows {A : Type} (c : A) (b0 a0 b1 a1 : nat)
    (plane : list (list A)) (Nx : nat) :
  (0 < length plane)%nat ->
  Forall (fun row => length row = Nx) plane ->
  length (pad_constant c b0 a0 b1 a1 plane) = (b0 + length plane + a0)%nat
  /\ length (hd [] (pad_constant c b0 a0 b1 a1 plane)) = (b1 + Nx + a1)%nat.
Proof.
  intros Hp Hrows. unfold pad_constant.
  rewrite !length_app, !repeat_length, length_map. split; [lia|].
  destruct plane as [|row t]; [simpl in Hp; lia|].
  inversion Hrows as [|? ? Hrow _]; subst.
  destruct b0 as [|b0]; cbn [repeat app map hd].
  - rewrite !length_app, !repeat_length. lia.
  - rewrite repeat_length. cbn [hd]. lia.
Qed.

Lemma slice_index_start (len : nat) (b : Z) :
  (0 <= b)%Z -> (Z.to_nat b <= len)%nat -> slice_index len b = Z.to_nat b.
Proof.
  intros Hb Hl. unfold slice_index. destruct (Z.ltb_spec b 0); [lia|].
  apply Nat.min_l. exact Hl.
Qed.

Lemma slice_index_stop (len n : nat) (a : Z) :
  (0 <= a)%Z -> len = (n + Z.to_nat a)%nat ->
  slice_index len (Z.of_nat len - a) = n.
Proof.
  intros Ha Hl. unfold slice_index.
  destruct (Z.ltb_spec (Z.of_nat len - a) 0); [lia|].
  rewrite Nat.min_l by lia. lia.
Qed.

(** Cropping a padded plane with the bounds [unset_padding] computes. *)
Lemma crop_padded_plane {A : Type} (c : A) (b0 a0 b1 a1 : Z)
    (plane : list (list A)) (Nx : nat) :
  (0 <= b0)%Z -> (0 <= a0)%Z -> (0 <= b1)%Z -> (0 <= a1)%Z ->
  Forall (fun row => length row = Nx) plane ->
  map (py_slice_int b1
         (Z.of_nat (Z.to_nat b1 + Nx + Z.to_nat a1) - a1))
      (py_slice_int b0
         (Z.of_nat (Z.to_nat b0 + length plane + Z.to_nat a0) - a0)
         (pad_constant c (Z.to_nat b0) (Z.to_nat a0) (Z.to_nat b1)
                       (Z.to_nat a1) plane))
  = plane.
Proof.
  intros H0 H1 H2 H3 Hrows.
  set (nb0 := Z.to_nat b0). set (na0 := Z.to_nat a0).
  set (nb1 := Z.to_nat b1). set (na1 := Z.to_nat a1).
  assert (Hlen : length (pad_constant c nb0 na0 nb1 na1 plane)
                 = (nb0 + length plane + na0)%nat).
  { unfold pad_constant.
    rewrite !length_app, !repeat_length, length_map. lia. }
  unfold py_slice_int at 2. rewrite Hlen.
  rewrite slice_index_start by (fold nb0; lia).
  rewrite (slice_index_stop _ (nb0 + length plane)) by (fold na0; lia).
  fold nb0. unfold pad_constant.
  set (width := (nb1 + length (hd [] plane) + na1)%nat).
  rewrite <- (repeat_length (repeat c width) nb0) at 1 2.
  rewrite <- (length_map (fun row => repeat c nb1 ++ row ++ repeat c na1)
                         plane).
  rewrite py_slice_middle. rewrite map_map.
  rewrite <- (map_id plane) at 2. apply map_ext_in. intros row Hrow.
  rewrite Forall_forall in Hrows. specialize (Hrows row Hrow).
  unfold py_slice_int. rewrite !length_app, !repeat_length, Hrows.
  replace (nb1 + (Nx + na1))%nat with (nb1 + Nx + na1)%nat by lia.
  rewrite slice_index_start by (fold nb1; lia).
  rewrite (slice_index_stop _ (nb1 + Nx)) by (fold na1; lia).
  fold nb1. rewrite <- (repeat_length c nb1) at 1 2. rewrite <- Hrows.
  apply py_slice_middle.
Qed.

Lemma modified_image_eq {A : Type} (a b : ModifiedImage A) :
  signal a = signal b -> pad_tuple a = pad_tuple b -> a = b.
Proof. destruct a, b. simpl. intros; subst. reflexivity. Qed.

Lemma get_dimensions_cons {A : Type} (p : list (list A))
    (r : list (list (list A))) (nav : list DataAxis) (x y : DataAxis)
    (m : Metadata) :
  get_dimensions_from_data (mkImage (p :: r) nav x y m)
  = mkImage (p :: r) nav (set_size x (length (hd [] p)))
            (set_size y (length p)) m.
Proof. reflexivity. Qed.

Lemma unset_padding_of_padded {A : Type} (self : ModifiedImage A) (c : A)
    (b0 a0 b1 a1 : Z) :
  well_formed (signal self) -> data (signal self) <> [] ->
  pad_tuple self = None ->
  (0 <= b0)%Z -> (0 <= a0)%Z -> (0 <= b1)%Z -> (0 <= a1)%Z ->
  unset_padding
    (set_padding_result self c (Z.to_nat b0) (Z.to_nat a0) (Z.to_nat b1)
                        (Z.to_nat a1) (TupleNested [[b0; a0]; [b1; a1]]))
  = Ok self.
Proof.
  intros [Hx [Hy Hwf]] Hne Htuple H0 H1 H2 H3.
  unfold set_padding_result, unset_padding.
  cbn [pad_tuple unpack_pad_tuple bind signal fst snd].
  destruct (data (signal self)) as [|p0 rest] eqn:Hd; [congruence|].
  clear Hne.
  set (Nx := size (x_axis (signal self))) in *.
  set (Ny := size (y_axis (signal self))) in *.
  assert (Hp0 : length p0 = Ny /\ Forall (fun row => length row = Nx) p0).
  { inversion Hwf; subst. assumption. }
  destruct Hp0 as [Hp0 Hrows0].
  destruct (pad_constant_rows c (Z.to_nat b0) (Z.to_nat a0) (Z.to_nat b1)
                              (Z.to_nat a1) p0 Nx) as [Hlen Hhd];
    [lia|assumption|].
  cbn [map]. rewrite !get_dimensions_cons.
  cbn [data navigation_axes x_axis y_axis metadata map set_size size].
  rewrite get_dimensions_cons.
  rewrite Hlen, Hhd, Hp0.
  assert (Hhead :
            map (py_slice_int b1
                   (Z.of_nat (Z.to_nat b1 + Nx + Z.to_nat a1) - a1))
                (py_slice_int b0
                   (Z.of_nat (Z.to_nat b0 + Ny + Z.to_nat a0) - a0)
                   (pad_constant c (Z.to_nat b0) (Z.to_nat a0) (Z.to_nat b1)
                                 (Z.to_nat a1) p0))
            = p0).
  { rewrite <- Hp0. apply crop_padded_plane; assumption. }
  assert (Htail :
            map (fun plane =>
                   map (py_slice_int b1
                          (Z.of_nat (Z.to_nat b1 + Nx + Z.to_nat a1) - a1))
                       (py_slice_int b0
                          (Z.of_nat (Z.to_nat b0 + Ny + Z.to_nat a0) - a0)
                          plane))
                (map (pad_constant c (Z.to_nat b0) (Z.to_nat a0) (Z.to_nat b1)
                                   (Z.to_nat a1)) rest)
            = rest).
  { rewrite map_map. rewrite <- (map_id rest) at 2.
    apply map_ext_in. intros plane Hin. rewrite Forall_forall in Hwf.
    destruct (Hwf plane (or_intror Hin)) as [Hrows Hcols].
    rewrite <- Hrows. apply crop_padded_plane; assumption. }
  rewrite Hhead, Htail. f_equal.
  apply modified_image_eq; cbn [signal pad_tuple]; [|symmetry; exact Htuple].
  apply image_eq; cbn [data navigation_axes x_axis y_axis metadata].
  - symmetry. exact Hd.
  - reflexivity.
  - apply axis_eq; cbn [set_size size scale offset units]; try reflexivity.
    destruct p0 as [|row t]; [simpl in Hp0; lia|].
    inversion Hrows0 as [|? ? Hrow _]. exact Hrow.
  - apply axis_eq; cbn [set_size size scale offset units]; try reflexivity.
    exact Hp0.
  - reflexivity.
Qed.

Lemma set_padding_two_pairs {A : Type} (self : ModifiedImage A) (c : A)
    (b0 a0 b1 a1 : Z) :
  data (signal self) <> [] ->
  (length (navigation_axes (signal self)) <= 1)%nat ->
  (0 <= b0)%Z -> (0 <= a0)%Z -> (0 <= b1)%Z -> (0 <= a1)%Z ->
  set_padding self (Some (TupleNested [[b0; a0]; [b1; a1]])) c
  = Ok (set_padding_result self c (Z.to_nat b0) (Z.to_nat a0) (Z.to_nat b1)
                           (Z.to_nat a1) (TupleNested [[b0; a0]; [b1; a1]])).
Proof.
  intros Hne Hnav H0 H1 H2 H3. apply set_padding_resolved; try assumption.
  intros plane. cbn [np_pad_arg forallb length Nat.eqb andb negb].
  apply np_pad_two_pairs; assumption.
Qed.

(** X19.  [unset_padding] undoes [set_padding] when the widths are given as
    two (before, after) pairs, the first for the rows ([y]) and the second
    for the columns ([x]): the image comes back with its array, axes and
    metadata, also when some of the widths are zero.  The image has at most
    one navigation axis. *)
Theorem unset_padding_undoes_set_padding :
  forall (A : Type) (self : ModifiedImage A) (c : A) (b0 a0 b1 a1 : Z),
    well_formed (signal self) -> data (signal self) <> [] ->
    (length (navigation_axes (signal self)) <= 1)%nat ->
    pad_tuple self = None ->
    (0 <= b0)%Z -> (0 <= a0)%Z -> (0 <= b1)%Z -> (0 <= a1)%Z ->
    exists padded,
      set_padding self (Some (TupleNested [[b0; a0]; [b1; a1]])) c = Ok padded
      /\ data (signal padded)
         = map (pad_constant c (Z.to_nat b0) (Z.to_nat a0) (Z.to_nat b1)
                             (Z.to_nat a1)) (data (signal self))
      /\ unset_padding padded = Ok self.
Proof.
  intros A self c b0 a0 b1 a1 Hwf Hne Hnav Htuple H0 H1 H2 H3.
  eexists. split; [apply set_padding_two_pairs; assumption|].
  split.
  - unfold set_padding_result, get_dimensions_from_data.
    cbn [signal data].
    destruct (map _ (data (signal self))); reflexivity.
  - apply unset_padding_of_padded; assumption.
Qed.

Lemma modified_image_2x2_well_formed : well_formed (signal modified_image_2x2).
Proof. unfold well_formed. simpl. repeat constructor. Qed.

Lemma unset_padding_undoes_set_padding_witness :
  exists padded,
    set_padding modified_image_2x2 (Some (TupleNested [[1; 0]; [0; 2]]%Z)) 0
    = Ok padded
    /\ data (signal padded)
       = map (pad_constant 0 (Z.to_nat 1) (Z.to_nat 0) (Z.to_nat 0)
                           (Z.to_nat 2)) (data (signal modified_image_2x2))
    /\ unset_padding padded = Ok modified_image_2x2.
Proof.
  apply (unset_padding_undoes_set_padding R modified_image_2x2 0 1 0 0 2).
  - exact modified_image_2x2_well_formed.
  - discriminate.
  - simpl. lia.
  - reflexivity.
  - lia.
  - lia.
  - lia.
  - lia.
Defined.

(** X20.  The short forms of [pad_width] that [set_padding] accepts, an
    [int], [(pad,)], [(before, after)], [((before, after),)] and
    [((pad_y,), (pad_x,))], pad the image, but [unset_padding] cannot read
    them back: it raises [TypeError], [ValueError], [TypeError],
    [ValueError] and [IndexError]. *)
Theorem unset_padding_fails_on_short_pad_widths :
  forall (A : Type) (self : ModifiedImage A) (c : A) (n b a : Z),
    data (signal self) <> [] ->
    (length (navigation_axes (signal self)) <= 1)%nat ->
    (0 <= n)%Z -> (0 <= b)%Z -> (0 <= a)%Z ->
    (exists padded,
        set_padding self (Some (TupleInt n)) c = Ok padded
        /\ unset_padding padded = Raise TypeError)
    /\ (exists padded,
        set_padding self (Some (TupleFlat [n])) c = Ok padded
        /\ unset_padding padded = Raise ValueError)
    /\ (exists padded,
        set_padding self (Some (TupleFlat [b; a])) c = Ok padded
        /\ unset_padding padded = Raise TypeError)
    /\ (exists padded,
        set_padding self (Some (TupleNested [[b; a]])) c = Ok padded
        /\ unset_padding padded = Raise ValueError)
    /\ (exists padded,
        set_padding self (Some (TupleNested [[b]; [a]])) c = Ok padded
        /\ unset_padding padded = Raise IndexError).
Proof.
  intros A self c n b a Hne Hnav Hn Hb Ha.
  assert (Hone := fun plane : list (list A) => np_pad_one_value plane c n Hn).
  assert (Hpair := fun plane : list (list A) =>
                     np_pad_one_pair plane c b a Hb Ha).
  assert (Htwo := fun plane : list (list A) =>
                    np_pad_two_values plane c b a Hb Ha).
  split; [|split; [|split; [|split]]].
  - eexists. split.
    + exact (set_padding_resolved self c _ _ _ _ (TupleInt n) Hne Hnav Hone).
    + reflexivity.
  - eexists. split.
    + exact (set_padding_resolved self c _ _ _ _ (TupleFlat [n]) Hne Hnav
                                  Hone).
    + reflexivity.
  - eexists. split.
    + exact (set_padding_resolved self c _ _ _ _ (TupleFlat [b; a]) Hne Hnav
                                  Hpair).
    + reflexivity.
  - eexists. split.
    + exact (set_padding_resolved self c _ _ _ _ (TupleNested [[b; a]])
                                  Hne Hnav Hpair).
    + reflexivity.
  - eexists. split.
    + exact (set_padding_resolved self c _ _ _ _ (TupleNested [[b]; [a]])
                                  Hne Hnav Htwo).
    + reflexivity.
Qed.

Lemma unset_padding_fails_on_short_pad_widths_witness :
  (exists padded,
      set_padding modified_image_2x2 (Some (TupleInt 1)) 0 = Ok padded
      /\ unset_padding padded = Raise TypeError)
  /\ (exists padded,
      set_padding modified_image_2x2 (Some (TupleFlat [1%Z])) 0 = Ok padded
      /\ unset_padding padded = Raise ValueError)
  /\ (exists padded,
      set_padding modified_image_2x2 (Some (TupleFlat [2; 3]%Z)) 0 = Ok padded
      /\ unset_padding padded = Raise TypeError)
  /\ (exists padded,
      set_padding modified_image_2x2 (Some (TupleNested [[2; 3]]%Z)) 0
      = Ok padded
      /\ unset_padding padded = Raise ValueError)
  /\ (exists padded,
      set_padding modified_image_2x2 (Some (TupleNested [[2]; [3]]%Z)) 0
      = Ok padded
      /\ unset_padding padded = Raise IndexError).
Proof.
  apply (unset_padding_fails_on_short_pad_widths R modified_image_2x2 0 1 2 3).
  - discriminate.
  - simpl. lia.
  - lia.
  - lia.
  - lia.
Defined.

(** ** Construction of the validation object *)

(** X21.  With [unpad=True] the validation object built from two images
    padded by [set_padding] holds the two original images: it is the object
    that [unpad=False] builds from the originals. *)
Theorem validation_unpads_padded_images :
  forall (observed expected : ModifiedImage R) (co ce : R)
         (ob0 oa0 ob1 oa1 eb0 ea0 eb1 ea1 : Z),
    well_formed (signal observed) -> data (signal observed) <> [] ->
    (length (navigation_axes (signal observed)) <= 1)%nat ->
    pad_tuple observed = None ->
    well_formed (signal expected) -> data (signal expected) <> [] ->
    (length (navigation_axes (signal expected)) <= 1)%nat ->
    pad_tuple expected = None ->
    (0 <= ob0)%Z /\ (0 <= oa0)%Z /\ (0 <= ob1)%Z /\ (0 <= oa1)%Z ->
    (0 <= eb0)%Z /\ (0 <= ea0)%Z /\ (0 <= eb1)%Z /\ (0 <= ea1)%Z ->
    exists po pe,
      set_padding observed (Some (TupleNested [[ob0; oa0]; [ob1; oa1]])) co
      = Ok po
      /\ set_padding expected (Some (TupleNested [[eb0; ea0]; [eb1; ea1]])) ce
         = Ok pe
      /\ validation_init po pe true
         = Ok (mkValidation (signal observed) (signal expected))
      /\ validation_init observed expected false
         = Ok (mkValidation (signal observed) (signal expected)).
Proof.
  intros observed expected co ce ob0 oa0 ob1 oa1 eb0 ea0 eb1 ea1
         Hwo Hno Hnavo Hto Hwe Hne Hnave Hte
         [Ho0 [Ho1 [Ho2 Ho3]]] [He0 [He1 [He2 He3]]].
  eexists. eexists.
  split; [apply set_padding_two_pairs; assumption|].
  split; [apply set_padding_two_pairs; assumption|].
  split; [|reflexivity].
  unfold validation_init, _set_image.
  rewrite !unset_padding_of_padded by assumption.
  reflexivity.
Qed.

Lemma validation_unpads_padded_images_witness :
  exists po pe,
    set_padding modified_image_2x2 (Some (TupleNested [[1; 1]; [2; 2]]%Z)) 0
    = Ok po
    /\ set_padding modified_image_2x2 (Some (TupleNested [[0; 3]; [1; 0]]%Z)) 9
       = Ok pe
    /\ validation_init po pe true
       = Ok (mkValidation (signal modified_image_2x2)
                          (signal modified_image_2x2))
    /\ validation_init modified_image_2x2 modified_image_2x2 false
       = Ok (mkValidation (signal modified_image_2x2)
                          (signal modified_image_2x2)).
Proof.
  apply (validation_unpads_padded_images modified_image_2x2 modified_image_2x2
           0 9 1 1 2 2 0 3 1 0).
  - exact modified_image_2x2_well_formed.
  - discriminate.
  - simpl. lia.
  - reflexivity.
  - exact modified_image_2x2_well_formed.
  - discriminate.
  - simpl. lia.
  - reflexivity.
  - lia.
  - lia.
Defined.

(** ** Arrays of one shape *)

Lemma Forall2_combine_In {A B : Type} (P : A -> B -> Prop) (a : list A)
    (b : list B) (x : A) (y : B) :
  Forall2 P a b -> In (x, y) (combine a b) -> P x y.
Proof.
  induction 1 as [|u v a b Huv _ IH]; intros Hin; [destruct Hin|].
  destruct Hin as [Heq|Hin]; [injection Heq as <- <-; exact Huv|].
  apply IH, Hin.
Qed.

Lemma Forall2_refl_all {A : Type} (P : A -> A -> Prop) (l : list A) :
  (forall x, P x x) -> Forall2 P l l.
Proof. intros H. induction l; constructor; auto. Qed.

Lemma same_shape_refl {A : Type} (a : list (list (list A))) : same_shape a a.
Proof.
  apply Forall2_refl_all. intros p. apply Forall2_refl_all. reflexivity.
Qed.

Lemma same_shape_map_l {A B D : Type} (f : A -> D) (a : list (list (list A)))
    (b : list (list (list B))) :
  same_shape a b -> same_shape (map (map (map f)) a) b.
Proof.
  unfold same_shape. intros H.
  induction H as [|p q a b Hpq _ IH]; cbn [map]; constructor; [|exact IH].
  induction Hpq as [|r s p q Hrs _ IHp]; cbn [map]; constructor;
    [|exact IHp].
  rewrite length_map. exact Hrs.
Qed.

Lemma same_shape_map_r {A B D : Type} (f : B -> D) (a : list (list (list A)))
    (b : list (list (list B))) :
  same_shape a b -> same_shape a (map (map (map f)) b).
Proof.
  unfold same_shape. intros H.
  induction H as [|p q a b Hpq _ IH]; cbn [map]; constructor; [|exact IH].
  induction Hpq as [|r s p q Hrs _ IHp]; cbn [map]; constructor;
    [|exact IHp].
  rewrite length_map. exact Hrs.
Qed.

Lemma mapM_pointwise_in {A B : Type} (f : A -> result B) (h : A -> B)
    (l : list A) :
  (forall a, In a l -> f a = Ok (h a)) -> mapM f l = Ok (map h l).
Proof.
  induction l as [|a t IH]; intros H; simpl; [reflexivity|].
  rewrite (H a (or_introl eq_refl)), IH by (intros; apply H; right; auto).
  reflexivity.
Qed.

Lemma broadcast_same_length {A B D : Type} (F : A -> B -> result D)
    (G : A -> B -> D) (a : list A) (b : list B) :
  length a = length b ->
  (forall x y, In (x, y) (combine a b) -> F x y = Ok (G x y)) ->
  broadcast F a b = Ok (map2 G a b).
Proof.
  intros Hl H. unfold broadcast. rewrite (proj2 (Nat.eqb_eq _ _) Hl).
  unfold map2. apply mapM_pointwise_in. intros [x y] Hin. apply H, Hin.
Qed.

Lemma broadcast_planes_same_shape {A B D : Type} (f : A -> B -> D)
    (a : list (list (list A))) (b : list (list (list B))) :
  same_shape a b -> broadcast_planes f a b = Ok (zip_planes f a b).
Proof.
  intros H. unfold broadcast_planes, zip_planes.
  apply broadcast_same_length; [eapply Forall2_length; exact H|].
  intros p q Hpq. pose proof (Forall2_combine_In _ _ _ _ _ H Hpq) as Hp.
  apply broadcast_same_length; [eapply Forall2_length; exact Hp|].
  intros r s Hrs. pose proof (Forall2_combine_In _ _ _ _ _ Hp Hrs) as Hr.
  apply broadcast_same_length; [exact Hr|].
  intros x y _. reflexivity.
Qed.

Lemma map2_ext_in {A B D : Type} (F G : A -> B -> D) (l : list A)
    (m : list B) :
  (forall x y, In x l -> In y m -> F x y = G x y) -> map2 F l m = map2 G l m.
Proof.
  intros H. unfold map2. apply map_ext_in. intros [x y] Hin.
  apply H; [eapply in_combine_l | eapply in_combine_r]; exact Hin.
Qed.

Lemma map2_map2_map {A B D E F : Type} (g : D -> E -> F) (f : A -> B -> D)
    (h : B -> E) (l : list A) (m : list B) :
  map2 g (map2 f l m) (map h m) = map2 (fun x y => g (f x y) (h y)) l m.
Proof.
  unfold map2. revert m.
  induction l as [|x l IH]; intros [|y m]; cbn [combine map fst snd];
    [reflexivity..|]. f_equal. apply IH.
Qed.

Lemma zip_planes_zip_map {A B D E F : Type} (g : D -> E -> F)
    (f : A -> B -> D) (h : B -> E) (a : list (list (list A)))
    (b : list (list (list B))) :
  zip_planes g (zip_planes f a b) (map (map (map h)) b)
  = zip_planes (fun x y => g (f x y) (h y)) a b.
Proof.
  unfold zip_planes. rewrite map2_map2_map. apply map2_ext_in.
  intros p q _ _. rewrite map2_map2_map. apply map2_ext_in.
  intros r s _ _. apply map2_map2_map.
Qed.

Lemma zip_planes_diag {A D : Type} (f : A -> A -> D)
    (a : list (list (list A))) :
  zip_planes f a a = map (map (map (fun x => f x x))) a.
Proof.
  unfold zip_planes. rewrite map2_diag. apply map_ext. intros p.
  rewrite map2_diag. apply map_ext. intros r. apply map2_diag.
Qed.

Lemma zip_planes_map_both {A B A' B' D : Type} (f : A' -> B' -> D)
    (p : A -> A') (q : B -> B') (a : list (list (list A)))
    (b : list (list (list B))) :
  zip_planes f (map (map (map p)) a) (map (map (map q)) b)
  = zip_planes (fun x y => f (p x) (q y)) a b.
Proof.
  unfold zip_planes. rewrite map2_map_both. apply map2_ext_in.
  intros u v _ _. rewrite map2_map_both. apply map2_ext_in.
  intros r s _ _. apply map2_map_both.
Qed.

Lemma zip_planes_ext {A B D : Type} (f g : A -> B -> D)
    (a : list (list (list A))) (b : list (list (list B))) :
  (forall x y, f x y = g x y) -> zip_planes f a b = zip_planes g a b.
Proof.
  intros H. unfold zip_planes. apply map2_ext_in. intros p q _ _.
  apply map2_ext_in. intros r s _ _. apply map2_ext_in. intros x y _ _.
  apply H.
Qed.

Lemma map2_Forall_all {A B D : Type} (f : A -> B -> D) (P : D -> Prop)
    (l : list A) (m : list B) :
  (forall a b, P (f a b)) -> Forall P (map2 f l m).
Proof.
  intros H. unfold map2. apply Forall_forall. intros d Hd.
  apply in_map_iff in Hd. destruct Hd as [[a b] [<- _]]. apply H.
Qed.

(** ** The chi-square test *)

(** The data of the chi-square image of two images of one shape. *)
Lemma run_chi2_same_shape (o e : Image R) (silent_run : bool) :
  same_shape (data o) (data e) ->
  run_chi2 (mkValidation o e) silent_run
  = (let chi2 :=
       mkImage (zip_planes (fun x y => np_divide ((x - y) * (x - y)) (y * y))
                           (data o) (data e))
               (navigation_axes o) (x_axis o) (y_axis o) (metadata o) in
     Ok (chi2, if silent_run then None else Some chi2)).
Proof.
  intros H. unfold run_chi2. cbn [obs exp].
  rewrite (broadcast_planes_same_shape _ _ _ H). cbn [bind].
  rewrite broadcast_planes_same_shape.
  - cbn [bind]. rewrite zip_planes_zip_map. reflexivity.
  - apply same_shape_map_r.
    unfold same_shape, zip_planes. clear silent_run.
    induction H as [|p q a b Hpq _ IH]; [constructor|].
    unfold map2 in *. cbn [combine map fst snd]. constructor; [|exact IH].
    clear IH. induction Hpq as [|r s p q Hrs _ IHp]; [constructor|].
    cbn [combine map fst snd]. constructor; [|exact IHp].
    rewrite length_map, length_combine, Hrs, Nat.min_id. reflexivity.
Qed.

(** X22.  The chi-square of an image against itself is 0 at every pixel
    that is not zero and NaN (0/0) at every pixel that is zero; it carries
    the axes and metadata of the image.  With [silent_run] the image is
    stored but not returned. *)
Theorem run_chi2_of_an_image_with_itself :
  forall (image : Image R) (silent_run : bool),
    run_chi2 (mkValidation image image) silent_run
    = Ok (map_data (fun v => if Req_dec_T v 0 then NaN else Finite 0) image,
          if silent_run then None
          else Some (map_data (fun v => if Req_dec_T v 0 then NaN
                                        else Finite 0) image)).
Proof.
  intros image silent_run.
  rewrite run_chi2_same_shape by apply same_shape_refl. cbv zeta.
  assert (Hd : zip_planes (fun x y => np_divide ((x - y) * (x - y)) (y * y))
                          (data image) (data image)
               = map (map (map (fun v => if Req_dec_T v 0 then NaN
                                         else Finite 0))) (data image)).
  { rewrite zip_planes_diag. apply map_ext. intros p. apply map_ext.
    intros r. apply map_ext. intros v. unfold np_divide.
    destruct (Req_dec_T v 0) as [->|Hv].
    - destruct (Req_dec_T (0 * 0) 0) as [_|Hn]; [|lra].
      destruct (Req_dec_T ((0 - 0) * (0 - 0)) 0) as [_|Hn]; [reflexivity|lra].
    - destruct (Req_dec_T (v * v) 0) as [Hz|_].
      + exfalso. apply Hv. apply Rmult_integral in Hz. tauto.
      + f_equal. field. exact Hv. }
  rewrite Hd. reflexivity.
Qed.

(** X23.  The chi-square does not change when both images are multiplied by
    the same factor [c <> 0] (images of one shape): the finite values, the
    infinities where only the expected pixel is zero and the NaNs where both
    pixels are zero all stay where they are. *)
Theorem run_chi2_is_scale_invariant :
  forall (observed expected : Image R) (c : R) (silent_run : bool),
    same_shape (data observed) (data expected) -> c <> 0 ->
    exists chi2,
      run_chi2 (mkValidation observed expected) silent_run
      = Ok (chi2, if silent_run then None else Some chi2)
      /\ run_chi2 (mkValidation (map_data (Rmult c) observed)
                                (map_data (Rmult c) expected)) silent_run
         = Ok (chi2, if silent_run then None else Some chi2)
      /\ Forall (Forall (Forall (fun v => match v with
                                          | Finite q => 0 <= q
                                          | PosInf | NaN => True
                                          | NegInf => False
                                          end))) (data chi2).
Proof.
  intros o e c silent_run H Hc.
  eexists. split; [apply run_chi2_same_shape, H|]. split.
  - rewrite run_chi2_same_shape
      by (cbn [map_data data]; apply same_shape_map_l, same_shape_map_r, H).
    cbv zeta. cbn [map_data data navigation_axes x_axis y_axis metadata].
    rewrite zip_planes_map_both.
    rewrite (zip_planes_ext
               (fun x y => np_divide ((c * x - c * y) * (c * x - c * y))
                                     (c * y * (c * y)))
               (fun x y => np_divide ((x - y) * (x - y)) (y * y))).
    + reflexivity.
    + intros x y. unfold np_divide.
      assert (Hcc : 0 < c * c) by nra.
      replace (c * y * (c * y)) with (c * c * (y * y)) by ring.
      replace ((c * x - c * y) * (c * x - c * y))
        with (c * c * ((x - y) * (x - y))) by ring.
      destruct (Req_dec_T (y * y) 0) as [Hy|Hy].
      * rewrite Hy, Rmult_0_r.
        destruct (Req_dec_T 0 0) as [_|Hn]; [|lra].
        destruct (Req_dec_T ((x - y) * (x - y)) 0) as [Hx|Hx].
        -- rewrite Hx, Rmult_0_r.
           destruct (Req_dec_T 0 0) as [_|Hn]; [reflexivity|lra].
        -- destruct (Req_dec_T (c * c * ((x - y) * (x - y))) 0) as [Hz|_].
           ++ apply Rmult_integral in Hz. destruct Hz; [lra|contradiction].
           ++ assert (0 < (x - y) * (x - y)) by nra.
              destruct (Rlt_dec 0 (c * c * ((x - y) * (x - y)))) as [_|Hn];
                [|nra].
              destruct (Rlt_dec 0 ((x - y) * (x - y))) as [_|Hn];
                [reflexivity|lra].
      * destruct (Req_dec_T (c * c * (y * y)) 0) as [Hz|_].
        -- apply Rmult_integral in Hz. destruct Hz; [lra|contradiction].
        -- f_equal. field.
           repeat split; try assumption; intro E; apply Hy; rewrite E; ring.
  - cbn [data]. unfold zip_planes.
    apply map2_Forall_all. intros p q. apply map2_Forall_all. intros r s.
    apply map2_Forall_all. intros x y. unfold np_divide.
    destruct (Req_dec_T (y * y) 0) as [Hy|Hy].
    + destruct (Req_dec_T ((x - y) * (x - y)) 0) as [Hx|Hx]; [exact I|].
      destruct (Rlt_dec 0 ((x - y) * (x - y))) as [_|Hn]; [exact I|nra].
    + unfold Rdiv. apply Rmult_le_pos; [apply (Rle_0_sqr (x - y))|].
      apply Rlt_le, Rinv_0_lt_compat. apply (Rlt_0_sqr y).
      intros ->. apply Hy. ring.
Qed.

Lemma same_shape_1x2 : same_shape (data observed_1x2) (data expected_1x2).
Proof. repeat constructor. Qed.

Lemma run_chi2_is_scale_invariant_witness :
  exists chi2,
    run_chi2 (mkValidation observed_1x2 expected_1x2) false
    = Ok (chi2, if false then None else Some chi2)
    /\ run_chi2 (mkValidation (map_data (Rmult 2) observed_1x2)
                              (map_data (Rmult 2) expected_1x2)) false
       = Ok (chi2, if false then None else Some chi2)
    /\ Forall (Forall (Forall (fun v => match v with
                                        | Finite q => 0 <= q
                                        | PosInf | NaN => True
                                        | NegInf => False
                                        end))) (data chi2).
Proof.
  apply (run_chi2_is_scale_invariant observed_1x2 expected_1x2 2 false).
  - exact same_shape_1x2.
  - lra.
Defined.

(** ** Flattening *)

Lemma flat_map3 {A B : Type} (f : A -> B) (a : list (list (list A))) :
  ravel (concat (map (map (map f)) a)) = map f (ravel (concat a)).
Proof. unfold ravel. rewrite !concat_map. reflexivity. Qed.

Lemma map2_app {A B D : Type} (f : A -> B -> D) (l1 l2 : list A)
    (m1 m2 : list B) :
  length l1 = length m1 ->
  map2 f (l1 ++ l2) (m1 ++ m2) = map2 f l1 m1 ++ map2 f l2 m2.
Proof.
  unfold map2. revert m1.
  induction l1 as [|x l1 IH]; intros [|y m1] H; simpl in *; try discriminate;
    [reflexivity|]. f_equal. apply IH. lia.
Qed.

Lemma concat_map2 {A B D : Type} (g : A -> B -> D) (l : list (list A))
    (m : list (list B)) :
  Forall2 (fun u v => length u = length v) l m ->
  concat (map2 (map2 g) l m) = map2 g (concat l) (concat m).
Proof.
  induction 1 as [|u v l m Huv _ IH]; [reflexivity|].
  unfold map2 at 1. cbn [combine map fst snd concat].
  fold (map2 (map2 g) l m). rewrite IH. symmetry. apply map2_app, Huv.
Qed.

Lemma same_shape_concat {A B : Type} (a : list (list (list A)))
    (b : list (list (list B))) :
  same_shape a b ->
  Forall2 (fun u v => length u = length v) (concat a) (concat b).
Proof.
  induction 1 as [|p q a b Hpq _ IH]; [constructor|].
  cbn [concat]. apply Forall2_app; assumption.
Qed.

Lemma flat_zip {A B D : Type} (f : A -> B -> D) (a : list (list (list A)))
    (b : list (list (list B))) :
  same_shape a b ->
  ravel (concat (zip_planes f a b))
  = map2 f (ravel (concat a)) (ravel (concat b)).
Proof.
  intros H. unfold ravel, zip_planes.
  rewrite (concat_map2 (map2 f)).
  - apply concat_map2, same_shape_concat, H.
  - clear f. induction H as [|p q a b Hpq _ IH]; constructor; [|exact IH].
    eapply Forall2_length. exact Hpq.
Qed.

Lemma flat_length {A B : Type} (a : list (list (list A)))
    (b : list (list (list B))) :
  same_shape a b ->
  length (ravel (concat a)) = length (ravel (concat b)).
Proof.
  intros H. apply same_shape_concat in H. unfold ravel.
  induction H as [|u v l m Huv _ IH]; [reflexivity|].
  cbn [concat]. rewrite !length_app, Huv, IH. reflexivity.
Qed.

(** ** The r-value *)

Lemma nan_sum_some (l : list R) : nan_sum (map Some l) = Some (Rsum l).
Proof.
  induction l as [|x l IH]; [reflexivity|].
  cbn [map nan_sum fold_right] in *. unfold nan_sum in IH. rewrite IH.
  reflexivity.
Qed.

Lemma nan_sum_none (l : list (option R)) : In None l -> nan_sum l = None.
Proof.
  induction l as [|x l IH]; intros Hin; [destruct Hin|].
  cbn [nan_sum fold_right]. destruct Hin as [->|Hin]; [reflexivity|].
  fold (nan_sum l). rewrite (IH Hin). destruct x; reflexivity.
Qed.

Lemma np_sqrt_nonneg (x : R) : 0 <= x -> np_sqrt x = Some (sqrt x).
Proof.
  intros H. unfold np_sqrt. destruct (Rlt_dec x 0); [lra|reflexivity].
Qed.

Lemma sqrt_of_square (d : R) : sqrt (d * d) = Rabs d.
Proof. apply (sqrt_Rsqr_abs d). Qed.

(** The two sums of [run_rvalue] for images of one shape. *)
Lemma run_rvalue_same_shape (o e : Image R) (silent_run : bool) :
  same_shape (data o) (data e) ->
  run_rvalue (mkValidation o e) silent_run
  = (let num :=
       nan_sum (map (option_map (fun d => sqrt (d * d)))
                    (map2 (fun x y => nan_sub (np_sqrt x) (np_sqrt y))
                          (pixels o) (pixels e))) in
     let den := nan_sum (map np_sqrt (pixels e)) in
     let rvalue := match num, den with
                   | Some n, Some d => np_divide n d
                   | _, _ => NaN
                   end in
     Ok (rvalue, if silent_run then None else Some rvalue)).
Proof.
  intros H. unfold run_rvalue. cbn [obs exp].
  rewrite broadcast_planes_same_shape
    by (apply same_shape_map_l, same_shape_map_r, H).
  cbn [bind]. rewrite zip_planes_map_both, !flat_map3.
  rewrite (flat_zip _ _ _ H). reflexivity.
Qed.

(** X24.  For two images of one shape without negative pixel, the expected
    one not being zero everywhere, [run_rvalue] is the sum of
    [|sqrt(obs) - sqrt(exp)|] over the pixels divided by the sum of
    [sqrt(exp)]: a finite number that is not negative, and zero when the two
    images hold the same values. *)
Theorem run_rvalue_of_intensities :
  forall (observed expected : Image R) (silent_run : bool),
    same_shape (data observed) (data expected) ->
    Forall (fun v => 0 <= v) (pixels observed) ->
    Forall (fun v => 0 <= v) (pixels expected) ->
    0 < Rsum (map sqrt (pixels expected)) ->
    exists r,
      r = Rsum (map2 (fun x y => Rabs (sqrt x - sqrt y))
                     (pixels observed) (pixels expected))
          / Rsum (map sqrt (pixels expected))
      /\ run_rvalue (mkValidation observed expected) silent_run
         = Ok (Finite r, if silent_run then None else Some (Finite r))
      /\ 0 <= r
      /\ (pixels observed = pixels expected -> r = 0).
Proof.
  intros o e silent_run H Ho He Hden.
  eexists. split; [reflexivity|].
  assert (Hnum : map (option_map (fun d => sqrt (d * d)))
                     (map2 (fun x y => nan_sub (np_sqrt x) (np_sqrt y))
                           (pixels o) (pixels e))
                 = map Some (map2 (fun x y => Rabs (sqrt x - sqrt y))
                                  (pixels o) (pixels e))).
  { unfold map2. rewrite !map_map. apply map_ext_in. intros [x y] Hin.
    cbn [fst snd]. rewrite Forall_forall in Ho, He.
    rewrite (np_sqrt_nonneg x) by (apply Ho; eapply in_combine_l; exact Hin).
    rewrite (np_sqrt_nonneg y) by (apply He; eapply in_combine_r; exact Hin).
    cbn [nan_sub option_map]. rewrite sqrt_of_square. reflexivity. }
  assert (Hd : map np_sqrt (pixels e) = map Some (map sqrt (pixels e))).
  { rewrite map_map. apply map_ext_in. intros y Hy.
    rewrite Forall_forall in He. apply np_sqrt_nonneg, He, Hy. }
  assert (Hpos : 0 <= Rsum (map2 (fun x y => Rabs (sqrt x - sqrt y))
                                 (pixels o) (pixels e))).
  { apply Rsum_nonneg. apply map2_Forall_all. intros a b. apply Rabs_pos. }
  split; [|split].
  - rewrite run_rvalue_same_shape by exact H. cbv zeta.
    rewrite Hnum, Hd, !nan_sum_some. unfold np_divide.
    destruct (Req_dec_T (Rsum (map sqrt (pixels e))) 0) as [Hz|_]; [lra|].
    reflexivity.
  - unfold Rdiv. apply Rmult_le_pos; [exact Hpos|].
    apply Rlt_le, Rinv_0_lt_compat, Hden.
  - intros Heq. rewrite Heq, map2_diag.
    rewrite (map_ext _ (fun _ => 0)).
    + rewrite Rsum_zero. unfold Rdiv. apply Rmult_0_l.
    + intros x. rewrite Rminus_diag. apply Rabs_R0.
Qed.

Lemma run_rvalue_of_intensities_witness :
  exists r,
    r = Rsum (map2 (fun x y => Rabs (sqrt x - sqrt y))
                   (pixels observed_1x2) (pixels expected_1x2))
        / Rsum (map sqrt (pixels expected_1x2))
    /\ run_rvalue (mkValidation observed_1x2 expected_1x2) false
       = Ok (Finite r, if false then None else Some (Finite r))
    /\ 0 <= r
    /\ (pixels observed_1x2 = pixels expected_1x2 -> r = 0).
Proof.
  apply (run_rvalue_of_intensities observed_1x2 expected_1x2 false).
  - exact same_shape_1x2.
  - repeat constructor; simpl; lra.
  - repeat constructor; simpl; lra.
  - simpl. rewrite sqrt_1, sqrt_0. lra.
Defined.

(** X25.  When a pixel of either image is negative, its square root is NaN
    and [run_rvalue] returns NaN (images of one shape): the test is for
    intensities only. *)
Theorem run_rvalue_is_nan_on_a_negative_pixel :
  forall (observed expected : Image R) (silent_run : bool) (v : R),
    same_shape (data observed) (data expected) ->
    In v (pixels observed) \/ In v (pixels expected) -> v < 0 ->
    run_rvalue (mkValidation observed expected) silent_run
    = Ok (NaN, if silent_run then None else Some NaN).
Proof.
  intros o e silent_run v H Hin Hv.
  rewrite run_rvalue_same_shape by exact H. cbv zeta.
  assert (Hsq : np_sqrt v = None)
    by (unfold np_sqrt; destruct (Rlt_dec v 0); [reflexivity|lra]).
  destruct Hin as [Hin|Hin].
  - assert (Hnum : nan_sum
                     (map (option_map (fun d => sqrt (d * d)))
                          (map2 (fun x y => nan_sub (np_sqrt x) (np_sqrt y))
                                (pixels o) (pixels e))) = None).
    { apply nan_sum_none.
      pose proof (flat_length _ _ H) as Hlen. fold (pixels o) (pixels e) in Hlen.
      destruct (In_nth_error _ _ Hin) as [i Hi].
      assert (Hlt : (i < length (pixels e))%nat).
      { rewrite <- Hlen. apply nth_error_Some. congruence. }
      destruct (nth_error (pixels e) i) as [y|] eqn:Hy;
        [|apply nth_error_None in Hy; lia].
      apply in_map_iff. exists (nan_sub (np_sqrt v) (np_sqrt y)).
      split; [rewrite Hsq; reflexivity|].
      apply (nth_error_In _ i). rewrite nth_error_map2, Hi, Hy.
      reflexivity. }
    rewrite Hnum. reflexivity.
  - assert (Hden : nan_sum (map np_sqrt (pixels e)) = None).
    { apply nan_sum_none. apply in_map_iff. exists v. split; assumption. }
    rewrite Hden.
    destruct (nan_sum (map (option_map (fun d => sqrt (d * d))) _));
      reflexivity.
Qed.

Lemma run_rvalue_is_nan_on_a_negative_pixel_witness :
  run_rvalue (mkValidation (map_data (fun v => v - 4) observed_1x2)
                           expected_1x2) false
  = Ok (NaN, if false then None else Some NaN).
Proof.
  apply (run_rvalue_is_nan_on_a_negative_pixel
           (map_data (fun v => v - 4) observed_1x2) expected_1x2 false (3 - 4)).
  - repeat constructor.
  - left. left. reflexivity.
  - lra.
Defined.

(** ** The RMSE check *)

Lemma Rsum_map_shift (l : list R) (c : R) :
  Rsum (map (fun v => v + c) l) = Rsum l + INR (length l) * c.
Proof.
  induction l as [|x l IH]; [simpl; lra|].
  change (Rsum (map (fun v => v + c) (x :: l)))
    with (x + c + Rsum (map (fun v => v + c) l)).
  change (Rsum (x :: l)) with (x + Rsum l).
  change (length (x :: l)) with (S (length l)).
  rewrite IH, S_INR. lra.
Qed.

Lemma np_mean_shift (a : list (list (list R))) (c : R) :
  ravel (concat a) <> [] ->
  np_mean (map (map (map (fun v => v + c))) a) = np_mean a + c.
Proof.
  intros Hne. unfold np_mean. rewrite flat_map3, length_map, Rsum_map_shift.
  assert (Hn : INR (length (ravel (concat a))) <> 0).
  { apply not_0_INR. destruct (ravel (concat a)); [congruence|discriminate]. }
  field. exact Hn.
Qed.

Lemma centred_shift (a : list (list (list R))) (c : R) :
  ravel (concat a) <> [] ->
  map (map (map (fun v => v - np_mean (map (map (map (fun v => v + c))) a))))
      (map (map (map (fun v => v + c))) a)
  = map (map (map (fun v => v - np_mean a))) a.
Proof.
  intros Hne. rewrite np_mean_shift by exact Hne.
  rewrite map_map. apply map_ext. intros p.
  rewrite map_map. apply map_ext. intros r.
  rewrite map_map. apply map_ext. intros v. ring.
Qed.

(** X26.  [run_rmse_check] does not see a constant added to the observed
    image nor one added to the expected image: each image is compared after
    its own mean is removed, in real and in reciprocal space. *)
Theorem run_rmse_check_ignores_constant_offsets :
  forall (observed expected : Image R) (c1 c2 : R),
    pixels observed <> [] -> pixels expected <> [] ->
    run_rmse_check (mkValidation (map_data (fun v => v + c1) observed)
                                 (map_data (fun v => v + c2) expected))
    = run_rmse_check (mkValidation observed expected).
Proof.
  intros o e c1 c2 Ho He. unfold run_rmse_check.
  cbn [obs exp map_data data navigation_axes x_axis y_axis metadata].
  rewrite (centred_shift (data o) c1 Ho), (centred_shift (data e) c2 He).
  reflexivity.
Qed.

Lemma run_rmse_check_ignores_constant_offsets_witness :
  run_rmse_check (mkValidation (map_data (fun v => v + 5) observed_1x2)
                               (map_data (fun v => v + 7) expected_1x2))
  = run_rmse_check (mkValidation observed_1x2 expected_1x2).
Proof.
  apply (run_rmse_check_ignores_constant_offsets observed_1x2 expected_1x2 5 7);
    discriminate.
Defined.

Lemma data_get_dimensions {A : Type} (s : Image A) :
  data (get_dimensions_from_data s) = data s.
Proof.
  unfold get_dimensions_from_data. destruct (data s) eqn:E; [exact E|].
  reflexivity.
Qed.

Lemma Cabs_Csub_diag (z : complex) : Cabs (Csub z z) * Cabs (Csub z z) = 0.
Proof.
  unfold Cabs, Csub. cbn [Re Im]. rewrite !Rminus_diag, Rmult_0_l, Rplus_0_l.
  rewrite sqrt_0. ring.
Qed.

(** X27.  Two images that differ by a constant are the same to
    [run_rmse_check]: both maps it returns, the one in real space and the one
    in reciprocal space, are zero at every pixel. *)
Theorem run_rmse_check_of_images_differing_by_a_constant :
  forall (image : Image R) (c : R),
    pixels image <> [] ->
    exists rmse_ij rmse_kl,
      run_rmse_check (mkValidation (map_data (fun v => v + c) image) image)
      = Ok (rmse_ij, rmse_kl)
      /\ data rmse_ij = map (map (map (fun _ => 0))) (data image)
      /\ Forall (Forall (Forall (fun v => v = 0))) (data rmse_kl)
      /\ length (data rmse_kl) = length (data image).
Proof.
  intros image c Hne.
  assert (Hsame :
            run_rmse_check (mkValidation (map_data (fun v => v + c) image)
                                         image)
            = run_rmse_check (mkValidation image image)).
  { unfold run_rmse_check.
    cbn [obs exp map_data data navigation_axes x_axis y_axis metadata].
    rewrite (centred_shift (data image) c Hne). reflexivity. }
  rewrite Hsame. unfold run_rmse_check. cbn [obs exp].
  rewrite !broadcast_planes_same_shape by apply same_shape_refl.
  cbn [bind]. rewrite !zip_planes_diag.
  eexists. eexists. split; [reflexivity|]. split; [|split].
  - cbn [data]. rewrite !map_map. apply map_ext. intros p.
    rewrite !map_map. apply map_ext. intros r.
    rewrite !map_map. apply map_ext. intros v. ring.
  - assert (Hz : Forall (Forall (Forall (fun v => v = 0)))
                   (map (map (map (fun z => Cabs z * Cabs z)))
                        (map (map (map (fun x => Csub x x)))
                             (map np_fft2
                                  (map (map (map (fun v =>
                                                    v - np_mean (data image))))
                                       (data image)))))).
    { apply Forall_forall. intros p Hp.
      apply in_map_iff in Hp. destruct Hp as [p1 [<- Hp]].
      apply in_map_iff in Hp. destruct Hp as [p2 [<- _]].
      apply Forall_forall. intros r Hr.
      apply in_map_iff in Hr. destruct Hr as [r1 [<- Hr]].
      apply in_map_iff in Hr. destruct Hr as [r2 [<- _]].
      apply Forall_forall. intros v Hv.
      apply in_map_iff in Hv. destruct Hv as [z1 [<- Hv]].
      apply in_map_iff in Hv. destruct Hv as [z2 [<- _]].
      apply Cabs_Csub_diag. }
    rewrite data_get_dimensions. cbn [data]. exact Hz.
  - rewrite data_get_dimensions. cbn [data]. rewrite !length_map.
    reflexivity.
Qed.

Lemma run_rmse_check_of_images_differing_by_a_constant_witness :
  exists rmse_ij rmse_kl,
    run_rmse_check (mkValidation (map_data (fun v => v + 5) observed_1x2)
                                 observed_1x2)
    = Ok (rmse_ij, rmse_kl)
    /\ data rmse_ij = map (map (map (fun _ => 0))) (data observed_1x2)
    /\ Forall (Forall (Forall (fun v => v = 0))) (data rmse_kl)
    /\ length (data rmse_kl) = length (data observed_1x2).
Proof.
  apply (run_rmse_check_of_images_differing_by_a_constant observed_1x2 5).
  discriminate.
Defined.

(** ** Images built from arrays *)

(** X28.  [numpy2ModI] on a two-dimensional array gives an image without
    navigation axis whose pixel [(j, i)] has the real-space coordinates
    [(osig[0] + i*dsig[0], osig[1] + j*dsig[1])]: the first entry of [dsig]
    and [osig] goes with the columns ([x]), the second with the rows ([y]),
    and [dnav], [onav] are not looked at.  On a three-dimensional array the
    navigation axis takes [dnav[0]] and [onav[0]], and an empty [onav] or
    [dnav] raises [IndexError]. *)
Theorem numpy2ModI_calibrates_the_axes :
  forall (A : Type) (plane : list (list A)) (planes : list (list (list A)))
         (dx dy ox oy dn on : R) (dnav onav : list R),
    (exists img,
        numpy2ModI (Array2D plane) [dx; dy] [ox; oy] dnav onav = Ok img
        /\ data img = [plane] /\ navigation_axes img = []
        /\ get_real_space img false None
           = Ok (map (fun i => ox + INR i * dx) (seq 0 (length (hd [] plane))),
                 map (fun j => oy + INR j * dy) (seq 0 (length plane))))
    /\ (exists img,
        numpy2ModI (Array3D planes) [dx; dy] [ox; oy] [dn] [on] = Ok img
        /\ data img = planes
        /\ navigation_axes img = [mkAxis (length planes) dn on ""])
    /\ numpy2ModI (Array3D planes) [dx; dy] [ox; oy] dnav [] = Raise IndexError
    /\ numpy2ModI (Array3D planes) [dx; dy] [ox; oy] [] onav = Raise IndexError.
Proof.
  intros A plane planes dx dy ox oy dn on dnav onav.
  split; [|split; [|split]].
  - eexists. split; [reflexivity|]. split; [reflexivity|].
    split; [reflexivity|]. reflexivity.
  - unfold numpy2ModI. cbn [tuple_item nth_error bind image_of_array
                            navigation_axes length seq combine mapM fst snd].
    eexists. split; [reflexivity|].
    unfold get_dimensions_from_data. cbn [data].
    destruct planes; split; reflexivity.
  - unfold numpy2ModI. cbn [tuple_item nth_error bind image_of_array
                            navigation_axes length seq combine mapM fst snd].
    reflexivity.
  - unfold numpy2ModI. cbn [tuple_item nth_error bind image_of_array
                            navigation_axes length seq combine mapM fst snd].
    destruct onav; reflexivity.
Qed.

(** ** The Fourier ring correlation of two images *)

(** The digitized radius and the bin width depend on the image through its
    signal axes only. *)
Lemma get_digitized_radius_axes {A B : Type} (s1 : Image A) (s2 : Image B)
    (bin_size : bin_size_arg) (shifted : bool)
    (shifts : option (list shift_val)) :
  x_axis s1 = x_axis s2 -> y_axis s1 = y_axis s2 ->
  get_digitized_radius s1 bin_size shifted shifts
  = get_digitized_radius s2 bin_size shifted shifts.
Proof.
  intros Hx Hy.
  unfold get_digitized_radius, get_real_space, radius_bin_size,
    default_bin_size, signal_signal, signal_axes.
  rewrite Hx, Hy. reflexivity.
Qed.

Lemma radius_bin_size_axes {A B : Type} (s1 : Image A) (s2 : Image B)
    (mesh : list (list R)) (bin_size : bin_size_arg) :
  x_axis s1 = x_axis s2 -> y_axis s1 = y_axis s2 ->
  radius_bin_size s1 mesh bin_size = radius_bin_size s2 mesh bin_size.
Proof.
  intros Hx Hy. unfold radius_bin_size, default_bin_size, signal_axes.
  rewrite Hx, Hy. reflexivity.
Qed.

Lemma mapM_raise {A B : Type} (f : A -> result B) (l : list A) (e : exn) :
  mapM f l = Raise e -> exists a, In a l /\ f a = Raise e.
Proof.
  induction l as [|a t IH]; simpl; [discriminate|].
  destruct (f a) as [b|e'] eqn:Hb; cbn [bind].
  - destruct (mapM f t) as [bs|e''] eqn:Ht; cbn [bind]; [discriminate|].
    intros H. injection H as ->. destruct (IH eq_refl) as [a' [Hin Ha']].
    exists a'. split; [right; exact Hin|exact Ha'].
  - intros H. injection H as ->. exists a. split; [left; reflexivity|exact Hb].
Qed.

Lemma integrate_binary_real_raise (sdata mask : list (list R))
    (normalize : bool) (e : exn) :
  integrate_binary_real sdata mask normalize = Raise e -> e = ValueError.
Proof.
  unfold integrate_binary_real, np_unique_inverse_counts, np_bincount.
  destruct (Nat.eqb _ _); cbn [bind].
  - destruct normalize; discriminate.
  - intros H. injection H as <-. reflexivity.
Qed.

Lemma integrate_binary_raise (s mask : Image R) (normalize : bool) (e : exn) :
  integrate_binary s mask normalize = Raise e -> e = ValueError.
Proof.
  unfold integrate_binary.
  destruct (mask_planes mask (length (data s))) as [masks|e'] eqn:Hm;
    cbn [bind].
  - destruct (mapM _ _) as [rows|e''] eqn:Hrows; cbn [bind].
    + destruct (navigation_axes mask); [|discriminate].
      destruct (Nat.eqb _ _); discriminate.
    + intros H. injection H as ->.
      apply mapM_raise in Hrows. destruct Hrows as [[p m] [_ Hr]].
      eapply integrate_binary_real_raise. exact Hr.
  - intros H. injection H as ->. revert Hm. unfold mask_planes.
    destruct (navigation_axes mask), (data mask) as [|m [|m' ms]];
      try discriminate;
      repeat match goal with
             | |- context [if ?c then _ else _] => destruct c
             end; try discriminate; intros H; injection H as <-; reflexivity.
Qed.

(** Once the radial integral of one image is returned, that of an image
    with the same signal axes can only fail on the shape of its data. *)
Lemma integrate_radial_raise_after_ok (s1 s2 : Image R)
    (bin_size : bin_size_arg) (r : Signal1D R) (e : exn) :
  x_axis s1 = x_axis s2 -> y_axis s1 = y_axis s2 ->
  integrate_radial s1 bin_size false None true = Ok r ->
  integrate_radial s2 bin_size false None true = Raise e ->
  e = ValueError.
Proof.
  intros Hx Hy. unfold integrate_radial.
  rewrite (get_digitized_radius_axes s1 s2 bin_size false None Hx Hy).
  destruct (get_digitized_radius s2 bin_size false None) as [radius|e'];
    cbn [bind]; [|discriminate].
  intros _ H. eapply integrate_binary_raise. exact H.
Qed.

Lemma map2_flip {A B D : Type} (f : A -> B -> D) (l : list A) (m : list B) :
  map2 f l m = map2 (fun y x => f x y) m l.
Proof.
  unfold map2. revert m. induction l as [|x l IH]; intros [|y m];
    cbn [combine map fst snd]; [reflexivity..|]. f_equal. apply IH.
Qed.

Lemma map2_combine_swap {A B D : Type} (h : A -> B -> B -> D)
    (X : list A) (U V : list B) :
  (forall x a b, h x a b = h x b a) ->
  map2 (fun x p => h x (fst p) (snd p)) X (combine U V)
  = map2 (fun x p => h x (fst p) (snd p)) X (combine V U).
Proof.
  intros Hh. unfold map2. revert U V.
  induction X as [|x X IH]; intros [|u U] [|v V];
    cbn [combine map fst snd]; try reflexivity.
  f_equal; [apply Hh|apply IH].
Qed.

Lemma frc_value_comm (x a b : R) : frc_value x a b = frc_value x b a.
Proof. unfold frc_value. rewrite (Rmult_comm a b). reflexivity. Qed.

Lemma cross_correlation_comm (o e : complex) :
  Re (Cmul o (Cconj e)) = Re (Cmul e (Cconj o)).
Proof. destruct o, e. simpl. ring. Qed.

(** X29.  The Fourier ring correlation is symmetric in its two images when
    their transforms carry the same axes: exchanging the observed and the
    expected image gives the same curve, or the same exception. *)
Theorem fourier_ring_correlation_is_symmetric :
  forall (fft : Image R -> Image complex) (observed expected : Image R)
         (bin_size : bin_size_arg),
    navigation_axes (fft observed) = navigation_axes (fft expected) ->
    x_axis (fft observed) = x_axis (fft expected) ->
    y_axis (fft observed) = y_axis (fft expected) ->
    run_fourier_ring_correlation fft (mkValidation observed expected) bin_size
    = run_fourier_ring_correlation fft (mkValidation expected observed)
                                   bin_size.
Proof.
  intros fft o e bin_size Hnav Hx Hy.
  unfold run_fourier_ring_correlation. cbn [obs exp].
  set (O := fft o) in *. set (E := fft e) in *.
  assert (Hxc : with_data E (zip_planes (fun a b => Re (Cmul a (Cconj b)))
                                        (data E) (data O))
                = with_data O (zip_planes (fun a b => Re (Cmul a (Cconj b)))
                                          (data O) (data E))).
  { unfold with_data. rewrite Hnav, Hx, Hy. f_equal.
    unfold zip_planes. rewrite map2_flip. apply map2_ext_in. intros p q _ _.
    rewrite map2_flip. apply map2_ext_in. intros r s _ _.
    rewrite map2_flip. apply map2_ext_in. intros a b _ _.
    apply cross_correlation_comm. }
  rewrite Hxc.
  set (XC := with_data O (zip_planes (fun a b => Re (Cmul a (Cconj b)))
                                     (data O) (data E))).
  set (OAC := with_data O (map (map (map (fun z => Cabs z * Cabs z)))
                               (data O))).
  set (EAC := with_data E (map (map (map (fun z => Cabs z * Cabs z)))
                               (data E))).
  destruct (integrate_radial XC bin_size false None true) as [xc|ex] eqn:Hxcr;
    [|reflexivity].
  cbn [bind].
  destruct (integrate_radial EAC bin_size false None true) as [a1|e1] eqn:H1;
    destruct (integrate_radial OAC bin_size false None true) as [a2|e2] eqn:H2;
    cbn [bind]; try reflexivity.
  - rewrite Hy. f_equal. f_equal.
    rewrite (map2_combine_swap
               (fun xrow u v =>
                  map2 (fun x a => frc_value x (fst a) (snd a)) xrow
                       (combine u v))).
    + reflexivity.
    + intros xrow u v. apply (map2_combine_swap frc_value), frc_value_comm.
  - assert (E1 : e1 = ValueError).
    { apply (integrate_radial_raise_after_ok XC EAC bin_size xc e1);
        [exact Hx|exact Hy|exact Hxcr|exact H1]. }
    assert (E2 : e2 = ValueError).
    { apply (integrate_radial_raise_after_ok XC OAC bin_size xc e2);
        [reflexivity|reflexivity|exact Hxcr|exact H2]. }
    rewrite E1, E2. reflexivity.
Qed.

Lemma fourier_ring_correlation_is_symmetric_witness :
  run_fourier_ring_correlation fft_single_pixel
    (mkValidation observed_1x2 expected_1x2) BinNone
  = run_fourier_ring_correlation fft_single_pixel
      (mkValidation expected_1x2 observed_1x2) BinNone.
Proof.
  apply (fourier_ring_correlation_is_symmetric fft_single_pixel observed_1x2
           expected_1x2 BinNone); reflexivity.
Defined.

(** ** The size of the Fourier ring correlation *)

(** The squared modulus of a complex number and the real part of a product
    with a conjugate, in coordinates. *)
Lemma Cabs_square (z : complex) : Cabs z * Cabs z = Re z * Re z + Im z * Im z.
Proof. unfold Cabs. apply sqrt_sqrt. nra. Qed.

Lemma cross_correlation_coordinates (o e : complex) :
  Re (Cmul o (Cconj e)) = Re o * Re e + Im o * Im e.
Proof. destruct o, e. simpl. ring. Qed.

Lemma labelled_with_map {A B : Type} (h : A -> B) (m : list R) (l : list A)
    (d : R) :
  labelled_with m (map h l) d = map h (labelled_with m l d).
Proof.
  unfold labelled_with. revert l.
  induction m as [|x m IH]; intros [|a l]; cbn [map combine filter fst];
    try reflexivity.
  destruct (Reqb x d); cbn [map snd]; [f_equal|]; apply IH.
Qed.

Lemma map2_nil_r {A B D : Type} (f : A -> B -> D) (l : list A) :
  map2 f l [] = [].
Proof. unfold map2. destruct l; reflexivity. Qed.

Lemma labelled_with_map2 {A B D : Type} (g : A -> B -> D) (m : list R)
    (l1 : list A) (l2 : list B) (d : R) :
  labelled_with m (map2 g l1 l2) d
  = map2 g (labelled_with m l1 d) (labelled_with m l2 d).
Proof.
  revert l1 l2. induction m as [|x m IH]; intros l1 l2; [reflexivity|].
  destruct l1 as [|a l1]; [reflexivity|].
  destruct l2 as [|b l2].
  - rewrite map2_nil_r. unfold labelled_with at 1 3. cbn [combine filter map].
    rewrite map2_nil_r. reflexivity.
  - specialize (IH l1 l2). unfold labelled_with, map2 in *.
    cbn [combine map filter fst snd].
    destruct (Reqb x d); cbn [map combine fst snd]; [f_equal|]; exact IH.
Qed.

Lemma labelled_with_length {A : Type} (m : list R) (l : list A) (d : R) :
  length m = length l -> length (labelled_with m l d) = count_of m d.
Proof.
  unfold labelled_with, count_of. rewrite length_map. revert l.
  induction m as [|x m IH]; intros [|a l] Hl; simpl in *; try discriminate;
    [reflexivity|].
  destruct (Reqb x d); simpl; rewrite IH by lia; reflexivity.
Qed.

(** ** The inequality of Cauchy and Schwarz *)

Lemma cauchy_schwarz_step (s a b S U V : R) :
  s * s <= a * b -> S * S <= U * V ->
  0 <= a -> 0 <= b -> 0 <= U -> 0 <= V ->
  (s + S) * (s + S) <= (a + U) * (b + V).
Proof.
  intros Hs HS Ha Hb HU HV.
  assert (H1 : (s * S) * (s * S) <= (a * b) * (U * V)).
  { replace (s * S * (s * S)) with ((s * s) * (S * S)) by ring.
    apply Rmult_le_compat; nra. }
  assert (H2 : 4 * ((a * b) * (U * V)) <= (a * V + b * U) * (a * V + b * U)).
  { pose proof (Rle_0_sqr (a * V - b * U)) as Hsq. unfold Rsqr in Hsq. nra. }
  assert (H3 : 0 <= a * V + b * U) by nra.
  assert (H4 : 2 * (s * S) <= a * V + b * U).
  { destruct (Rle_lt_dec (2 * (s * S)) (a * V + b * U)) as [Hle|Hgt]; [exact Hle|].
    exfalso.
    assert (Hsq : (a * V + b * U) * (a * V + b * U)
                  < (2 * (s * S)) * (2 * (s * S))).
    { apply Rmult_le_0_lt_compat; lra. }
    nra. }
  nra.
Qed.

Lemma cauchy_schwarz (so se : list complex) :
  let S := Rsum (map2 (fun o e => Re (Cmul o (Cconj e))) so se) in
  let U := Rsum (map (fun z => Cabs z * Cabs z) so) in
  let V := Rsum (map (fun z => Cabs z * Cabs z) se) in
  length so = length se -> S * S <= U * V /\ 0 <= U /\ 0 <= V.
Proof.
  cbv zeta. revert se.
  induction so as [|o so IH]; intros [|e se] Hl; simpl in Hl; try discriminate.
  - unfold map2. simpl. lra.
  - destruct (IH se) as [HS [HU HV]]; [lia|].
    unfold map2 in *. cbn [combine map fst snd].
    change (Rsum (?x :: ?l)) with (x + Rsum l).
    rewrite !Cabs_square, cross_correlation_coordinates.
    set (S := Rsum (map (fun p => Re (Cmul (fst p) (Cconj (snd p))))
                        (combine so se))) in *.
    set (U := Rsum (map (fun z => Cabs z * Cabs z) so)) in *.
    set (V := Rsum (map (fun z => Cabs z * Cabs z) se)) in *.
    assert (Ha : 0 <= Re o * Re o + Im o * Im o) by nra.
    assert (Hb : 0 <= Re e * Re e + Im e * Im e) by nra.
    split; [|split; lra].
    apply cauchy_schwarz_step; try assumption.
    pose proof (Rle_0_sqr (Re o * Im e - Im o * Re e)) as Hsq.
    unfold Rsqr in Hsq. nra.
Qed.

(** A correlation value whose numerator and denominators are the means of
    a cross term and of two squared moduli lies between -1 and 1; where the
    denominator is zero the numerator is zero too, and the value is NaN. *)
Lemma frc_value_bounded (S U V : R) (n : nat) :
  S * S <= U * V -> 0 <= U -> 0 <= V -> (0 < n)%nat ->
  nan_or_within_one (frc_value (S / INR n) (V / INR n) (U / INR n)).
Proof.
  intros HS HU HV Hn. apply lt_0_INR in Hn.
  set (x := S / INR n). set (a1 := V / INR n). set (a2 := U / INR n).
  assert (Hi : 0 < / INR n) by (apply Rinv_0_lt_compat; exact Hn).
  assert (Ha1 : 0 <= a1) by (unfold a1, Rdiv; nra).
  assert (Ha2 : 0 <= a2) by (unfold a2, Rdiv; nra).
  assert (Hx : x * x <= a1 * a2).
  { unfold x, a1, a2, Rdiv.
    replace (S * / INR n * (S * / INR n)) with ((S * S) * (/ INR n * / INR n))
      by ring.
    replace (V * / INR n * (U * / INR n)) with ((U * V) * (/ INR n * / INR n))
      by ring.
    apply Rmult_le_compat_r; nra. }
  unfold frc_value, np_sqrt, np_divide, nan_or_within_one.
  destruct (Rlt_dec (a1 * a2) 0) as [Hneg|_]; [nra|].
  assert (Hss : sqrt (a1 * a2) * sqrt (a1 * a2) = a1 * a2)
    by (apply sqrt_sqrt; nra).
  destruct (Req_dec_T (sqrt (a1 * a2)) 0) as [Hz|Hnz].
  - assert (Hx0 : x = 0) by (rewrite Hz in Hss; nra).
    destruct (Req_dec_T x 0) as [_|Hne]; [exact I|contradiction].
  - assert (Hs : 0 < sqrt (a1 * a2)).
    { pose proof (sqrt_pos (a1 * a2)). lra. }
    set (s := sqrt (a1 * a2)) in *.
    assert (Hle : - s <= x <= s).
    { split.
      - destruct (Rle_lt_dec (- s) x) as [H|H]; [exact H|]. exfalso. nra.
      - destruct (Rle_lt_dec x s) as [H|H]; [exact H|]. exfalso. nra. }
    unfold Rdiv. assert (His : 0 < / s) by (apply Rinv_0_lt_compat; exact Hs).
    assert (Hone : s * / s = 1) by (apply Rinv_r; lra).
    split; nra.
Qed.

(** ** The three radial integrals on one mask *)

Lemma map_map2 {A B D E : Type} (h : D -> E) (f : A -> B -> D) (l : list A)
    (m : list B) :
  map h (map2 f l m) = map2 (fun x y => h (f x y)) l m.
Proof. unfold map2. rewrite map_map. reflexivity. Qed.

Lemma map2_combine_maps {A B D E F : Type} (k : B -> D -> E -> F)
    (f1 : A -> B) (f2 : A -> D) (f3 : A -> E) (l : list A) :
  map2 (fun x a => k x (fst a) (snd a)) (map f1 l)
       (combine (map f2 l) (map f3 l))
  = map (fun d => k (f1 d) (f2 d) (f3 d)) l.
Proof.
  unfold map2. induction l as [|a l IH]; [reflexivity|].
  cbn [map combine fst snd]. f_equal. exact IH.
Qed.

Lemma triple_combine_In {A B X P Q : Type} (F : A -> B -> X) (p : B -> P)
    (q : A -> Q) (l : list A) (m : list B) (x : X) (a1 : P) (a2 : Q) :
  In (x, (a1, a2)) (combine (map2 F l m) (combine (map p m) (map q l))) ->
  exists o e, In (o, e) (combine l m) /\ x = F o e /\ a1 = p e /\ a2 = q o.
Proof.
  unfold map2. revert m.
  induction l as [|o l IH]; intros [|e m] Hin;
    cbn [combine map fst snd] in Hin; try destruct Hin as [].
  - match goal with H : _ = _ |- _ => injection H as <- <- <- end.
    exists o, e. split; [left; reflexivity|auto].
  - match goal with H : In _ _ |- _ => apply IH in H end.
    match goal with H : exists _, _ |- _ =>
      destruct H as [o' [e' [Hin' Hrest]]] end.
    exists o', e'. split; [right; exact Hin'|exact Hrest].
Qed.

Lemma rows_are_label_means (planes : list (list (list R)))
    (mask : list (list R)) (rows : list (list R)) :
  (forall plane, In plane planes ->
                 length (ravel plane) = length (ravel mask)) ->
  mapM (fun plane => integrate_binary_real plane mask true) planes = Ok rows ->
  rows = map (label_means mask) planes.
Proof.
  intros Hshape Hrows.
  rewrite (mapM_pointwise_in _ (label_means mask)) in Hrows.
  - injection Hrows as <-. reflexivity.
  - intros plane Hin.
    apply (integrate_binary_real_by_label plane mask true), Hshape, Hin.
Qed.

Lemma well_formed_plane_length {A : Type} (s : Image A)
    (plane : list (list A)) :
  well_formed s -> In plane (data s) ->
  length (ravel plane) = (size (y_axis s) * size (x_axis s))%nat.
Proof.
  intros [_ [_ Hd]] Hin. rewrite Forall_forall in Hd.
  destruct (Hd plane Hin) as [Hrows Hcols].
  rewrite (length_ravel_uniform _ _ Hcols), Hrows. reflexivity.
Qed.

Lemma well_formed_cross_correlation (O E : Image complex) :
  well_formed O -> well_formed E ->
  x_axis O = x_axis E -> y_axis O = y_axis E ->
  well_formed (with_data O (zip_planes (fun o e => Re (Cmul o (Cconj e)))
                                       (data O) (data E))).
Proof.
  intros [Hx [Hy HdO]] [_ [_ HdE]] Hax Hay.
  unfold well_formed, with_data.
  cbn [x_axis y_axis data]. split; [exact Hx|]. split; [exact Hy|].
  rewrite <- Hax, <- Hay in HdE. rewrite Forall_forall in *.
  intros plane Hin. unfold zip_planes, map2 in Hin.
  apply in_map_iff in Hin. destruct Hin as [[p q] [<- Hpq]].
  destruct (HdO p (in_combine_l _ _ _ _ Hpq)) as [Hp Hpr].
  destruct (HdE q (in_combine_r _ _ _ _ Hpq)) as [Hq Hqr].
  cbn [fst snd]. rewrite length_map, length_combine, Hp, Hq, Nat.min_id.
  split; [reflexivity|]. rewrite Forall_forall in *.
  intros row Hrow. apply in_map_iff in Hrow.
  destruct Hrow as [[r s] [<- Hrs]]. cbn [fst snd].
  rewrite length_map, length_combine.
  rewrite (Hpr r (in_combine_l _ _ _ _ Hrs)).
  rewrite (Hqr s (in_combine_r _ _ _ _ Hrs)). apply Nat.min_id.
Qed.

(** The radial integral of a well formed image on the axes of [O]: its rows
    are the means of the planes over the rings of the one radius mask. *)
Lemma radial_rows_on_axes {A : Type} (O : Image A) (s : Image R)
    (bin_size : bin_size_arg) (w lo : R) :
  well_formed s ->
  x_axis s = x_axis O -> y_axis s = y_axis O ->
  radius_bin_size O (radius_mesh (axis_values (x_axis O))
                                 (axis_values (y_axis O))) bin_size = Ok w ->
  0 < w ->
  np_min (ravel (radius_mesh (axis_values (x_axis O))
                             (axis_values (y_axis O)))) = Ok lo ->
  exists r,
    integrate_radial s bin_size false None true = Ok r
    /\ sig_data r
       = map (label_means
                (map (map (right_edge lo w))
                     (radius_mesh (axis_values (x_axis O))
                                  (axis_values (y_axis O)))))
             (data s).
Proof.
  intros Hwf Hx Hy Hw Hpos Hlo.
  rewrite (radius_bin_size_axes O s _ bin_size (eq_sym Hx) (eq_sym Hy)) in Hw.
  rewrite <- Hx, <- Hy in Hw, Hlo |- *.
  destruct (integrate_radial_unshifted_ok s bin_size w Hwf Hw Hpos)
    as [lo' [mask [r [Hlo' [Hmask [_ [_ [Hir Hrows]]]]]]]].
  rewrite Hlo in Hlo'. injection Hlo' as <-.
  exists r. split; [exact Hir|]. rewrite <- Hmask.
  apply rows_are_label_means; [|exact Hrows].
  intros plane Hin. rewrite (well_formed_plane_length s plane Hwf Hin).
  rewrite Hmask, length_ravel_map, length_ravel_radius_mesh.
  rewrite !axis_values_length. reflexivity.
Qed.

Lemma ravel_map {A B : Type} (g : A -> B) (a : list (list A)) :
  ravel (map (map g) a) = map g (ravel a).
Proof. unfold ravel. symmetry. apply concat_map. Qed.

Lemma ravel_map2 {A B D : Type} (f : A -> B -> D) (a : list (list A))
    (b : list (list B)) (n : nat) :
  length a = length b ->
  Forall (fun row => length row = n) a ->
  Forall (fun row => length row = n) b ->
  ravel (map2 (map2 f) a b) = map2 f (ravel a) (ravel b).
Proof.
  intros Hl Ha Hb. unfold ravel. apply concat_map2.
  revert b Hl Hb. induction Ha as [|u a Hu _ IH]; intros [|v b] Hl Hb;
    simpl in Hl; try discriminate; constructor.
  - inversion Hb; subst. congruence.
  - apply IH; [lia|]. inversion Hb; assumption.
Qed.

(** One ring of one pair of planes: the correlation value is NaN or lies
    between -1 and 1, and is no infinity. *)
Lemma frc_ring_bounded (mask : list (list R)) (o e : list (list complex))
    (d : R) (rows cols : nat) :
  length o = rows -> Forall (fun row => length row = cols) o ->
  length e = rows -> Forall (fun row => length row = cols) e ->
  length (ravel mask) = (rows * cols)%nat ->
  In d (ravel mask) ->
  let mean (plane : list (list R)) :=
    Rsum (pixels_labelled plane mask d)
    / INR (length (pixels_labelled plane mask d)) in
  nan_or_within_one
    (frc_value
       (mean (map2 (map2 (fun a b => Re (Cmul a (Cconj b)))) o e))
       (mean (map (map (fun z => Cabs z * Cabs z)) e))
       (mean (map (map (fun z => Cabs z * Cabs z)) o))).
Proof.
  intros Ho Hoc He Hec Hm Hd mean. subst mean. cbv beta.
  change (pixels_labelled ?p mask d) with (labelled_with (ravel mask) (ravel p) d).
  rewrite (ravel_map2 _ o e cols) by (try assumption; congruence).
  rewrite !ravel_map, labelled_with_map2, !labelled_with_map.
  assert (Hlo : length (ravel mask) = length (ravel o)).
  { rewrite (length_ravel_uniform _ _ Hoc), Ho. exact Hm. }
  assert (Hle : length (ravel mask) = length (ravel e)).
  { rewrite (length_ravel_uniform _ _ Hec), He. exact Hm. }
  pose proof (labelled_with_length (ravel mask) (ravel o) d Hlo) as Lo.
  pose proof (labelled_with_length (ravel mask) (ravel e) d Hle) as Le.
  set (so := labelled_with (ravel mask) (ravel o) d) in *.
  set (se := labelled_with (ravel mask) (ravel e) d) in *.
  rewrite map2_length, !length_map, Lo, Le, Nat.min_id.
  destruct (cauchy_schwarz so se) as [HS [HU HV]]; [congruence|].
  apply frc_value_bounded; try assumption.
  apply count_of_positive, Hd.
Qed.

(** X30.  For two images whose transforms are well formed and have the same
    shape and signal axes, and a positive bin width, the Fourier ring
    correlation is returned and each of its values is NaN or a number
    between -1 and 1: no value is an infinity, since a ring on which the
    denominator vanishes has a zero numerator too. *)
Theorem fourier_ring_correlation_is_at_most_one :
  forall (fft : Image R -> Image complex) (observed expected : Image R)
         (bin_size : bin_size_arg) (w : R),
    well_formed (fft observed) -> well_formed (fft expected) ->
    length (data (fft observed)) = length (data (fft expected)) ->
    x_axis (fft observed) = x_axis (fft expected) ->
    y_axis (fft observed) = y_axis (fft expected) ->
    radius_bin_size (fft observed)
      (radius_mesh (axis_values (x_axis (fft observed)))
                   (axis_values (y_axis (fft observed)))) bin_size = Ok w ->
    0 < w ->
    exists frc,
      run_fourier_ring_correlation fft (mkValidation observed expected)
                                   bin_size = Ok frc
      /\ length (sig_data frc) = length (data (fft observed))
      /\ Forall (Forall nan_or_within_one) (sig_data frc).
Proof.
  intros fft observed expected bin_size w HwO HwE Hlen Hx Hy Hw Hpos.
  unfold run_fourier_ring_correlation. cbn [obs exp].
  set (O := fft observed) in *. set (E := fft expected) in *.
  set (mesh := radius_mesh (axis_values (x_axis O)) (axis_values (y_axis O)))
    in *.
  assert (Hne : ravel mesh <> []).
  { destruct HwO as [H1 [H2 _]].
    apply radius_mesh_nonempty; apply axis_values_nonempty; assumption. }
  destruct (np_min_max_ok _ Hne) as [lo [hi [Hlo _]]].
  set (mask := map (map (right_edge lo w)) mesh).
  destruct (radial_rows_on_axes O
              (with_data O (zip_planes (fun o e => Re (Cmul o (Cconj e)))
                                       (data O) (data E)))
              bin_size w lo
              (well_formed_cross_correlation O E HwO HwE Hx Hy)
              eq_refl eq_refl Hw Hpos Hlo) as [xc [Hxc Hxrows]].
  destruct (radial_rows_on_axes O (autocorrelation E) bin_size w lo
              (well_formed_autocorrelation E HwE)
              (eq_sym Hx) (eq_sym Hy) Hw Hpos Hlo) as [a1 [Ha1 Ha1rows]].
  destruct (radial_rows_on_axes O (autocorrelation O) bin_size w lo
              (well_formed_autocorrelation O HwO)
              eq_refl eq_refl Hw Hpos Hlo) as [a2 [Ha2 Ha2rows]].
  unfold autocorrelation in Ha1, Ha2. rewrite Hxc, Ha1, Ha2. cbn [bind].
  eexists. split; [reflexivity|]. cbn [sig_data].
  rewrite Hxrows, Ha1rows, Ha2rows. fold mesh. fold mask.
  unfold autocorrelation, with_data. cbn [data]. unfold zip_planes.
  rewrite !map_map, map_map2. split.
  - rewrite map2_length, map2_length, length_combine, !length_map.
    rewrite <- Hlen. lia.
  - apply Forall_forall. intros row Hrow. unfold map2 at 1 in Hrow.
    apply in_map_iff in Hrow. destruct Hrow as [[xrow [r1 r2]] [<- Hin]].
    apply (triple_combine_In
             (fun o e => label_means mask
                           (map2 (map2 (fun a b => Re (Cmul a (Cconj b)))) o e))
             (fun e => label_means mask
                         (map (map (fun z => Cabs z * Cabs z)) e))
             (fun o => label_means mask
                         (map (map (fun z => Cabs z * Cabs z)) o)))
      in Hin.
    destruct Hin as [o [e [Hoe [-> [-> ->]]]]]. cbn [fst snd].
    unfold label_means. rewrite map2_combine_maps.
    apply Forall_forall. intros v Hv. apply in_map_iff in Hv.
    destruct Hv as [d [<- Hd]]. apply (proj1 (np_unique_In _ _)) in Hd.
    destruct HwO as [_ [_ HdO]]. destruct HwE as [_ [_ HdE]].
    rewrite Forall_forall in HdO, HdE.
    destruct (HdO o (in_combine_l _ _ _ _ Hoe)) as [Ho Hoc].
    destruct (HdE e (in_combine_r _ _ _ _ Hoe)) as [He Hec].
    rewrite <- Hx in Hec. rewrite <- Hy in He.
    apply (frc_ring_bounded mask o e d (size (y_axis O)) (size (x_axis O)));
      try assumption.
    unfold mask, mesh.
    rewrite length_ravel_map, length_ravel_radius_mesh, !axis_values_length.
    reflexivity.
Qed.

Lemma fourier_ring_correlation_is_at_most_one_witness :
  exists frc,
    run_fourier_ring_correlation fft_single_pixel
      (mkValidation observed_1x2 expected_1x2) BinNone = Ok frc
    /\ length (sig_data frc) = length (data (fft_single_pixel observed_1x2))
    /\ Forall (Forall nan_or_within_one) (sig_data frc).
Proof.
  apply (fourier_ring_correlation_is_at_most_one fft_single_pixel observed_1x2
           expected_1x2 BinNone
           (default_bin_size (fft_single_pixel observed_1x2))).
  - unfold well_formed. simpl. repeat constructor.
  - unfold well_formed. simpl. repeat constructor.
  - reflexivity.
  - reflexivity.
  - reflexivity.
  - reflexivity.
  - unfold default_bin_size. simpl. apply sqrt_lt_R0. lra.
Defined.
